(** * Patch scheduling in the [model] and [ui] packages

    A shallow embedding of the patch expansion and build generation code:
    [VariantTasksToTVPairs], [TVPairsToVariantTasks], [AddNewTasksForPatch],
    [AddNewBuildsForPatch], [IncludePatchDependencies], [FinalizePatch]
    (package [model]) and the pair selection and dispatch of [schedulePatch]
    (package [ui]).

    Go slices are lists, Go maps are [gmap]s, structs are records (one module
    per struct, so that fields keep their Go names), and the database is an
    explicit [Store] threaded through a state-and-error monad.

    The functions above are embedded from their Go text. What they call and
    the sources at hand do not contain (the dependency includer, the id
    table, the build materializer, the methods of the patch document and the
    store) is modelled from the specification, each definition saying so.
    [UpdatePatch], whose body the source leaves unfinished, is not
    embedded.

    The second part embeds code of the other packages at hand: the map of
    variants of [patchPage] and [rawDiffPage] (package [ui]), package
    [sometimes], [CreateTestServer] (package [service]), the validation and
    the [Put] of the S3 put command (package [s3]), and the configuration,
    the construction and the URLs of the buildlogger sender (package [send]).
    What these take from the operating system, the network and packages
    outside the sources is a parameter of the embedding. *)

From stdpp Require Import gmap strings list fin_maps pretty.

Local Open Scope string_scope.
Local Open Scope list_scope.
Local Open Scope nat_scope.

(** ** Data model *)

(** [model.TVPair] *)
Module TVPair.
Record t := mk { Variant : string; TaskName : string }.
#[global] Instance tvpair_eq_dec : EqDecision t.
Proof. solve_decision. Defined.
End TVPair.

(** [patch.VariantTasks] *)
Module VariantTasks.
Record t := mk { Variant : string; Tasks : list string }.
#[global] Instance variant_tasks_eq_dec : EqDecision t.
Proof. solve_decision. Defined.
(** The Go zero value of the struct. *)
Definition zero : t := mk "" [].
End VariantTasks.

(** ** The project: task graph model *)

(** A reference to a task: a dependency of a task definition, or an entry of a
    variant's task list. An empty [Variant] means the variant of the referring
    task. *)
Module TaskRef.
Record t := mk { Name : string; Variant : string }.
End TaskRef.

(** A task definition. [Patchable] is a [*bool] in Go. *)
Module TaskDef.
Record t := mk {
  Name : string;
  Patchable : option bool;
  DependsOn : list TaskRef.t
}.
End TaskDef.

Module BuildVariant.
Record t := mk {
  Name : string;
  DisplayName : string;
  TaskRefs : list TaskRef.t
}.
End BuildVariant.

(** [model.Project]: [BuildVariants] and [Tasks] are the fields that
    [schedulePatch] and [patchPage] read. *)
Module Project.
Record t := mk {
  BuildVariants : list BuildVariant.t;
  Tasks : list TaskDef.t
  }.
Definition zero : t := mk [] [].
End Project.

(** Modelled from the spec: the lookup of a task definition by name (section
    4.1, the task graph model, whose Go code is not part of the sources at
    hand), first match. *)
Definition FindProjectTask (project : Project.t) (name : string) : option TaskDef.t :=
  List.find (λ td, bool_decide (TaskDef.Name td = name)) (Project.Tasks project).

(** Modelled from the spec: the lookup of a build variant by name (section
    4.1), first match. *)
Definition FindBuildVariant (project : Project.t) (name : string) : option BuildVariant.t :=
  List.find (λ bv, bool_decide (BuildVariant.Name bv = name)) (Project.BuildVariants project).

(** The task names a variant lists. *)
Definition variantTaskNames (bv : BuildVariant.t) : list string :=
  TaskRef.Name <$> BuildVariant.TaskRefs bv.

(** Modelled from the spec: [util.SliceContains] on string slices (the helper
    is not part of the sources at hand). *)
Definition SliceContains (slice : list string) (item : string) : bool :=
  bool_decide (item ∈ slice).

(** ** The dependency closure *)

(** Modelled from the spec: a dependency resolved to a concrete variant
    (section 4.2): the explicit variant of the reference, or the variant of
    the dependent pair when unset. *)
Definition resolveRef (pair : TVPair.t) (r : TaskRef.t) : TVPair.t :=
  TVPair.mk
    (if decide (TaskRef.Variant r = "") then TVPair.Variant pair else TaskRef.Variant r)
    (TaskRef.Name r).

(** Modelled from the spec: the dependencies declared by the task definition
    of a pair (section 4.2), each resolved to its variant. A pair whose task
    has no definition declares none. *)
Definition dependencies (project : Project.t) (pair : TVPair.t) : list TVPair.t :=
  match FindProjectTask project (TVPair.TaskName pair) with
  | Some td => resolveRef pair <$> TaskDef.DependsOn td
  | None => []
  end.

(** Modelled from the spec: the work-list traversal of section 4.2. The pair
    at the head of the queue is skipped when already visited, and otherwise
    recorded and its dependencies queued. Go needs no bound for this loop;
    [fuel] is the bound of the Rocq recursion, and [includeFuel] below is
    proved sufficient ([Include_closed]). *)
Fixpoint include_loop (project : Project.t) (fuel : nat)
    (visited work : list TVPair.t) : list TVPair.t :=
  match work, fuel with
  | [], _ => visited
  | _, 0 => visited
  | tv :: work, S fuel =>
      if decide (tv ∈ visited) then include_loop project fuel visited work
      else include_loop project fuel (visited ++ [tv])
             (work ++ dependencies project tv)
  end.

(** Every pair the traversal can meet: a variant of the seed or of a declared
    dependency, with a task name of the seed or of a declared dependency. *)
Definition includeUniverse (project : Project.t) (seed : list TVPair.t) : list TVPair.t :=
  let refs := td ← Project.Tasks project; TaskDef.DependsOn td in
  let variants := (TVPair.Variant <$> seed) ++ (TaskRef.Variant <$> refs) in
  let names := (TVPair.TaskName <$> seed) ++ (TaskRef.Name <$> refs) in
  v ← variants; n ← names; [TVPair.mk v n].

Definition includeFuel (project : Project.t) (seed : list TVPair.t) : nat :=
  S (length seed +
     sum_list_with (λ q, length (dependencies project q)) (includeUniverse project seed)).

(** The work still ahead of the traversal: the queue, and the dependencies of
    the pairs of the universe not visited yet. It bounds the number of
    iterations left. *)
Definition pendingWork (project : Project.t) (universe visited work : list TVPair.t) : nat :=
  length work +
  sum_list_with (λ q, length (dependencies project q))
    (filter (λ q, q ∉ visited) universe).

(** Modelled from the spec: [dependencyIncluder.Include] (section 4.2), whose
    Go code is not part of the sources at hand. The source fixes its type:
    [IncludePatchDependencies] returns [di.Include(tvpairs)] as a [[]TVPair],
    with no error result. The traversal is the visited-set work-list of
    section 4.2; a dependency on a task or variant that the project lacks is
    not dropped, and stays in the result as a pair. *)
Definition Include (project : Project.t) (initialDeps : list TVPair.t) : list TVPair.t :=
  include_loop project (includeFuel project initialDeps) [] initialDeps.

(** [IncludePatchDependencies]. *)
Definition IncludePatchDependencies (project : Project.t) (tvpairs : list TVPair.t)
  : list TVPair.t :=
  Include project tvpairs.


(** ** Conversions between the two request formats *)

(** [VariantTasksToTVPairs]: two nested [range] loops appending to [out]. *)
Definition VariantTasksToTVPairs (in_ : list VariantTasks.t) : list TVPair.t :=
  vt ← in_; t ← VariantTasks.Tasks vt; [TVPair.mk (VariantTasks.Variant vt) t].

(** Body of the first loop of [TVPairsToVariantTasks]: reading a missing key
    of a Go map yields the zero value. *)
Definition vtMap_step (vtMap : gmap string VariantTasks.t) (pair : TVPair.t)
  : gmap string VariantTasks.t :=
  let vt := default VariantTasks.zero (vtMap !! TVPair.Variant pair) in
  let vt := VariantTasks.mk (TVPair.Variant pair)
              (VariantTasks.Tasks vt ++ [TVPair.TaskName pair]) in
  <[TVPair.Variant pair := vt]> vtMap.

Definition vtMap_of (in_ : list TVPair.t) : gmap string VariantTasks.t :=
  foldl vtMap_step ∅ in_.

Section TVPairsToVariantTasks.
(** Go visits the entries of a map in an unspecified order: the order is a
    parameter, which the theorem about the function constrains to enumerate
    the entries of the map. *)
Variable range : gmap string VariantTasks.t → list (string * VariantTasks.t).

(** [TVPairsToVariantTasks]: [make([]patch.VariantTasks, len(vtMap))]
    allocates [len(vtMap)] zero values, and the second loop appends. *)
Definition TVPairsToVariantTasks (in_ : list TVPair.t) : list VariantTasks.t :=
  let vtMap := vtMap_of in_ in
  let vts := replicate (size vtMap) VariantTasks.zero in
  foldl (λ vts kv, vts ++ [kv.2]) vts (range vtMap).
End TVPairsToVariantTasks.

(** The task names requested for variant [v], in request order. *)
Definition tasksOf (v : string) (in_ : list TVPair.t) : list string :=
  TVPair.TaskName <$> filter (λ p, TVPair.Variant p = v) in_.

(** The distinct variants of a pair list. *)
Definition variantsOf (in_ : list TVPair.t) : list string :=
  remove_dups (TVPair.Variant <$> in_).

(** One grouping per distinct variant. *)
Definition groupings (in_ : list TVPair.t) : list VariantTasks.t :=
  (λ v, VariantTasks.mk v (tasksOf v in_)) <$> variantsOf in_.

(** ** The request of [schedulePatch] *)

Module patchVariantsTasksRequest.
Record t := mk {
  VariantsTasks : list VariantTasks.t;  (* new format *)
  Variants : list string;               (* old format *)
  Tasks : list string;                  (* old format *)
  Description : string
}.
End patchVariantsTasksRequest.

(** The pair selection of [schedulePatch]:
    [if len(patchUpdateReq.VariantsTasks) > 0 { ... } else { ... }]. *)
Definition requestPairs (req : patchVariantsTasksRequest.t) : list TVPair.t :=
  if decide (0 < length (patchVariantsTasksRequest.VariantsTasks req)) then
    VariantTasksToTVPairs (patchVariantsTasksRequest.VariantsTasks req)
  else
    v ← patchVariantsTasksRequest.Variants req;
    t ← patchVariantsTasksRequest.Tasks req;
    [TVPair.mk v t].

(** ** Persisted documents *)

(** [patch.Patch]. [Id] is the hexadecimal form of the object id
    ([p.Id.Hex()]). *)
Module Patch.
Record t := mk {
  Id : string;
  Project : string;
  Githash : string;
  Description : string;
  Tasks : list string;
  BuildVariants : list string;
  VariantsTasks : list VariantTasks.t;
  Version : string;
  Activated : bool;
  PatchedConfig : string
}.
Definition with_Description (p : t) (d : string) : t :=
  mk (Id p) (Project p) (Githash p) d (Tasks p) (BuildVariants p)
     (VariantsTasks p) (Version p) (Activated p) (PatchedConfig p).
Definition with_Tasks (p : t) (ts : list string) : t :=
  mk (Id p) (Project p) (Githash p) (Description p) ts (BuildVariants p)
     (VariantsTasks p) (Version p) (Activated p) (PatchedConfig p).
Definition with_BuildVariants (p : t) (bvs : list string) : t :=
  mk (Id p) (Project p) (Githash p) (Description p) (Tasks p) bvs
     (VariantsTasks p) (Version p) (Activated p) (PatchedConfig p).
Definition with_VariantsTasks (p : t) (vts : list VariantTasks.t) : t :=
  mk (Id p) (Project p) (Githash p) (Description p) (Tasks p) (BuildVariants p)
     vts (Version p) (Activated p) (PatchedConfig p).
Definition with_Version (p : t) (v : string) (a : bool) : t :=
  mk (Id p) (Project p) (Githash p) (Description p) (Tasks p) (BuildVariants p)
     (VariantsTasks p) v a (PatchedConfig p).
End Patch.

(** [version.BuildStatus] *)
Module BuildStatus.
Record t := mk { BuildVariant : string; Activated : bool; BuildId : string }.
End BuildStatus.

(** [version.Version], with the fields that [FinalizePatch] sets
    ([CreateTime] is the clock of the environment). *)
Module Version.
Record t := mk {
  Id : string;
  CreateTime : nat;
  Identifier : string;
  Revision : string;
  Author : string;
  AuthorEmail : string;
  Message : string;
  BuildIds : list string;
  BuildVariants : list BuildStatus.t;
  Config : string;
  Status : string;
  Requester : string
}.
Definition with_Builds (v : t) (ids : list string) (sts : list BuildStatus.t) : t :=
  mk (Id v) (CreateTime v) (Identifier v) (Revision v) (Author v) (AuthorEmail v)
     (Message v) ids sts (Config v) (Status v) (Requester v).
End Version.

(** [build.Build] (section 3 of the spec). *)
Module Build.
Record t := mk {
  Id : string;
  Version : string;
  BuildVariant : string;
  TaskIds : list string;
  Activated : bool
}.
Definition with_TaskIds (b : t) (ids : list string) : t :=
  mk (Id b) (Version b) (BuildVariant b) ids (Activated b).
End Build.

(** The task document (section 3 of the spec). *)
Module Task.
Record t := mk {
  Id : string;
  BuildId : string;
  Version : string;
  BuildVariant : string;
  DisplayName : string;
  DependsOn : list string;
  Activated : bool;
  Status : string
}.
End Task.

(** ** The store and its monad *)

(** The four collections, in insertion order. *)
Record Store := mkStore {
  patches : list Patch.t;
  versions : list Version.t;
  builds : list Build.t;
  tasks : list Task.t
}.

(** The error kinds of section 7 of the spec, and the failures that
    [FinalizePatch] and the store report. [NilProjectRef] is not an error
    value: it is the run-time panic of [projectRef.Owner] on a nil
    [projectRef], which unwinds the callers as an error return does, but
    which no caller tests. *)
Inductive error :=
| UnresolvedDependency (pair : TVPair.t)
| AlreadyFinalized
| UnknownVariant (variant : string)
| UnknownTask (variant task : string)
| StoreConflict (id : string)
| DocumentNotFound (id : string)
| ConfigUnmarshalError
| ProjectRefError
| CommitFetchError
| CommitMissing
| NilProjectRef.

Inductive result (E A : Type) :=
| Ok (a : A)
| Err (e : E).
Arguments Ok {E A} a.
Arguments Err {E A} e.

(** A Go function that reads and writes the database and returns a value or
    an error. The writes made before an error stay in the store: nothing is
    rolled back. *)
Definition Db (E A : Type) : Type := Store → Store * result E A.

#[global] Instance Db_ret {E} : MRet (Db E) := λ A a s, (s, Ok a).
#[global] Instance Db_bind {E} : MBind (Db E) := λ A B k m s,
  match m s with
  | (s', Ok a) => k a s'
  | (s', Err e) => (s', Err e)
  end.

Definition fail {E A} (e : E) : Db E A := λ s, (s, Err e).
Definition get {E} : Db E Store := λ s, (s, Ok s).
Definition put {E} (s' : Store) : Db E unit := λ _, (s', Ok tt).

Definition fromOption {E A} (e : E) (o : option A) : Db E A :=
  match o with Some a => mret a | None => fail e end.

(** [if err != nil { <answer with f err>; return }] in a handler. *)
Definition orRespond {E E' A} (f : E → E') (m : Db E A) : Db E' A := λ s,
  match m s with
  | (s', Ok a) => (s', Ok a)
  | (s', Err e) => (s', Err (f e))
  end.

(** A [for _, x := range l] loop whose body may return an error, threading
    the variables the body assigns. *)
Fixpoint foldM {E A S} (f : S → A → Db E S) (acc : S) (l : list A) : Db E S :=
  match l with
  | [] => mret acc
  | x :: l => acc ← f acc x; foldM f acc l
  end.

Definition forM_ {E A B} (f : A → Db E B) (l : list A) : Db E unit :=
  foldM (λ _ x, f x;; mret tt) tt l.

(** ** The store operations (section 6 of the spec) *)

(** The store collaborator of section 6 of the spec, whose Go code (packages
    [patch], [version], [build], [task] and [db]) is not part of the sources
    at hand. Each operation is atomic on one document; an insert rejects an id
    already present (the duplicate-key rejection of section 5) and an update
    of an absent document fails. *)

(** Modelled from the spec: FindPatchById of section 6, which is
    [patch.FindOne(patch.ById(id))] in [schedulePatch]. *)
Definition FindPatchById (id : string) : Db error Patch.t :=
  s ← get;
  fromOption (DocumentNotFound id)
    (List.find (λ p, bool_decide (Patch.Id p = id)) (patches s)).

(** The documents selected by [sel], updated by [f], in place. *)
Definition updateWhere {A} (sel : A → bool) (f : A → A) (l : list A) : list A :=
  (λ x, if sel x then f x else x) <$> l.

(** Modelled from the spec: an update of the patch document [id] by [f]
    (UpdatePatchVariantsAndTasks and UpdatePatchSetVersion of section 6). *)
Definition UpdatePatchDocument (id : string) (f : Patch.t → Patch.t) : Db error unit :=
  s ← get;
  if bool_decide (id ∈ Patch.Id <$> patches s) then
    put (mkStore (updateWhere (λ p, bool_decide (Patch.Id p = id)) f (patches s))
           (versions s) (builds s) (tasks s))
  else fail (DocumentNotFound id).

(** Modelled from the spec: InsertVersion of section 6, which is
    [patchVersion.Insert()] in [FinalizePatch]. *)
Definition InsertVersion (v : Version.t) : Db error unit :=
  s ← get;
  if bool_decide (Version.Id v ∈ Version.Id <$> versions s) then
    fail (StoreConflict (Version.Id v))
  else put (mkStore (patches s) (versions s ++ [v]) (builds s) (tasks s)).

(** Modelled from the spec: UpdateVersionAppendBuilds of section 6, which is
    the [version.UpdateOne] of [AddNewBuildsForPatch]: a [$push] of
    [$each] new build id and build status onto the version document [id]. *)
Definition UpdateVersionAppendBuilds (id : string)
    (newBuildIds : list string) (newBuildStatuses : list BuildStatus.t) : Db error unit :=
  s ← get;
  if bool_decide (id ∈ Version.Id <$> versions s) then
    put (mkStore (patches s)
           (updateWhere (λ v, bool_decide (Version.Id v = id))
              (λ v, Version.with_Builds v (Version.BuildIds v ++ newBuildIds)
                      (Version.BuildVariants v ++ newBuildStatuses))
              (versions s))
           (builds s) (tasks s))
  else fail (DocumentNotFound id).

(** Modelled from the spec: InsertBuild of section 6. *)
Definition InsertBuild (b : Build.t) : Db error unit :=
  s ← get;
  if bool_decide (Build.Id b ∈ Build.Id <$> builds s) then
    fail (StoreConflict (Build.Id b))
  else put (mkStore (patches s) (versions s) (builds s ++ [b]) (tasks s)).

(** Modelled from the spec: UpdateBuildAppendTasks of section 6. *)
Definition UpdateBuildAppendTasks (id : string) (newTaskIds : list string) : Db error unit :=
  s ← get;
  if bool_decide (id ∈ Build.Id <$> builds s) then
    put (mkStore (patches s) (versions s)
           (updateWhere (λ b, bool_decide (Build.Id b = id))
              (λ b, Build.with_TaskIds b (Build.TaskIds b ++ newTaskIds))
              (builds s))
           (tasks s))
  else fail (DocumentNotFound id).

(** Modelled from the spec: InsertTasks of section 6, one document at a
    time: the documents inserted before a rejected one stay. *)
Definition InsertTask (t : Task.t) : Db error unit :=
  s ← get;
  if bool_decide (Task.Id t ∈ Task.Id <$> tasks s) then
    fail (StoreConflict (Task.Id t))
  else put (mkStore (patches s) (versions s) (builds s) (tasks s ++ [t])).

Definition InsertTasks (ts : list Task.t) : Db error unit :=
  forM_ InsertTask ts.

(** Modelled from the spec: [build.Find(build.ByIds(ids))], the builds whose
    id is among [ids], in store order. *)
Definition FindBuildsByIds (ids : list string) : Db error (list Build.t) :=
  s ← get;
  mret (filter (λ b, Build.Id b ∈ ids) (builds s)).

(** ** Methods of the patch document *)

(** Modelled from the spec: the union of section 4.5 ("Update
    patch.Tasks/patch.BuildVariants to the union"): the items not yet present
    are appended. *)
Definition addToSet (l items : list string) : list string :=
  foldl (λ acc x, if SliceContains acc x then acc else acc ++ [x]) l items.

(** The methods [SetDescription], [SetVariantsTasks], [AddTasks],
    [AddBuildVariants] and [SetActivated] of [patch.Patch], whose Go code is
    not part of the sources at hand. Each updates the persisted document and
    the struct behind the receiver, which is returned. *)

(** Modelled from the spec: [p.SetDescription], missing from the sources. *)
Definition Patch_SetDescription (p : Patch.t) (desc : string) : Db error Patch.t :=
  UpdatePatchDocument (Patch.Id p) (λ q, Patch.with_Description q desc);;
  mret (Patch.with_Description p desc).

(** Modelled from the spec: [p.SetVariantsTasks], missing from the sources. *)
Definition Patch_SetVariantsTasks (p : Patch.t) (vts : list VariantTasks.t)
  : Db error Patch.t :=
  UpdatePatchDocument (Patch.Id p) (λ q, Patch.with_VariantsTasks q vts);;
  mret (Patch.with_VariantsTasks p vts).

(** Modelled from the spec: [p.AddTasks], missing from the sources
    (UpdatePatchVariantsAndTasks of section 6, the union of section 4.5). *)
Definition Patch_AddTasks (p : Patch.t) (tasks : list string) : Db error Patch.t :=
  UpdatePatchDocument (Patch.Id p) (λ q, Patch.with_Tasks q (addToSet (Patch.Tasks q) tasks));;
  mret (Patch.with_Tasks p (addToSet (Patch.Tasks p) tasks)).

(** Modelled from the spec: [p.AddBuildVariants], missing from the sources
    (UpdatePatchVariantsAndTasks of section 6, the union of section 4.5). *)
Definition Patch_AddBuildVariants (p : Patch.t) (bvs : list string) : Db error Patch.t :=
  UpdatePatchDocument (Patch.Id p)
    (λ q, Patch.with_BuildVariants q (addToSet (Patch.BuildVariants q) bvs));;
  mret (Patch.with_BuildVariants p (addToSet (Patch.BuildVariants p) bvs)).

(** Modelled from the spec: [p.SetActivated], missing from the sources
    (UpdatePatchSetVersion of section 6: "set patch.Version to that Version's
    id", section 4.5). *)
Definition Patch_SetActivated (p : Patch.t) (versionId : string) : Db error Patch.t :=
  UpdatePatchDocument (Patch.Id p) (λ q, Patch.with_Version q versionId true);;
  mret (Patch.with_Version p versionId true).

(** ** Identifiers and materialization *)

(** Modelled from the spec: the id table of section 4.3, "a total mapping
    (Variant, TaskName) → TaskId" (the Go type is not part of the sources at
    hand). *)
Definition TaskIdTable : Type := TVPair.t → string.

(** Modelled from the spec: the id construction rule of section 4.3, a
    "deterministic composition of version id, variant name, and task name". *)
Definition TaskId (versionId variant taskName : string) : string :=
  versionId +:+ "_" +:+ variant +:+ "_" +:+ taskName.

(** Modelled from the spec: [NewPatchTaskIdTable], the allocator of section
    4.3, whose Go code is not part of the sources at hand. The table covers
    every pair, those of other builds than the one being created included. *)
Definition NewPatchTaskIdTable (project : Project.t) (v : Version.t) (p : Patch.t)
  : TaskIdTable :=
  λ tv, TaskId (Version.Id v) (TVPair.Variant tv) (TVPair.TaskName tv).

(** Modelled from the spec: the build id, which the spec leaves open beyond
    being reproducible (section 5): the version id and the variant name. *)
Definition BuildId (versionId variant : string) : string :=
  versionId +:+ "_" +:+ variant.

(** Modelled from the spec: the initial status of a task, "not yet started"
    (section 4.4). *)
Definition TaskUndispatched : string := "undispatched".

(** Modelled from the spec: the per-task creation logic of section 4.4. The
    task record of [taskName] in variant [variant] has its [DependsOn]
    populated by resolving the declared dependencies of the task through the
    id table, each at its target variant. *)
Definition makeTask (project : Project.t) (v : Version.t) (tt : TaskIdTable)
    (buildId variant : string) (activated : bool) (taskName : string) : Task.t :=
  let tv := TVPair.mk variant taskName in
  Task.mk (tt tv) buildId (Version.Id v) variant taskName
    (tt <$> dependencies project tv) activated TaskUndispatched.

(** Modelled from the spec: the validation of section 4.4. The variant
    exists in the project (else UnknownVariant) and every task name is listed
    by it (else UnknownTask). *)
Definition validateTasks (project : Project.t) (variant : string)
    (taskNames : list string) : Db error unit :=
  bv ← fromOption (UnknownVariant variant) (FindBuildVariant project variant);
  forM_ (λ t, if SliceContains (variantTaskNames bv) t then mret tt
              else fail (UnknownTask variant t)) taskNames.

(** Modelled from the spec: [CreateBuildFromVersion], the build materializer
    of section 4.4, whose Go code is not part of the sources at hand:
    validation, then the Build record, then one Task record per task name. *)
Definition CreateBuildFromVersion (project : Project.t) (v : Version.t)
    (tt : TaskIdTable) (buildName : string) (activated : bool)
    (taskNames : list string) : Db error string :=
  validateTasks project buildName taskNames;;
  let buildId := BuildId (Version.Id v) buildName in
  let newTasks := makeTask project v tt buildId buildName activated <$> taskNames in
  InsertBuild (Build.mk buildId (Version.Id v) buildName (Task.Id <$> newTasks) activated);;
  InsertTasks newTasks;;
  mret buildId.

(** Modelled from the spec: [AddTasksToBuild] (section 4.5: the per-task
    creation logic of section 4.4 without a new Build, the new ids appended to
    the Build's task ids), whose Go code is not part of the sources at hand.
    The call in the source passes no id table: the ids are those of the
    allocator for the version. *)
Definition AddTasksToBuild (b : Build.t) (project : Project.t) (v : Version.t)
    (taskNames : list string) : Db error Build.t :=
  validateTasks project (Build.BuildVariant b) taskNames;;
  let tt : TaskIdTable :=
    λ tv, TaskId (Version.Id v) (TVPair.Variant tv) (TVPair.TaskName tv) in
  let newTasks :=
    makeTask project v tt (Build.Id b) (Build.BuildVariant b) (Build.Activated b)
      <$> taskNames in
  InsertTasks newTasks;;
  UpdateBuildAppendTasks (Build.Id b) (Task.Id <$> newTasks);;
  mret (Build.with_TaskIds b (Build.TaskIds b ++ (Task.Id <$> newTasks))).

(** ** Extending a finalized patch *)

(** [AddNewTasksForPatch]. The result is the patch struct after the call
    (Go mutates it behind the pointer [p]). *)
Definition AddNewTasksForPatch (p : Patch.t) (patchVersion : Version.t)
    (project : Project.t) (taskNames : list string) : Db error Patch.t :=
  (* create new tasks for all of the added patch tasks *)
  let newTasks := filter (λ t, SliceContains (Patch.Tasks p) t = false) taskNames in
  (* add tasks to the patch in the db *)
  p ← Patch_AddTasks p taskNames;
  (* add new tasks to the build, if they exist *)
  if decide (0 < length newTasks) then
    builds ← FindBuildsByIds (Version.BuildIds patchVersion);
    forM_ (λ b, AddTasksToBuild b project patchVersion newTasks) builds;;
    mret p
  else mret p.

(** [AddNewBuildsForPatch]. The loop threads the three variables it assigns:
    [newBuildIds], [newBuildStatuses] and [patchVersion.BuildIds]. *)
Definition AddNewBuildsForPatch (p : Patch.t) (patchVersion : Version.t)
    (project : Project.t) (buildVariants : list string) : Db error Version.t :=
  (* compute a list of the newly added build variants *)
  let newVariants :=
    filter (λ v, SliceContains (Patch.BuildVariants p) v = false) buildVariants in
  (* update the patch *)
  p ← Patch_AddBuildVariants p buildVariants;
  let tt := NewPatchTaskIdTable project patchVersion p in
  '(newBuildIds, newBuildStatuses, patchVersion) ←
    foldM (λ '(newBuildIds, newBuildStatuses, patchVersion) buildVariant,
             buildId ← CreateBuildFromVersion project patchVersion tt buildVariant
                         (Patch.Activated p) (Patch.Tasks p);
             mret (newBuildIds ++ [buildId],
                   newBuildStatuses ++
                     [BuildStatus.mk buildVariant (Patch.Activated p) buildId],
                   Version.with_Builds patchVersion
                     (Version.BuildIds patchVersion ++ [buildId])
                     (Version.BuildVariants patchVersion)))
          ([], [], patchVersion) newVariants;
  UpdateVersionAppendBuilds (Version.Id patchVersion) newBuildIds newBuildStatuses;;
  mret patchVersion.

(** Modelled from the spec: Extend(patch, version, project, requestedPairs)
    of section 6, which the sources have only as the branch of [schedulePatch]
    for [Patch.Version != ""]: the new tasks first, then the new builds. The
    source passes [pairs] to both functions, whose parameters are string
    slices; the task names and the variant names of the pairs are what
    section 4.5 of the spec compares with the patch. *)
Definition Extend (p : Patch.t) (patchVersion : Version.t) (project : Project.t)
    (pairs : list TVPair.t) : Db error Version.t :=
  p ← AddNewTasksForPatch p patchVersion project (TVPair.TaskName <$> pairs);
  AddNewBuildsForPatch p patchVersion project (TVPair.Variant <$> pairs).

(** ** Finalizing a patch *)

Module ProjectRef.
Record t := mk { Owner : string; Repo : string }.
End ProjectRef.

(** The committer name and email and the message of a commit event. *)
Module CommitEvent.
Record t := mk { Name : string; Email : string; Message : string }.
End CommitEvent.

(** What the code takes from outside the embedding, as parameters: the YAML
    decoder, the project reference lookup, the GitHub API (with the
    credentials of [settings]), the clock, and the constants
    [evergreen.PatchCreated] and [evergreen.PatchVersionRequester].
    [yamlUnmarshal] answers [None] for an error, and [yamlPartial] is what
    the decoder has then left in the struct that it was given.
    [FindOneProjectRef] and [GetCommitEvent] answer [None] for an error,
    and [Some None] for a nil result without an error (no project
    reference, no commit). *)
Record Env := mkEnv {
  yamlUnmarshal : string → option Project.t;
  yamlPartial : string → Project.t;
  FindOneProjectRef : string → option (option ProjectRef.t);
  GetCommitEvent : string → string → string → option (option CommitEvent.t);
  Now : nat;
  PatchCreated : string;
  PatchVersionRequester : string
}.

(** [FinalizePatch]. The code tests the error of [FindOneProjectRef] and
    not its result: [projectRef.Owner] panics when the result is nil. *)
Definition FinalizePatch (env : Env) (p : Patch.t) : Db error Version.t :=
  (* unmarshal the project YAML for storage *)
  project ← fromOption ConfigUnmarshalError (yamlUnmarshal env (Patch.PatchedConfig p));
  projectRef ← fromOption ProjectRefError (FindOneProjectRef env (Patch.Project p));
  projectRef ← fromOption NilProjectRef projectRef;
  gitCommit ← fromOption CommitFetchError
    (GetCommitEvent env (ProjectRef.Owner projectRef) (ProjectRef.Repo projectRef)
       (Patch.Githash p));
  gitCommit ← fromOption CommitMissing gitCommit;
  let patchVersion :=
    Version.mk (Patch.Id p +:+ "_" +:+ "0") (Now env) (Patch.Project p)
      (Patch.Githash p) (CommitEvent.Name gitCommit) (CommitEvent.Email gitCommit)
      (CommitEvent.Message gitCommit) [] [] (Patch.PatchedConfig p)
      (PatchCreated env) (PatchVersionRequester env) in
  let tt := NewPatchTaskIdTable project patchVersion p in
  patchVersion ←
    foldM (λ patchVersion vt,
             buildId ← CreateBuildFromVersion project patchVersion tt
                         (VariantTasks.Variant vt) true (VariantTasks.Tasks vt);
             mret (Version.with_Builds patchVersion
                     (Version.BuildIds patchVersion ++ [buildId])
                     (Version.BuildVariants patchVersion ++
                        [BuildStatus.mk (VariantTasks.Variant vt) true buildId])))
          patchVersion (Patch.VariantsTasks p);
  InsertVersion patchVersion;;
  Patch_SetActivated p (Version.Id patchVersion);;
  mret patchVersion.

(** ** The handler *)

(** The answers of [schedulePatch]. [HandlerPanic] stands for a handler
    that did not return: a panic unwound it, and the server, which runs no
    recovery middleware, closes the connection. *)
Inductive response :=
| StatusNotFound
| StatusUnauthorized
| StatusBadRequest
| StatusInternalServerError (context : string) (err : error)
| StatusOK (versionId : string)
| HandlerPanic.

(** The part of the project context that [schedulePatch] reads. *)
Module projectContext.
Record t := mk { Patch : option Patch.t; Version : option Version.t }.
End projectContext.

(** The answer of a request for which [logged] has been written before the
    handler ended with [r]: the status sent first is the answer, and what
    the handler writes afterwards does not replace it; a panic still unwinds
    the handler. *)
Definition relabel (logged : option response) (r : result response response)
  : result response response :=
  match logged, r with
  | None, _ => r
  | Some _, Err HandlerPanic => Err HandlerPanic
  | Some resp, Ok _ => Ok resp
  | Some resp, Err _ => Err resp
  end.

(** [uis.LoggedError(w, r, http.StatusInternalServerError, err)] that no
    [return] follows: the answer [logged] is written and the handler goes
    on with [m]. *)
Definition afterLoggedError (logged : option response) (m : Db response response)
  : Db response response := λ s,
  let '(s', r) := m s in (s', relabel logged r).

(** The answer of [schedulePatch] to a failed [FinalizePatch]: an error is
    answered; a panic unwinds the handler too. *)
Definition errorFinalizing (e : error) : response :=
  match e with
  | NilProjectRef => HandlerPanic
  | _ => StatusInternalServerError "Error finalizing patch" e
  end.

(** [schedulePatch] from the decoding of the request body on, with the
    dependency includer as a parameter: [Include] stands for
    [model.IncludePatchDependencies], whose result is a slice of pairs.
    [p] is the patch as reloaded, [project] the project of the context and
    [body] the outcome of [util.ReadJSONInto], which decodes the request body
    into the [VariantsTasks] field alone ([None] for a decoding error). An
    early [return] after an error answer is the error side of the monad. *)
Definition schedulePatch_update (Include : Project.t → list TVPair.t → list TVPair.t)
    (env : Env) (projCtx : projectContext.t) (p : Patch.t) (project : Project.t)
    (body : option (list VariantTasks.t)) : Db response response :=
  variantsTasks ← fromOption StatusBadRequest body;
  let patchUpdateReq := patchVariantsTasksRequest.mk variantsTasks [] [] "" in
  let pairs := requestPairs patchUpdateReq in
  let pairs := Include project pairs in
  (* update the description for both reconfigured and new patches *)
  p ← orRespond (StatusInternalServerError "Error setting description")
        (Patch_SetDescription p (patchVariantsTasksRequest.Description patchUpdateReq));
  if decide (Patch.Version p ≠ "") then
    (* This patch has already been finalized, just add the new builds and tasks *)
    version ← fromOption
      (StatusInternalServerError "Couldn't find patch for id"
         (DocumentNotFound (Patch.Version p)))
      (projectContext.Version projCtx);
    (* First add new tasks to existing builds, if necessary *)
    p ← orRespond (StatusInternalServerError "Error creating new tasks")
          (AddNewTasksForPatch p version project (TVPair.TaskName <$> pairs));
    orRespond (StatusInternalServerError "Error creating new builds")
      (AddNewBuildsForPatch p version project (TVPair.Variant <$> pairs));;
    mret (StatusOK (Version.Id version))
  else
    p ← orRespond (StatusInternalServerError "Error setting patch variants and tasks")
          (Patch_SetVariantsTasks p (patchVariantsTasksRequest.VariantsTasks patchUpdateReq));
    ver ← orRespond errorFinalizing (FinalizePatch env p);
    mret (StatusOK (Version.Id ver)).

(** [schedulePatch]. [canEdit] is the outcome of [uis.canEditPatch]. A
    failed decoding of the project configuration is answered with
    [LoggedError] and the handler goes on, with the project struct as the
    decoder left it. *)
Definition schedulePatch_run_with (Include : Project.t → list TVPair.t → list TVPair.t)
    (env : Env) (projCtx : projectContext.t) (canEdit : bool)
    (body : option (list VariantTasks.t)) : Db response response :=
  ctxPatch ← fromOption StatusNotFound (projectContext.Patch projCtx);
  (if canEdit then mret tt else fail StatusUnauthorized);;
  (* grab patch again, as the diff was excluded *)
  p ← orRespond (StatusInternalServerError "error loading patch")
        (FindPatchById (Patch.Id ctxPatch));
  (* Unmarshal the project config and set it in the project context *)
  let decoded := yamlUnmarshal env (Patch.PatchedConfig p) in
  let project := default (yamlPartial env (Patch.PatchedConfig p)) decoded in
  afterLoggedError
    (match decoded with
     | Some _ => None
     | None => Some (StatusInternalServerError "Error unmarshaling project config"
                       ConfigUnmarshalError)
     end)
    (schedulePatch_update Include env projCtx p project body).

(** [schedulePatch], with [IncludePatchDependencies] as modelled above. *)
Definition schedulePatch_run (env : Env) (projCtx : projectContext.t) (canEdit : bool)
    (body : option (list VariantTasks.t)) : Db response response :=
  schedulePatch_run_with IncludePatchDependencies env projCtx canEdit body.

(** The store after the request and the answer written, whether the handler
    returned early or reached its end. *)
Definition schedulePatch_with (Include : Project.t → list TVPair.t → list TVPair.t)
    (env : Env) (projCtx : projectContext.t) (canEdit : bool)
    (body : option (list VariantTasks.t)) (s : Store) : Store * response :=
  match schedulePatch_run_with Include env projCtx canEdit body s with
  | (s', Ok r) => (s', r)
  | (s', Err r) => (s', r)
  end.

Definition schedulePatch (env : Env) (projCtx : projectContext.t) (canEdit : bool)
    (body : option (list VariantTasks.t)) (s : Store) : Store * response :=
  schedulePatch_with IncludePatchDependencies env projCtx canEdit body s.

(** Modelled from the spec: the project context that
    [MustHaveProjectContext], missing from the sources, gives to the handler:
    the patch of the request and the version document that the patch names
    (section 3: [Patch.Version] is the id of its Version), as the store holds
    them. *)
Definition loadContext (patchId : string) (s : Store) : projectContext.t :=
  let p := List.find (λ p, bool_decide (Patch.Id p = patchId)) (patches s) in
  projectContext.mk p
    (p ≫= λ p, List.find (λ v, bool_decide (Version.Id v = Patch.Version p)) (versions s)).

(** ** Relations between stores *)

(** [l'] keeps the elements of [l] in place, each possibly grown as [R]
    allows, and adds elements after them. *)
Definition extends_by {A} (R : A → A → Prop) (l l' : list A) : Prop :=
  ∃ kept added, l' = kept ++ added ∧ Forall2 R l kept.

(** A patch document after an extension: same id and version, the requested
    tasks and variants only added at the end. *)
Definition patch_le (p p' : Patch.t) : Prop :=
  Patch.Id p' = Patch.Id p ∧
  Patch.Version p' = Patch.Version p ∧
  Patch.Tasks p `prefix_of` Patch.Tasks p' ∧
  Patch.BuildVariants p `prefix_of` Patch.BuildVariants p'.

Definition version_le (v v' : Version.t) : Prop :=
  Version.Id v' = Version.Id v ∧
  Version.BuildIds v `prefix_of` Version.BuildIds v' ∧
  Version.BuildVariants v `prefix_of` Version.BuildVariants v'.

Definition build_le (b b' : Build.t) : Prop :=
  Build.Id b' = Build.Id b ∧
  Build.TaskIds b `prefix_of` Build.TaskIds b'.

(** The store after an additive step: no patch or version document is added
    or removed, builds are added after the existing ones, which may gain task
    ids at the end, and task documents are only added, after the existing
    ones. *)
Definition grows (s s' : Store) : Prop :=
  Forall2 patch_le (patches s) (patches s') ∧
  Forall2 version_le (versions s) (versions s') ∧
  extends_by build_le (builds s) (builds s') ∧
  tasks s `prefix_of` tasks s'.

(** Every run of [m] relates the store before to the store after, whether it
    ends with a value or an error. *)
Definition preserves {E A} (R : Store → Store → Prop) (m : Db E A) : Prop :=
  ∀ s s' r, m s = (s', r) → R s s'.

(** A step that leaves the store as it is. *)
Definition reads {E A} (m : Db E A) : Prop := preserves eq m.

(** The persisted patch [id] exists and lists all of [names] among its tasks
    (respectively its build variants). *)
Definition patchHasTasks (id : string) (names : list string) (s : Store) : Prop :=
  id ∈ Patch.Id <$> patches s ∧
  ∀ q, q ∈ patches s → Patch.Id q = id → names ⊆ Patch.Tasks q.

Definition patchHasVariants (id : string) (names : list string) (s : Store) : Prop :=
  id ∈ Patch.Id <$> patches s ∧
  ∀ q, q ∈ patches s → Patch.Id q = id → names ⊆ Patch.BuildVariants q.

(** The outcomes of [m]: every error satisfies [P], every value [Q]. *)
Definition outcomes {E A} (P : E → Prop) (Q : A → Prop) (m : Db E A) : Prop :=
  ∀ s s' r, m s = (s', r) → match r with Ok a => Q a | Err e => P e end.

(** The errors that the code raises: all kinds but [UnresolvedDependency] and
    [AlreadyFinalized]. *)
Definition raised (e : error) : Prop :=
  match e with
  | UnresolvedDependency _ | AlreadyFinalized => False
  | _ => True
  end.

(** A step that raises only such errors. *)
Definition raises {A} (m : Db error A) : Prop := outcomes raised (λ _, True) m.

(** The answers of the handler: an internal error carries a raised error. *)
Definition answered (resp : response) : Prop :=
  match resp with
  | StatusInternalServerError _ e => raised e
  | _ => True
  end.

(** ** Worked scenarios *)

(** The project of section 8 of the spec, with two more tasks: [linux] runs
    [compile], [test] (which depends on [compile]), [deploy] (which depends on
    [compile] in the variant [staging], absent from the project) and [lint]
    (which depends on [compile] in [osx]); [osx] runs [compile]. *)
Definition exampleProject : Project.t :=
  Project.mk
    [BuildVariant.mk "linux" "Linux"
       [TaskRef.mk "compile" ""; TaskRef.mk "test" ""; TaskRef.mk "deploy" "";
        TaskRef.mk "lint" ""];
     BuildVariant.mk "osx" "OSX" [TaskRef.mk "compile" ""]]
    [TaskDef.mk "compile" None [];
     TaskDef.mk "test" None [TaskRef.mk "compile" ""];
     TaskDef.mk "deploy" None [TaskRef.mk "compile" "staging"];
     TaskDef.mk "lint" None [TaskRef.mk "compile" "osx"]].

Definition exampleEnv : Env :=
  mkEnv (λ _, Some exampleProject) (λ _, Project.zero)
    (λ _, Some (Some (ProjectRef.mk "evergreen-ci" "sample")))
    (λ _ _ _, Some (Some (CommitEvent.mk "dev" "dev@example.com" "a change")))
    0 "created" "patch_request".

(** The patch as submitted for [compile] on [linux], not yet finalized, and a
    store that holds only it. *)
Definition pendingPatch : Patch.t :=
  Patch.mk "p1" "sample" "abc123" "" ["compile"] ["linux"] [] "" false "config".

Definition pendingStore : Store := mkStore [pendingPatch] [] [] [].

(** The store after [schedulePatch] has finalized the patch for [compile] on
    [linux] (lemma [finalizedStore_scheduled]). *)
Definition finalizedPatch : Patch.t :=
  Patch.mk "p1" "sample" "abc123" "" ["compile"] ["linux"]
    [VariantTasks.mk "linux" ["compile"]] "p1_0" true "config".

Definition finalizedVersion : Version.t :=
  Version.mk "p1_0" 0 "sample" "abc123" "dev" "dev@example.com" "a change"
    ["p1_0_linux"] [BuildStatus.mk "linux" true "p1_0_linux"]
    "config" "created" "patch_request".

Definition finalizedStore : Store :=
  mkStore [finalizedPatch] [finalizedVersion]
    [Build.mk "p1_0_linux" "p1_0" "linux" ["p1_0_linux_compile"] true]
    [Task.mk "p1_0_linux_compile" "p1_0_linux" "p1_0" "linux" "compile" [] true
       "undispatched"].

(** The finalized patch, reconfigured for [compile] on [osx]. *)
Definition reconfiguredPatch : Patch.t :=
  Patch.with_VariantsTasks finalizedPatch [VariantTasks.mk "osx" ["compile"]].

(** The pending patch, configured for [lint] on [linux]; [lint] depends on
    [compile] in [osx]. *)
Definition lintPatch : Patch.t :=
  Patch.with_VariantsTasks pendingPatch [VariantTasks.mk "linux" ["lint"]].






(** * The other packages *)

(** ** Package [ui]: the pages of a patch *)

(** The map [variantMappings] that [patchPage] builds: one entry per variant
    name, each assignment replacing the entry of the name. *)
Definition variantMappings (project : Project.t) : gmap string BuildVariant.t :=
  foldl (λ m variant, <[BuildVariant.Name variant := variant]> m) ∅
    (Project.BuildVariants project).

(** The answers of [rawDiffPage]. The three internal errors are told apart
    by the step that raised them. [RawPanic] stands for the run-time panic
    of an index out of range. *)
Inductive rawDiffError := ErrorLoadingPatch | ErrorGettingPatchNumber | PatchNumberOutOfRange.

Inductive rawDiffAnswer :=
| RawNotFound
| RawInternalServerError (e : rawDiffError)
| RawOK (diff : string)
| RawPanic.

(** [rawDiffPage]. [FetchPatchFiles] gives the diff text of each module
    patch of the reloaded patch ([fullPatch.Patches[i].PatchSet.Patch] after
    [fullPatch.FetchPatchFiles()]), [Atoi] is [strconv.Atoi] ([None] for an
    error) and [patch_number] the form value. Go's [int] is [Z]. *)
Definition rawDiffPage (FetchPatchFiles : Patch.t → list string)
    (Atoi : string → option Z) (projCtx : projectContext.t) (patch_number : string)
  : Db rawDiffAnswer rawDiffAnswer :=
  ctxPatch ← fromOption RawNotFound (projectContext.Patch projCtx);
  fullPatch ← orRespond (λ _, RawInternalServerError ErrorLoadingPatch)
                (FindPatchById (Patch.Id ctxPatch));
  let Patches := FetchPatchFiles fullPatch in
  patchNum ← fromOption (RawInternalServerError ErrorGettingPatchNumber)
               (Atoi patch_number);
  if decide ((patchNum < 0)%Z ∨ (patchNum >= Z.of_nat (length Patches))%Z) then
    fail (RawInternalServerError PatchNumberOutOfRange)
  else
    match Patches !! Z.to_nat patchNum with
    | Some diff => mret (RawOK diff)
    | None => mret RawPanic
    end.

(** ** Package [sometimes] *)

Module sometimes.

(** [getRandNumber] returns [rand.Intn(101)], an [int] among 0, ..., 100.
    The functions of the package are embedded as functions of that draw. *)
Definition draws : list Z := Z.of_nat <$> seq 0 101.

Definition Fifth (getRandNumber : Z) : bool := (getRandNumber >? 80)%Z.

Definition Half (getRandNumber : Z) : bool := (getRandNumber >? 50)%Z.

Definition Third (getRandNumber : Z) : bool := (getRandNumber >? 67)%Z.

Definition Quarter (getRandNumber : Z) : bool := (getRandNumber >? 75)%Z.

Definition ThreeQuarters (getRandNumber : Z) : bool := (getRandNumber >? 25)%Z.

Definition TwoThirds (getRandNumber : Z) : bool := (getRandNumber >? 34)%Z.

(** The number of draws, among the 101, for which [f] returns true. *)
Definition frequency (f : Z → bool) : nat :=
  length (filter (λ n, f n = true) draws).

End sometimes.

(** ** Package [service]: the test server *)

Module service.
Section CreateTestServer.

(** The API server, the listener, the handler and the TLS configuration are
    opaque here. *)
Variables APIServer Listener Handler TLSConfig : Type.

Record TestServer := mkTestServer {
  URL : string;
  listener : Listener;
  server : APIServer
}.

(** What a call takes from outside: the outcomes of [New(settings, plugins)],
    [GetListener(addr)], [GetTLSListener(addr, tlsConfig)] and
    [apiServer.Handler()], [None] for an error. *)
Record Outside := mkOutside {
  New : option APIServer;
  GetListener : string → option Listener;
  GetTLSListener : string → TLSConfig → option Listener;
  HandlerOf : APIServer → option Handler
}.

(** The state of the package: the variable [port], and the listeners and
    handlers given to [go Serve(l, h)]. *)
Record State := mkState {
  port : Z;
  serving : list (Listener * Handler)
}.

(** [var port = 8181] *)
Definition initial : State := mkState 8181 [].

(** The arithmetic of [int], 64 bits wide: results wrap around. *)
Definition int_wrap (z : Z) : Z := ((z + 2 ^ 63) `mod` 2 ^ 64 - 2 ^ 63)%Z.

(** [CreateTestServer]; [None] for an error. [fmt.Sprintf] with [%v] prints
    the port in decimal. *)
Definition CreateTestServer (outside : Outside) (tlsConfig : option TLSConfig)
    (st : State) : State * option TestServer :=
  match New outside with
  | None => (st, None)
  | Some apiServer =>
      let protocol := "http" in
      let st := mkState (int_wrap (port st + 1)) (serving st) in
      let addr := ":" +:+ pretty (port st) in
      let listened :=
        match tlsConfig with
        | None => (GetListener outside addr, protocol)
        | Some tlsConfig => (GetTLSListener outside addr tlsConfig, "https")
        end in
      match listened with
      | (None, _) => (st, None)
      | (Some l, protocol) =>
          match HandlerOf outside apiServer with
          | None => (st, None)
          | Some h =>
              (mkState (port st) (serving st ++ [(l, h)]),
               Some (mkTestServer (protocol +:+ "://localhost" +:+ addr) l apiServer))
          end
      end
  end.

(** Successive calls, each with its own outside world and TLS
    configuration: the state after them and the result of each. *)
Fixpoint CreateTestServers (calls : list (Outside * option TLSConfig))
    (st : State) : State * list (option TestServer) :=
  match calls with
  | [] => (st, [])
  | (outside, tlsConfig) :: calls =>
      let '(st, r) := CreateTestServer outside tlsConfig st in
      let '(st, rs) := CreateTestServers calls st in
      (st, r :: rs)
  end.

End CreateTestServer.

Arguments URL {_ _} _.
Arguments New {_ _ _ _} _.
Arguments GetListener {_ _ _ _} _ _.
Arguments GetTLSListener {_ _ _ _} _ _ _.
Arguments HandlerOf {_ _ _ _} _ _.
Arguments port {_ _} _.
Arguments serving {_ _} _.
Arguments CreateTestServer {_ _ _ _} _ _ _.
Arguments CreateTestServers {_ _ _ _} _ _.
Arguments initial {_ _}.

(** [u] is the URL of a test server on the port [p], over either
    protocol. *)
Definition url_on (u : string) (p : Z) : Prop :=
  u = "http" +:+ "://localhost" +:+ ":" +:+ pretty p ∨
  u = "https" +:+ "://localhost" +:+ ":" +:+ pretty p.

(** The number of calls in which [New] succeeds. *)
Definition newServers {APIServer Listener Handler TLSConfig : Type}
    (calls : list (Outside APIServer Listener Handler TLSConfig * option TLSConfig))
  : nat :=
  length (filter (λ call, is_Some (New call.1)) calls).

End service.

(** ** Package [s3]: the put command *)

Module s3.

Record S3PutCommand := mk {
  AwsKey : string;
  AwsSecret : string;
  LocalFile : string;
  LocalFilesIncludeFilter : list string;
  RemoteFile : string;
  Bucket : string;
  Permissions : string;
  ContentType : string;
  BuildVariants : list string;
  DisplayName : string;
  Visibility : string;
  Optional : bool
}.

(** The errors of [Put]: the sentinel [errSkippedFile], or an error of a
    callee, returned as it is. *)
Inductive putError (E : Type) :=
| errSkippedFile
| calleeError (e : E).
Arguments errSkippedFile {E}.
Arguments calleeError {E} e.

Section command.

(** What the command takes from other packages: [artifact.ValidVisibilities],
    [validateS3BucketName] (the message of its error, if any) and
    [validS3Permissions]. *)
Variable ValidVisibilities : list string.
Variable validateS3BucketName : string → option string.
Variable validS3Permissions : string → bool.

(** [validateParams]: the message of the error, or [None] for [nil]. *)
Definition validateParams (s3pc : S3PutCommand) : option string :=
  if decide (AwsKey s3pc = "") then Some "aws_key cannot be blank"
  else if decide (AwsSecret s3pc = "") then Some "aws_secret cannot be blank"
  else if decide (LocalFile s3pc = "" ∧ length (LocalFilesIncludeFilter s3pc) = 0) then
    Some "local_file and local_files_include_filter cannot both be blank"
  else if decide (LocalFile s3pc ≠ "" ∧ length (LocalFilesIncludeFilter s3pc) ≠ 0) then
    Some "local_file and local_files_include_filter cannot both be specified"
  else if decide (Optional s3pc = true ∧ length (LocalFilesIncludeFilter s3pc) ≠ 0) then
    Some "cannot use optional upload with local_files_include_filter"
  else if decide (RemoteFile s3pc = "") then Some "remote_file cannot be blank"
  else if decide (ContentType s3pc = "") then Some "content_type cannot be blank"
  else if negb (SliceContains ValidVisibilities (Visibility s3pc)) then
    Some ("invalid visibility setting: " +:+ Visibility s3pc)
  else
    (* make sure the bucket is valid *)
    match validateS3BucketName (Bucket s3pc) with
    | Some err => Some (Bucket s3pc +:+ " is an invalid bucket name: " +:+ err)
    | None =>
        (* make sure the s3 permissions are valid *)
        if negb (validS3Permissions (Permissions s3pc)) then
          Some ("permissions '" +:+ Permissions s3pc +:+ "' are not valid")
        else None
    end.

(** [isMulti] *)
Definition isMulti (s3pc : S3PutCommand) : bool :=
  bool_decide (length (LocalFilesIncludeFilter s3pc) ≠ 0).

(** What [Put] takes from outside: the errors of its callees with
    [os.IsNotExist], [util.BuildFileList(".", filter...)], [filepath.Base],
    the text of the [url.URL] with scheme [s3] for a host and a path, and
    [thirdparty.PutS3File] ([None] for [nil]), which receives the
    credentials, the local path, the URL, the content type and the
    permissions. *)
Variable E : Type.
Variable IsNotExist : E → bool.
Variable BuildFileList : list string → E + list string.
Variable Base : string → string.
Variable s3URL : string → string → string.
Variable PutS3File : string * string → string → string → string → string → option E.

(** The loop of [Put] over the files: the local paths and the URLs of the
    files put so far, and the error that stopped the loop, if any. *)
Fixpoint putFiles (s3pc : S3PutCommand) (filesList : list string)
    (done : list (string * string)) : list (string * string) * option (putError E) :=
  match filesList with
  | [] => (done, None)
  | fpath :: filesList =>
      let remoteName :=
        if isMulti s3pc then RemoteFile s3pc +:+ Base fpath else RemoteFile s3pc in
      let auth := (AwsKey s3pc, AwsSecret s3pc) in
      let url := s3URL (Bucket s3pc) remoteName in
      match PutS3File auth fpath url (ContentType s3pc) (Permissions s3pc) with
      | Some err =>
          if negb (isMulti s3pc) && (Optional s3pc && IsNotExist err)
          then (done, Some errSkippedFile)
          else (done, Some (calleeError err))
      | None => putFiles s3pc filesList (done ++ [(fpath, url)])
      end
  end.

(** [Put]: the files put, and the error returned, if any. *)
Definition Put (s3pc : S3PutCommand) : list (string * string) * option (putError E) :=
  if isMulti s3pc then
    match BuildFileList (LocalFilesIncludeFilter s3pc) with
    | inl err => ([], Some (calleeError err))
    | inr filesList => putFiles s3pc filesList []
    end
  else putFiles s3pc [LocalFile s3pc] [].

(** The files that [Put] goes through: the matches of the filter, or the
    one local file. *)
Definition filesOf (s3pc : S3PutCommand) : E + list string :=
  if isMulti s3pc then BuildFileList (LocalFilesIncludeFilter s3pc)
  else inr [LocalFile s3pc].

(** The URL that [Put] puts the file [fpath] to. *)
Definition remoteURL (s3pc : S3PutCommand) (fpath : string) : string :=
  s3URL (Bucket s3pc)
    (if isMulti s3pc then RemoteFile s3pc +:+ Base fpath else RemoteFile s3pc).

(** What [thirdparty.PutS3File] answers when [Put] puts the file [fpath]. *)
Definition putOutcome (s3pc : S3PutCommand) (fpath : string) : option E :=
  PutS3File (AwsKey s3pc, AwsSecret s3pc) fpath (remoteURL s3pc fpath)
    (ContentType s3pc) (Permissions s3pc).

End command.

Arguments putFiles {E} _ _ _ _ _ _ _.
Arguments Put {E} _ _ _ _ _ _.
Arguments filesOf {E} _ _.
Arguments putOutcome {E} _ _ _ _ _.

End s3.

(** ** Package [send]: the buildlogger sender *)

Module send.

(** [BuildloggerConfig], without the [Local] sender, whose messages are not
    modelled. *)
Record BuildloggerConfig := mkConfig {
  CreateTest : bool;
  URL : string;
  Number : Z;
  Phase : string;
  Builder : string;
  Test : string;
  Command : string;
  buildID : string;
  username : string;
  password : string
}.

Definition with_buildID (c : BuildloggerConfig) (id : string) : BuildloggerConfig :=
  mkConfig (CreateTest c) (URL c) (Number c) (Phase c) (Builder c) (Test c) (Command c)
    id (username c) (password c).

Definition with_CreateTest (c : BuildloggerConfig) (b : bool) : BuildloggerConfig :=
  mkConfig b (URL c) (Number c) (Phase c) (Builder c) (Test c) (Command c)
    (buildID c) (username c) (password c).

(** [GetBuildloggerConfig]. [Getenv] is [os.Getenv], [Atoi] is
    [strconv.Atoi] and [ReadCredentialsFromFile] gives the user name and the
    password read from a file; [None] stands for an error. *)
Definition GetBuildloggerConfig (Getenv : string → string) (Atoi : string → option Z)
    (ReadCredentialsFromFile : string → option (string * string))
  : option BuildloggerConfig :=
  let conf := mkConfig false (Getenv "BULDLOGGER_URL") 0 (Getenv "MONGO_PHASE")
                (Getenv "MONGO_BUILDER_NAME") (Getenv "MONGO_TEST_FILENAME") ""
                "" "" "" in
  conf ←
    (let creds := Getenv "BUILDLOGGER_CREDENTIALS" in
     if decide (creds ≠ "") then
       '(user, pass) ← ReadCredentialsFromFile creds;
       Some (mkConfig (CreateTest conf) (URL conf) (Number conf) (Phase conf)
               (Builder conf) (Test conf) (Command conf) (buildID conf) user pass)
     else Some conf);
  buildNum ← Atoi (Getenv "MONGO_BUILD_NUMBER");
  let conf := mkConfig (CreateTest conf) (URL conf) buildNum (Phase conf)
                (Builder conf) (Test conf) (Command conf) (buildID conf)
                (username conf) (password conf) in
  let conf := if decide (Test conf = "") then
                mkConfig (CreateTest conf) (URL conf) (Number conf) (Phase conf)
                  (Builder conf) "unknown" (Command conf) (buildID conf)
                  (username conf) (password conf)
              else conf in
  let conf := if decide (Phase conf = "") then
                mkConfig (CreateTest conf) (URL conf) (Number conf) "unknown"
                  (Builder conf) (Test conf) (Command conf) (buildID conf)
                  (username conf) (password conf)
              else conf in
  Some conf.

(** A sender: its configuration is a pointer to a [BuildloggerConfig] that
    other senders share, and lives in the [World] below. *)
Record buildlogger := mkLogger {
  name : string;
  testID : string
}.

(** The bodies that the sender posts: the data of a build, the data of a
    test, or log lines. *)
Inductive payload :=
| buildData (Builder : string) (Number : Z)
| testData (Filename Command Phase : string)
| logLines (lines : string).

Record request := mkRequest {
  url : string;
  body : payload;
  auth : string * string
}.

(** What the service does with a request: the request fails, or its answer
    cannot be decoded, or its answer holds an id. *)
Inductive answer :=
| RequestFailed
| NotDecodable
| Decoded (ID : string).

(** The shared configuration, the requests sent so far, and what the service
    will do with the next requests. A request that finds no answer left
    fails. *)
Record World := mkWorld {
  conf : BuildloggerConfig;
  requests : list request;
  answers : list answer
}.

(** [getURL]; [strings.Join] is [String.concat]. *)
Definition getURL (c : BuildloggerConfig) (b : buildlogger) : string :=
  let parts := [URL c; "build"] in
  let parts := if decide (buildID c ≠ "") then parts ++ [buildID c] else parts in
  (* this will create the testID. *)
  let parts := if decide (CreateTest c = true ∧ testID b = "")
               then parts ++ ["test"] else parts in
  (* if a test id is present, then we want to append to the test logs. *)
  let parts := if decide (testID b ≠ "") then parts ++ ["test"; testID b] else parts in
  String.concat "/" parts.

(** [b.client.Do(req)] for the request that [doPost] and [postLines] build
    with [b.getURL()] and the credentials of the configuration: the request
    is sent and the service gives its next answer. *)
Definition Do (b : buildlogger) (data : payload) (w : World) : World * answer :=
  let req := mkRequest (getURL (conf w) b) data (username (conf w), password (conf w)) in
  match answers w with
  | [] => (mkWorld (conf w) (requests w ++ [req]) [], RequestFailed)
  | answer :: rest => (mkWorld (conf w) (requests w ++ [req]) rest, answer)
  end.

Section sender.

(** [http.NewRequest("POST", url, body)] returns no error: the URL can be
    parsed. *)
Variable NewRequest : string → bool.

(** [doPost]: the id of the decoded answer, [None] for an error. The data
    are structs of strings and numbers, which [json.Marshal] encodes without
    error. *)
Definition doPost (b : buildlogger) (data : payload) (w : World) : World * option string :=
  if NewRequest (getURL (conf w) b) then
    match Do b data w with
    | (w, Decoded ID) => (w, Some ID)
    | (w, _) => (w, None)
    end
  else (w, None).

(** [postLines]: [true] for [nil]. The answer is not decoded. *)
Definition postLines (b : buildlogger) (lines : string) (w : World) : World * bool :=
  if NewRequest (getURL (conf w) b) then
    match Do b (logLines lines) w with
    | (w, RequestFailed) => (w, false)
    | (w, _) => (w, true)
    end
  else (w, false).

(** [MakeBuildlogger]; [None] for an error. *)
Definition MakeBuildlogger (name : string) (w : World) : World * option buildlogger :=
  let b := mkLogger name "" in
  let created :=
    if decide (buildID (conf w) = "") then
      let data := buildData name (Number (conf w)) in
      match doPost b data w with
      | (w, None) => (w, false)
      | (w, Some out) =>
          (mkWorld (with_buildID (conf w) out) (requests w) (answers w), true)
      end
    else (w, true) in
  match created with
  | (w, false) => (w, None)
  | (w, true) =>
      if CreateTest (conf w) then
        let data := testData (Test (conf w)) (Command (conf w)) (Phase (conf w)) in
        match doPost b data w with
        | (w, None) => (w, None)
        | (w, Some out) => (w, Some (mkLogger name out))
        end
      else (w, Some b)
  end.

End sender.

End send.

(** ** More relations and predicates *)

(** A step that only creates builds and tasks: the patch and version
    documents are as they were, and build and task documents are added after
    the existing ones, which are as they were. *)
Definition creates (s s' : Store) : Prop :=
  patches s' = patches s ∧ versions s' = versions s ∧
  builds s `prefix_of` builds s' ∧ tasks s `prefix_of` tasks s'.

(** What [FinalizePatch] reads before it creates anything: the project of the
    patched configuration and the commit of the patch, when [yaml.Unmarshal],
    [FindOneProjectRef] and [GetCommitEvent] each give a result. *)
Definition FinalizePatch_inputs (env : Env) (p : Patch.t)
  : option (Project.t * CommitEvent.t) :=
  project ← yamlUnmarshal env (Patch.PatchedConfig p);
  projectRef ← FindOneProjectRef env (Patch.Project p);
  projectRef ← projectRef;
  gitCommit ← GetCommitEvent env (ProjectRef.Owner projectRef)
                (ProjectRef.Repo projectRef) (Patch.Githash p);
  gitCommit ← gitCommit;
  Some (project, gitCommit).

(** The four errors that [FinalizePatch] returns before its loop. *)
Definition prelude_error (e : error) : Prop :=
  match e with
  | ConfigUnmarshalError | ProjectRefError | CommitFetchError | CommitMissing => True
  | _ => False
  end.

(** The ways in which [FinalizePatch] stops before its loop: one of the four
    errors, or the panic on a nil project reference. *)
Definition early_stop (e : error) : Prop :=
  prelude_error e ∨ e = NilProjectRef.

(** The errors of the steps that create or update documents. *)
Definition store_error (e : error) : Prop :=
  match e with
  | UnknownVariant _ | UnknownTask _ _ | StoreConflict _ | DocumentNotFound _ => True
  | _ => False
  end.

(** A step that changes no version, creates and removes no build, and
    changes only builds whose id the version struct [v] lists. *)
Definition touches_builds_of (v : Version.t) (s s' : Store) : Prop :=
  versions s' = versions s ∧
  Forall2 (λ b b', Build.Id b' = Build.Id b ∧
                   (Build.Id b ∉ Version.BuildIds v → b' = b))
    (builds s) (builds s').





(** The patch document that [FindPatchById] reads: the first one with the
    id. *)
Definition persistedPatch (id : string) (s : Store) : option Patch.t :=
  List.find (λ p, bool_decide (Patch.Id p = id)) (patches s).

(** The answers that refuse a request: not found, unauthorized, bad
    request. *)
Definition rejection (resp : response) : Prop :=
  match resp with
  | StatusNotFound | StatusUnauthorized | StatusBadRequest => True
  | _ => False
  end.

(** The answers that [schedulePatch] can give once the body is decoded: an
    internal error of a step, OK, or a panic, the last only when the
    configuration of the patch decodes ([decodes]). *)
Definition update_answer (decodes : Prop) (resp : response) : Prop :=
  match resp with
  | StatusInternalServerError context _ =>
      context ≠ "Error unmarshaling project config"
  | StatusOK _ => True
  | HandlerPanic => decodes
  | _ => False
  end.

(** The answer written by a run of the handler, whether it returned early or
    reached its end. *)
Definition answerOf (r : result response response) : response :=
  match r with Ok resp => resp | Err resp => resp end.

(** ** Worked scenarios of the other packages *)

(** A put command for the files that match [*.log], with three matches, the
    second of which the service refuses. *)
Definition logsCommand : s3.S3PutCommand :=
  s3.mk "key" "secret" "" ["*.log"] "logs/" "bucket" "private" "text/plain" [] ""
    "public" false.

Definition logFiles (filter : list string) : string + list string :=
  inr ["a.log"; "b.log"; "c.log"].

Definition s3Path (host path : string) : string := "s3://" +:+ host +:+ "/" +:+ path.

Definition refuses_b (auth : string * string)
    (fpath url contentType permissions : string) : option string :=
  if decide (fpath = "b.log") then Some "denied" else None.

(** An environment with the build number 7 in which [BUILDLOGGER_URL] holds
    [url] and nothing else is set. *)
Definition urlEnv (url : string) (key : string) : string :=
  if decide (key = "BUILDLOGGER_URL") then url
  else if decide (key = "MONGO_BUILD_NUMBER") then "7" else "".

Definition atoi7 (s : string) : option Z :=
  if decide (s = "7") then Some 7%Z else None.

(** * Properties *)

Section vtMap_facts.

Lemma vtMap_of_snoc (l : list TVPair.t) (p : TVPair.t) :
    vtMap_of (l ++ [p]) = vtMap_step (vtMap_of l) p.
Proof. unfold vtMap_of. by rewrite foldl_app. Qed.

Lemma tasksOf_snoc v l p :
    tasksOf v (l ++ [p]) =
    tasksOf v l ++ (if decide (TVPair.Variant p = v) then [TVPair.TaskName p] else []).
Proof.
    unfold tasksOf. rewrite filter_app, fmap_app. f_equal.
    rewrite filter_cons, filter_nil. by case_decide.
Qed.

Lemma tasksOf_absent v l :
    v ∉ TVPair.Variant <$> l → tasksOf v l = [].
Proof.
    unfold tasksOf. induction l as [|p l IH]; [done|].
    rewrite fmap_cons, not_elem_of_cons. intros [Hne Hl].
    rewrite filter_cons. case_decide; [congruence|]. by apply IH.
Qed.

Lemma tasksOf_present v l :
    v ∈ TVPair.Variant <$> l → tasksOf v l ≠ [].
Proof.
    unfold tasksOf. induction l as [|p l IH]; [by intros ?%elem_of_nil|].
    rewrite fmap_cons, elem_of_cons, filter_cons.
    intros [->|Hl]; case_decide; try done. by apply IH.
Qed.

  (** The map built by the first loop, entry by entry. *)
Lemma vtMap_of_lookup (l : list TVPair.t) (v : string) :
    vtMap_of l !! v =
    if decide (v ∈ TVPair.Variant <$> l)
    then Some (VariantTasks.mk v (tasksOf v l)) else None.
Proof.
    induction l as [|p l IH] using rev_ind.
    - done.
    - rewrite vtMap_of_snoc. unfold vtMap_step.
      rewrite tasksOf_snoc, fmap_app, lookup_insert.
      destruct (decide (TVPair.Variant p = v)) as [<-|Hne].
      + rewrite decide_True by (rewrite elem_of_app; right; simpl; apply list_elem_of_singleton; done).
        rewrite IH. case_decide as Hin; simpl; [done|].
        by rewrite (tasksOf_absent _ _ Hin).
      + rewrite IH, app_nil_r.
        apply decide_ext. rewrite elem_of_app. simpl.
        rewrite list_elem_of_singleton. intuition congruence.
Qed.

Lemma vtMap_of_to_list (l : list TVPair.t) :
    map_to_list (vtMap_of l) ≡ₚ
    (λ v, (v, VariantTasks.mk v (tasksOf v l))) <$> variantsOf l.
Proof.
    apply NoDup_Permutation.
    - apply NoDup_map_to_list.
    - apply NoDup_fmap_2_strong; [|apply NoDup_remove_dups]. by intros ?? _ _ [= ->].
    - intros [k vt]. rewrite elem_of_map_to_list, vtMap_of_lookup.
      unfold variantsOf. split.
      + case_decide as Hin; [|done]. intros [= <-].
        apply list_elem_of_fmap. exists k. split; [done|]. by apply elem_of_remove_dups.
      + intros (v & [= -> ->] & Hin)%list_elem_of_fmap.
        rewrite elem_of_remove_dups in Hin. by rewrite decide_True.
Qed.

Lemma vtMap_of_size (l : list TVPair.t) :
    size (vtMap_of l) = length (variantsOf l).
Proof.
    rewrite <- length_map_to_list, vtMap_of_to_list. by rewrite length_fmap.
Qed.

Lemma foldl_snoc_snd {A B} (l0 : list B) (l : list (A * B)) :
    foldl (λ vts kv, vts ++ [kv.2]) l0 l = l0 ++ l.*2.
Proof.
    revert l0. induction l as [|x l IH]; intros l0; simpl.
    - by rewrite app_nil_r.
    - rewrite IH. by rewrite <- app_assoc.
Qed.

End vtMap_facts.

(** C10: for a pair list with [k] distinct variants, [TVPairsToVariantTasks]
    returns [2k] elements: [k] zero values first, and then the [k] per-variant
    groupings (in the order in which the map is visited), none of which is a
    zero value. *)
Theorem TVPairsToVariantTasks_zero_prefix
    (range : gmap string VariantTasks.t → list (string * VariantTasks.t))
    (Hrange : ∀ m, range m ≡ₚ map_to_list m)
    (in_ : list TVPair.t) :
  let k := length (variantsOf in_) in
  let vts := TVPairsToVariantTasks range in_ in
  (in_ ≠ [] → 0 < k) ∧
  length vts = 2 * k ∧
  take k vts = replicate k VariantTasks.zero ∧
  drop k vts ≡ₚ groupings in_ ∧
  Forall (λ vt, vt ≠ VariantTasks.zero) (drop k vts).
Proof.
  intros k vts.
  assert (Hvts : vts = replicate k VariantTasks.zero ++ (range (vtMap_of in_)).*2).
  { unfold vts, TVPairsToVariantTasks. simpl.
    by rewrite foldl_snoc_snd, vtMap_of_size. }
  assert (Hperm : (range (vtMap_of in_)).*2 ≡ₚ groupings in_).
  { rewrite Hrange, vtMap_of_to_list. unfold groupings.
    by rewrite <- list_fmap_compose. }
  assert (Hdrop : drop k vts = (range (vtMap_of in_)).*2).
  { rewrite Hvts. by rewrite drop_app_length' by by rewrite length_replicate. }
  split_and!.
  - intros Hne. unfold k, variantsOf. destruct in_ as [|p l]; [done|].
    assert (TVPair.Variant p ∈ remove_dups (TVPair.Variant <$> p :: l)) as Hin.
    { apply elem_of_remove_dups. rewrite fmap_cons. left. }
    destruct (remove_dups _); [by apply elem_of_nil in Hin|simpl; lia].
  - rewrite Hvts, length_app, length_replicate, Hperm.
    unfold groupings. rewrite length_fmap. fold k. lia.
  - rewrite Hvts. by rewrite take_app_length' by by rewrite length_replicate.
  - by rewrite Hdrop.
  - rewrite Hdrop, Hperm. unfold groupings.
    apply Forall_fmap, Forall_forall. intros v Hv. simpl.
    unfold variantsOf in Hv. rewrite elem_of_remove_dups in Hv.
    intros [= -> Ht]. by apply tasksOf_present in Hv.
Qed.

(** The theorem at [(linux, compile); (osx, compile); (linux, test)], the
    map being visited in the order of [map_to_list]. *)
Lemma TVPairsToVariantTasks_zero_prefix_witness :
  let input := [TVPair.mk "linux" "compile"; TVPair.mk "osx" "compile";
                TVPair.mk "linux" "test"] in
  let vts := TVPairsToVariantTasks map_to_list input in
  length vts = 4 ∧ take 2 vts = [VariantTasks.zero; VariantTasks.zero].
Proof.
  intros input vts.
  destruct (TVPairsToVariantTasks_zero_prefix map_to_list (λ m, reflexivity _) input)
    as (_ & Hlen & Htake & _).
  split; [exact Hlen | exact Htake].
Defined.

(** C9: when the request carries a non-empty [VariantsTasks], the pairs are
    those of [VariantsTasks] alone, whatever [Variants] and [Tasks] hold; the
    cross-product of [Variants] and [Tasks] is used exactly when
    [VariantsTasks] is empty. *)
Theorem requestPairs_explicit_precedence (req : patchVariantsTasksRequest.t) :
  let vts := patchVariantsTasksRequest.VariantsTasks req in
  let cross := v ← patchVariantsTasksRequest.Variants req;
               t ← patchVariantsTasksRequest.Tasks req; [TVPair.mk v t] in
  (vts ≠ [] →
     requestPairs req = VariantTasksToTVPairs vts ∧
     ∀ variants tasks descr,
       requestPairs (patchVariantsTasksRequest.mk vts variants tasks descr)
       = requestPairs req) ∧
  (vts = [] → requestPairs req = cross).
Proof.
  intros vts cross. unfold requestPairs. fold vts. split.
  - intros Hne. assert (0 < length vts) by (destruct vts; [done|simpl; lia]).
    split; [by rewrite decide_True|].
    intros variants tasks descr. simpl. by rewrite !decide_True.
  - intros ->. simpl. done.
Qed.

(** The theorem at a request giving both forms. *)
Lemma requestPairs_explicit_precedence_witness :
  requestPairs (patchVariantsTasksRequest.mk
                  [VariantTasks.mk "linux" ["test"]] ["osx"] ["compile"] "")
  = [TVPair.mk "linux" "test"].
Proof.
  pose proof (requestPairs_explicit_precedence
                (patchVariantsTasksRequest.mk
                   [VariantTasks.mk "linux" ["test"]] ["osx"] ["compile"] "")) as [H _].
  simpl in H. destruct (H ltac:(discriminate)) as [-> _]. reflexivity.
Defined.

(** ** The dependency closure *)

Section closure.
Variable project : Project.t.

Lemma elem_of_dependencies (q d : TVPair.t) :
  d ∈ dependencies project q ↔
  ∃ td r, FindProjectTask project (TVPair.TaskName q) = Some td ∧
          r ∈ TaskDef.DependsOn td ∧ d = resolveRef q r.
Proof.
  unfold dependencies. destruct (FindProjectTask _ _) as [td|].
  - rewrite list_elem_of_fmap. split.
    + intros (r & -> & Hr). by exists td, r.
    + intros (td' & r & [= <-] & Hr & ->). by exists r.
  - split; [by intros ?%elem_of_nil|]. by intros (? & ? & ? & _).
Qed.

Lemma FindProjectTask_Some (name : string) (td : TaskDef.t) :
  FindProjectTask project name = Some td →
  td ∈ Project.Tasks project ∧ TaskDef.Name td = name.
Proof.
  unfold FindProjectTask. intros [Hin Hname]%find_some.
  split; [by apply list_elem_of_In|]. by apply bool_decide_eq_true in Hname.
Qed.

Lemma elem_of_includeUniverse (seed : list TVPair.t) (q : TVPair.t) :
  let refs := td ← Project.Tasks project; TaskDef.DependsOn td in
  q ∈ includeUniverse project seed ↔
  TVPair.Variant q ∈ (TVPair.Variant <$> seed) ++ (TaskRef.Variant <$> refs) ∧
  TVPair.TaskName q ∈ (TVPair.TaskName <$> seed) ++ (TaskRef.Name <$> refs).
Proof.
  intros refs. unfold includeUniverse. fold refs. destruct q as [v n]. simpl.
  rewrite list_elem_of_bind. split.
  - intros (v' & Hq & Hv). apply list_elem_of_bind in Hq as (n' & Hq & Hn).
    apply list_elem_of_singleton in Hq as [= -> ->]. done.
  - intros [Hv Hn]. exists v. split; [|done].
    apply list_elem_of_bind. exists n. split; [|done]. by apply list_elem_of_singleton.
Qed.

Lemma includeUniverse_seed (seed : list TVPair.t) (q : TVPair.t) :
  q ∈ seed → q ∈ includeUniverse project seed.
Proof.
  intros Hq. apply elem_of_includeUniverse.
  split; apply elem_of_app; left; apply list_elem_of_fmap; by exists q.
Qed.

Lemma includeUniverse_closed (seed : list TVPair.t) (q d : TVPair.t) :
  q ∈ includeUniverse project seed → d ∈ dependencies project q →
  d ∈ includeUniverse project seed.
Proof.
  intros [Hv Hn]%elem_of_includeUniverse (td & r & Htd & Hr & ->)%elem_of_dependencies.
  apply FindProjectTask_Some in Htd as [Htd _].
  assert (r ∈ td ← Project.Tasks project; TaskDef.DependsOn td) as Href.
  { apply list_elem_of_bind. by exists td. }
  apply elem_of_includeUniverse. unfold resolveRef. simpl. split.
  - case_decide; [done|]. apply elem_of_app. right. apply list_elem_of_fmap. by exists r.
  - apply elem_of_app. right. apply list_elem_of_fmap. by exists r.
Qed.

Lemma filter_ext_elem_of {A} (P1 P2 : A → Prop)
    `{!∀ x, Decision (P1 x), !∀ x, Decision (P2 x)} (l : list A) :
  (∀ x, x ∈ l → P1 x ↔ P2 x) → filter P1 l = filter P2 l.
Proof.
  induction l as [|a l IH]; intros Hiff; [done|].
  rewrite !filter_cons.
  rewrite IH by (intros x Hx; apply Hiff; by right).
  apply decide_ext. apply Hiff. left.
Qed.

(** Visiting a pair of the universe for the first time removes its
    dependencies from the pending work. *)
Lemma pending_visit (universe visited : list TVPair.t) (q : TVPair.t) :
  q ∈ universe → q ∉ visited →
  sum_list_with (λ q, length (dependencies project q))
    (filter (λ x, x ∉ visited ++ [q]) universe)
  + length (dependencies project q)
  ≤ sum_list_with (λ q, length (dependencies project q))
      (filter (λ x, x ∉ visited) universe).
Proof.
  intros Hq Hnv. induction universe as [|u universe IH]; [by apply elem_of_nil in Hq|].
  rewrite !filter_cons.
  destruct (decide (u = q)) as [->|Hne].
  - rewrite decide_False by (rewrite elem_of_app, list_elem_of_singleton; tauto).
    rewrite decide_True by done. simpl.
    destruct (decide (q ∈ universe)) as [Hin|Hnin].
    + specialize (IH Hin). lia.
    + clear IH. enough (filter (λ x, x ∉ visited ++ [q]) universe
                        = filter (λ x, x ∉ visited) universe) as -> by lia.
      apply filter_ext_elem_of. intros x Hx.
      rewrite elem_of_app, list_elem_of_singleton.
      split; [tauto|]. intros ? [?| ->]; done.
  - apply elem_of_cons in Hq as [->|Hq]; [done|]. specialize (IH Hq).
    destruct (decide (u ∈ visited)) as [Hu|Hu].
    + rewrite decide_False by (rewrite elem_of_app; tauto).
      rewrite decide_False by tauto. done.
    + rewrite decide_True by (rewrite elem_of_app, list_elem_of_singleton; tauto).
      rewrite decide_True by done. simpl. lia.
Qed.

(** The traversal under its invariant: the queue stays within a universe
    closed under dependencies, every dependency of a visited pair is visited
    or queued, and the fuel exceeds the pending work. It then runs to the end
    of the queue, and its result is closed under dependencies. *)
Lemma include_loop_closed (universe : list TVPair.t) (fuel : nat)
    (visited work : list TVPair.t) :
  (∀ q d, q ∈ universe → d ∈ dependencies project q → d ∈ universe) →
  (∀ q, q ∈ work → q ∈ universe) →
  (∀ q d, q ∈ visited → d ∈ dependencies project q → d ∈ visited ∨ d ∈ work) →
  pendingWork project universe visited work < fuel →
  let result := include_loop project fuel visited work in
  (∀ q, q ∈ visited ∨ q ∈ work → q ∈ result) ∧
  (∀ q d, q ∈ result → d ∈ dependencies project q → d ∈ result).
Proof.
  intros Hclosed. revert visited work.
  induction fuel as [|fuel IH]; intros visited work Hwork Hinv Hfuel; [lia|].
  destruct work as [|tv work]; simpl.
  { split.
    - intros q [Hq|Hq%elem_of_nil]; done.
    - intros q d Hq Hd. destruct (Hinv q d Hq Hd) as [?|?%elem_of_nil]; done. }
  unfold pendingWork in Hfuel. simpl in Hfuel.
  case_decide as Htv.
  - destruct (IH visited work) as [Hsub Hres].
    + intros q Hq. apply Hwork. by right.
    + intros q d Hq Hd. destruct (Hinv q d Hq Hd) as [?|[->|?]%elem_of_cons]; auto.
    + unfold pendingWork. lia.
    + split; [|done]. intros q [Hq|[->|Hq]%elem_of_cons]; auto.
  - assert (tv ∈ universe) as Hu by (apply Hwork; left).
    pose proof (pending_visit universe visited tv Hu Htv) as Hdec.
    destruct (IH (visited ++ [tv]) (work ++ dependencies project tv)) as [Hsub Hres].
    + intros q [Hq|Hq]%elem_of_app; [apply Hwork; by right|by eapply Hclosed].
    + intros q d [Hq| ->%list_elem_of_singleton]%elem_of_app Hd.
      * rewrite !elem_of_app, list_elem_of_singleton.
        destruct (Hinv q d Hq Hd) as [?|[->|?]%elem_of_cons]; auto.
      * right. apply elem_of_app. by right.
    + unfold pendingWork. rewrite length_app. lia.
    + split; [|done]. intros q Hq. apply Hsub.
      rewrite !elem_of_app, list_elem_of_singleton.
      destruct Hq as [Hq|[->|Hq]%elem_of_cons]; auto.
Qed.

Lemma pendingWork_initial (seed : list TVPair.t) :
  pendingWork project (includeUniverse project seed) [] seed < includeFuel project seed.
Proof.
  unfold pendingWork, includeFuel.
  enough (filter (λ q, q ∉ []) (includeUniverse project seed)
          = includeUniverse project seed) as -> by lia.
  induction (includeUniverse project seed) as [|u l IH]; [done|].
  rewrite filter_cons, decide_True by apply not_elem_of_nil. by rewrite IH.
Qed.

(** The closure contains the seed and is closed under declared dependencies. *)
Lemma Include_closed (seed : list TVPair.t) :
  (∀ q, q ∈ seed → q ∈ Include project seed) ∧
  (∀ q d, q ∈ Include project seed → d ∈ dependencies project q →
          d ∈ Include project seed).
Proof.
  unfold Include.
  destruct (include_loop_closed (includeUniverse project seed)
              (includeFuel project seed) [] seed) as [Hsub Hres].
  - intros q d. apply includeUniverse_closed.
  - apply includeUniverse_seed.
  - by intros q d ?%elem_of_nil.
  - apply pendingWork_initial.
  - split; [|done]. intros q Hq. apply Hsub. by right.
Qed.

End closure.

(** C6: for every project and every seed, [IncludePatchDependencies] returns
    a list that contains every pair of the seed and, for every pair [q] of the
    result and every dependency [r] declared by the task definition of [q],
    the pair of [r] resolved to the explicit variant of [r], or to the variant
    of [q] when [r] names none. *)
Theorem IncludePatchDependencies_closure (project : Project.t) (seed : list TVPair.t) :
  let result := IncludePatchDependencies project seed in
  (∀ q, q ∈ seed → q ∈ result) ∧
  (∀ q td r,
     q ∈ result →
     FindProjectTask project (TVPair.TaskName q) = Some td →
     r ∈ TaskDef.DependsOn td →
     TVPair.mk (if decide (TaskRef.Variant r = "") then TVPair.Variant q
                else TaskRef.Variant r)
               (TaskRef.Name r) ∈ result).
Proof.
  intros result. destruct (Include_closed project seed) as [Hseed Hdeps].
  split; [exact Hseed|].
  intros q td r Hq Htd Hr. apply (Hdeps q); [done|].
  apply elem_of_dependencies. by exists td, r.
Qed.

(** ** The store monad *)

Section monad.
Context {E : Type}.

Lemma bind_inv {A B} (m : Db E A) (k : A → Db E B) (s s' : Store) (r : result E B) :
  (m ≫= k) s = (s', r) →
  (∃ e, m s = (s', Err e) ∧ r = Err e) ∨
  (∃ a s1, m s = (s1, Ok a) ∧ k a s1 = (s', r)).
Proof.
  unfold mbind, Db_bind. destruct (m s) as [s1 [a|e]] eqn:Hm.
  - intros Hk. right. by exists a, s1.
  - intros [= <- <-]. left. by exists e.
Qed.

Lemma bind_ok {A B} (m : Db E A) (k : A → Db E B) (s s' : Store) (b : B) :
  (m ≫= k) s = (s', Ok b) →
  ∃ a s1, m s = (s1, Ok a) ∧ k a s1 = (s', Ok b).
Proof. intros [(e & _ & [=])|H]%bind_inv; done. Qed.

Lemma bind_run {A B} (m : Db E A) (k : A → Db E B) (s s1 : Store) (a : A) :
  m s = (s1, Ok a) → (m ≫= k) s = k a s1.
Proof. unfold mbind, Db_bind. by intros ->. Qed.


Lemma fromOption_inv {A} (e : E) (o : option A) (s s' : Store) (r : result E A) :
  fromOption e o s = (s', r) →
  s' = s ∧ r = match o with Some a => Ok a | None => Err e end.
Proof. destruct o; by intros [= <- <-]. Qed.

Section preserves.
Variable R : Store → Store → Prop.
Context `{!Reflexive R, !Transitive R}.

Lemma preserves_ret {A} (a : A) : preserves R (mret a : Db E A).
Proof. by intros s s' r [= <- <-]. Qed.

Lemma preserves_fail {A} (e : E) : preserves R (fail e : Db E A).
Proof. by intros s s' r [= <- <-]. Qed.

Lemma preserves_fromOption {A} (e : E) (o : option A) : preserves R (fromOption e o).
Proof. intros s s' r [-> _]%fromOption_inv. done. Qed.

Lemma preserves_bind {A B} (m : Db E A) (k : A → Db E B) :
  preserves R m → (∀ a, preserves R (k a)) → preserves R (m ≫= k).
Proof.
  intros Hm Hk s s' r [(e & Hs & _)|(a & s1 & Hs & Hr)]%bind_inv.
  - by eapply Hm.
  - etrans; [by eapply Hm|by eapply Hk].
Qed.

Lemma preserves_foldM {A S} (f : S → A → Db E S) (acc : S) (l : list A) :
  (∀ acc x, preserves R (f acc x)) → preserves R (foldM f acc l).
Proof.
  intros Hf. revert acc. induction l as [|x l IH]; intros acc; simpl.
  - apply preserves_ret.
  - apply preserves_bind; [apply Hf|]. intros acc'. apply IH.
Qed.

Lemma preserves_forM_ {A B} (f : A → Db E B) (l : list A) :
  (∀ x, preserves R (f x)) → preserves R (forM_ f l).
Proof.
  intros Hf. apply preserves_foldM. intros _ x.
  apply preserves_bind; [apply Hf|]. intros _. apply preserves_ret.
Qed.

Lemma preserves_orRespond {E' A} (f : E' → E) (m : Db E' A) :
  preserves R m → preserves R (orRespond f m).
Proof.
  intros Hm s s' r. unfold orRespond.
  destruct (m s) as [s1 [a|e]] eqn:Hs; intros [= <- <-]; by eapply Hm.
Qed.

End preserves.
End monad.

Lemma reads_preserves {E A} (R : Store → Store → Prop) `{!Reflexive R} (m : Db E A) :
  reads m → preserves R m.
Proof. intros Hm s s' r Hs. by rewrite (Hm s s' r Hs). Qed.

(** ** Additive steps *)

Section extends_by.
Context {A : Type} (R : A → A → Prop).

Lemma Forall2_refl `{!Reflexive R} (l : list A) : Forall2 R l l.
Proof. by apply Forall_Forall2_diag, Forall_forall. Qed.

Lemma Forall2_transitive `{!Transitive R} (l1 l2 l3 : list A) :
  Forall2 R l1 l2 → Forall2 R l2 l3 → Forall2 R l1 l3.
Proof.
  intros H12. revert l3. induction H12 as [|x y l1 l2 Hxy _ IH]; intros l3 H23.
  - by inversion H23.
  - inversion H23 as [|? z ? l3' Hyz H23']; subst. constructor; [by etrans|by apply IH].
Qed.

Lemma extends_by_refl `{!Reflexive R} (l : list A) : extends_by R l l.
Proof. exists l, []. split; [by rewrite app_nil_r|]. apply Forall2_refl. Qed.

Lemma extends_by_trans `{!Transitive R} (l1 l2 l3 : list A) :
  extends_by R l1 l2 → extends_by R l2 l3 → extends_by R l1 l3.
Proof.
  intros (k1 & a1 & -> & H1) (k2 & a2 & -> & H2).
  apply Forall2_app_inv_l in H2 as (k2' & a2' & Hk & Ha & ->).
  exists k2', (a2' ++ a2). split; [by rewrite app_assoc|].
  by eapply Forall2_transitive.
Qed.

Lemma extends_by_snoc `{!Reflexive R} (l : list A) (x : A) : extends_by R l (l ++ [x]).
Proof. exists l, [x]. split; [done|]. apply Forall2_refl. Qed.

Lemma extends_by_lookup (l l' : list A) (i : nat) (x : A) :
  extends_by R l l' → l !! i = Some x → ∃ x', l' !! i = Some x' ∧ R x x'.
Proof.
  intros (kept & added & -> & HR) Hx.
  destruct (Forall2_lookup_l _ _ _ _ _ HR Hx) as (x' & Hx' & Hxx').
  exists x'. split; [|done]. by apply lookup_app_l_Some.
Qed.

End extends_by.

Lemma Forall2_updateWhere {A} (R : A → A → Prop) `{!Reflexive R}
    (sel : A → bool) (f : A → A) (l : list A) :
  (∀ x, R x (f x)) → Forall2 R l (updateWhere sel f l).
Proof.
  intros Hf. unfold updateWhere. apply Forall2_fmap_r, Forall_Forall2_diag, Forall_forall.
  intros x _. simpl. by destruct (sel x).
Qed.

#[local] Instance patch_le_refl : Reflexive patch_le.
Proof. by intros p. Qed.
#[local] Instance patch_le_trans : Transitive patch_le.
Proof.
  intros p1 p2 p3 (?&?&?&?) (?&?&?&?).
  split_and!; [congruence|congruence|by etrans|by etrans].
Qed.
#[local] Instance version_le_refl : Reflexive version_le.
Proof. by intros v. Qed.
#[local] Instance version_le_trans : Transitive version_le.
Proof.
  intros v1 v2 v3 (?&?&?) (?&?&?). split_and!; [congruence|by etrans|by etrans].
Qed.
#[local] Instance build_le_refl : Reflexive build_le.
Proof. by intros b. Qed.
#[local] Instance build_le_trans : Transitive build_le.
Proof. intros b1 b2 b3 (?&?) (?&?). split; [congruence|by etrans]. Qed.

#[local] Instance grows_refl : Reflexive grows.
Proof.
  intros s. split_and!; [apply Forall2_refl, _..| |done].
  apply extends_by_refl, _.
Qed.
#[local] Instance grows_trans : Transitive grows.
Proof.
  intros s1 s2 s3 (Hp & Hv & Hb & Ht) (Hp' & Hv' & Hb' & Ht').
  split_and!.
  - by eapply Forall2_transitive; [apply _|..].
  - by eapply Forall2_transitive; [apply _|..].
  - by eapply extends_by_trans; [apply _|..].
  - by etrans.
Qed.

(** ** The effect of each store operation *)

Lemma store_eta (s : Store) : mkStore (patches s) (versions s) (builds s) (tasks s) = s.
Proof. by destruct s. Qed.

Lemma UpdatePatchDocument_inv (id : string) (f : Patch.t → Patch.t) (s s' : Store) r :
  UpdatePatchDocument id f s = (s', r) →
  (r = Ok tt ∧ id ∈ (Patch.Id <$> patches s) ∧
   s' = mkStore (updateWhere (λ p, bool_decide (Patch.Id p = id)) f (patches s))
          (versions s) (builds s) (tasks s)) ∨
  (r = Err (DocumentNotFound id) ∧ (id ∉ (Patch.Id <$> patches s)) ∧ s' = s).
Proof.
  unfold UpdatePatchDocument, mbind, Db_bind, get, put, fail. simpl.
  case_bool_decide; intros [= <- <-]; auto.
Qed.

Lemma InsertVersion_inv (v : Version.t) (s s' : Store) r :
  InsertVersion v s = (s', r) →
  (r = Ok tt ∧ (Version.Id v ∉ (Version.Id <$> versions s)) ∧
   s' = mkStore (patches s) (versions s ++ [v]) (builds s) (tasks s)) ∨
  (r = Err (StoreConflict (Version.Id v)) ∧ s' = s).
Proof.
  unfold InsertVersion, mbind, Db_bind, get, put, fail. simpl.
  case_bool_decide; intros [= <- <-]; auto.
Qed.

Lemma UpdateVersionAppendBuilds_inv (id : string) ids sts (s s' : Store) r :
  UpdateVersionAppendBuilds id ids sts s = (s', r) →
  (r = Ok tt ∧ id ∈ (Version.Id <$> versions s) ∧
   s' = mkStore (patches s)
          (updateWhere (λ v, bool_decide (Version.Id v = id))
             (λ v, Version.with_Builds v (Version.BuildIds v ++ ids)
                     (Version.BuildVariants v ++ sts))
             (versions s))
          (builds s) (tasks s)) ∨
  (r = Err (DocumentNotFound id) ∧ (id ∉ (Version.Id <$> versions s)) ∧ s' = s).
Proof.
  unfold UpdateVersionAppendBuilds, mbind, Db_bind, get, put, fail. simpl.
  case_bool_decide; intros [= <- <-]; auto.
Qed.

Lemma InsertBuild_inv (b : Build.t) (s s' : Store) r :
  InsertBuild b s = (s', r) →
  (r = Ok tt ∧ (Build.Id b ∉ (Build.Id <$> builds s)) ∧
   s' = mkStore (patches s) (versions s) (builds s ++ [b]) (tasks s)) ∨
  (r = Err (StoreConflict (Build.Id b)) ∧ s' = s).
Proof.
  unfold InsertBuild, mbind, Db_bind, get, put, fail. simpl.
  case_bool_decide; intros [= <- <-]; auto.
Qed.

Lemma UpdateBuildAppendTasks_inv (id : string) ids (s s' : Store) r :
  UpdateBuildAppendTasks id ids s = (s', r) →
  (r = Ok tt ∧
   s' = mkStore (patches s) (versions s)
          (updateWhere (λ b, bool_decide (Build.Id b = id))
             (λ b, Build.with_TaskIds b (Build.TaskIds b ++ ids)) (builds s))
          (tasks s)) ∨
  (r = Err (DocumentNotFound id) ∧ s' = s).
Proof.
  unfold UpdateBuildAppendTasks, mbind, Db_bind, get, put, fail. simpl.
  case_bool_decide; intros [= <- <-]; auto.
Qed.

Lemma InsertTask_inv (t : Task.t) (s s' : Store) r :
  InsertTask t s = (s', r) →
  (r = Ok tt ∧ (Task.Id t ∉ (Task.Id <$> tasks s)) ∧
   s' = mkStore (patches s) (versions s) (builds s) (tasks s ++ [t])) ∨
  (r = Err (StoreConflict (Task.Id t)) ∧ s' = s).
Proof.
  unfold InsertTask, mbind, Db_bind, get, put, fail. simpl.
  case_bool_decide; intros [= <- <-]; auto.
Qed.

Lemma FindBuildsByIds_reads (ids : list string) : reads (FindBuildsByIds ids).
Proof. by intros s s' r [= <- <-]. Qed.

Lemma FindPatchById_inv (id : string) (s s' : Store) r :
  FindPatchById id s = (s', r) →
  s' = s ∧
  ((∃ p, r = Ok p ∧ p ∈ patches s ∧ Patch.Id p = id) ∨ r = Err (DocumentNotFound id)).
Proof.
  unfold FindPatchById, mbind, Db_bind, get. simpl.
  intros [-> ->]%fromOption_inv. split; [done|].
  destruct (List.find _ _) as [p|] eqn:Hfind; [left|by right].
  apply find_some in Hfind as [Hin Hid]. exists p.
  split_and!; [done|by apply list_elem_of_In|by apply bool_decide_eq_true in Hid].
Qed.

Lemma validateTasks_reads (project : Project.t) (variant : string) (taskNames : list string) :
  reads (validateTasks project variant taskNames).
Proof.
  unfold reads, validateTasks.
  apply (preserves_bind eq); [apply (preserves_fromOption eq)|]. intros bv.
  apply (preserves_forM_ eq). intros t.
  destruct (SliceContains _ _); [apply (preserves_ret eq)|apply (preserves_fail eq)].
Qed.

(** ** Each step of an extension is additive *)

Lemma UpdatePatchDocument_grows (id : string) (f : Patch.t → Patch.t) :
  (∀ q, patch_le q (f q)) → preserves grows (UpdatePatchDocument id f).
Proof.
  intros Hf s s' r [(_ & _ & ->)|(_ & _ & ->)]%UpdatePatchDocument_inv; [|done].
  split_and!; simpl; [|apply Forall2_refl, _|apply extends_by_refl, _|done].
  apply Forall2_updateWhere; [apply _|done].
Qed.

Lemma UpdateVersionAppendBuilds_grows (id : string) ids sts :
  preserves grows (UpdateVersionAppendBuilds id ids sts).
Proof.
  intros s s' r [(_ & _ & ->)|(_ & _ & ->)]%UpdateVersionAppendBuilds_inv; [|done].
  split_and!; simpl; [apply Forall2_refl, _| |apply extends_by_refl, _|done].
  apply Forall2_updateWhere; [apply _|]. intros v.
  split_and!; simpl; [done|by apply prefix_app_r..].
Qed.

Lemma InsertBuild_grows (b : Build.t) : preserves grows (InsertBuild b).
Proof.
  intros s s' r [(_ & _ & ->)|(_ & ->)]%InsertBuild_inv; [|done].
  split_and!; simpl; [apply Forall2_refl, _..| |done].
  apply extends_by_snoc, _.
Qed.

Lemma UpdateBuildAppendTasks_grows (id : string) ids :
  preserves grows (UpdateBuildAppendTasks id ids).
Proof.
  intros s s' r [(_ & ->)|(_ & ->)]%UpdateBuildAppendTasks_inv; [|done].
  split_and!; simpl; [apply Forall2_refl, _..| |done].
  exists (updateWhere (λ b, bool_decide (Build.Id b = id))
            (λ b, Build.with_TaskIds b (Build.TaskIds b ++ ids)) (builds s)), [].
  split; [by rewrite app_nil_r|].
  apply Forall2_updateWhere; [apply _|]. intros b.
  split; simpl; [done|by apply prefix_app_r].
Qed.

Lemma InsertTask_grows (t : Task.t) : preserves grows (InsertTask t).
Proof.
  intros s s' r [(_ & _ & ->)|(_ & ->)]%InsertTask_inv; [|done].
  split_and!; simpl; [apply Forall2_refl, _..|apply extends_by_refl, _|].
  by apply prefix_app_r.
Qed.

Lemma InsertTasks_grows (ts : list Task.t) : preserves grows (InsertTasks ts).
Proof. apply (preserves_forM_ grows). apply InsertTask_grows. Qed.

Lemma CreateBuildFromVersion_grows project v tt buildName activated taskNames :
  preserves grows (CreateBuildFromVersion project v tt buildName activated taskNames).
Proof.
  unfold CreateBuildFromVersion.
  apply (preserves_bind grows); [apply (reads_preserves grows), validateTasks_reads|].
  intros _. apply (preserves_bind grows); [apply InsertBuild_grows|].
  intros _. apply (preserves_bind grows); [apply InsertTasks_grows|].
  intros _. apply (preserves_ret grows).
Qed.

Lemma AddTasksToBuild_grows b project v taskNames :
  preserves grows (AddTasksToBuild b project v taskNames).
Proof.
  unfold AddTasksToBuild.
  apply (preserves_bind grows); [apply (reads_preserves grows), validateTasks_reads|].
  intros _. apply (preserves_bind grows); [apply InsertTasks_grows|].
  intros _. apply (preserves_bind grows); [apply UpdateBuildAppendTasks_grows|].
  intros _. apply (preserves_ret grows).
Qed.

Lemma addToSet_prefix (l items : list string) : l `prefix_of` addToSet l items.
Proof.
  unfold addToSet. revert l. induction items as [|x items IH]; intros l; simpl; [done|].
  destruct (SliceContains l x); [apply IH|].
  etrans; [|apply IH]. by apply prefix_app_r.
Qed.

Lemma Patch_AddTasks_grows p names : preserves grows (Patch_AddTasks p names).
Proof.
  unfold Patch_AddTasks. apply (preserves_bind grows); [|intros _; apply (preserves_ret grows)].
  apply UpdatePatchDocument_grows. intros q. split_and!; simpl; [done..|apply addToSet_prefix|done].
Qed.

Lemma Patch_AddBuildVariants_grows p names :
  preserves grows (Patch_AddBuildVariants p names).
Proof.
  unfold Patch_AddBuildVariants.
  apply (preserves_bind grows); [|intros _; apply (preserves_ret grows)].
  apply UpdatePatchDocument_grows. intros q. split_and!; simpl; [done..|apply addToSet_prefix].
Qed.

Lemma Patch_SetDescription_grows p desc : preserves grows (Patch_SetDescription p desc).
Proof.
  unfold Patch_SetDescription.
  apply (preserves_bind grows); [|intros _; apply (preserves_ret grows)].
  apply UpdatePatchDocument_grows. intros q. by split_and!.
Qed.

Lemma AddNewTasksForPatch_grows p v project taskNames :
  preserves grows (AddNewTasksForPatch p v project taskNames).
Proof.
  unfold AddNewTasksForPatch.
  apply (preserves_bind grows); [apply Patch_AddTasks_grows|]. intros p'.
  case_decide; [|apply (preserves_ret grows)].
  apply (preserves_bind grows); [apply (reads_preserves grows), FindBuildsByIds_reads|].
  intros bs. apply (preserves_bind grows); [|intros _; apply (preserves_ret grows)].
  apply (preserves_forM_ grows). intros b. apply AddTasksToBuild_grows.
Qed.

Lemma AddNewBuildsForPatch_grows p v project buildVariants :
  preserves grows (AddNewBuildsForPatch p v project buildVariants).
Proof.
  unfold AddNewBuildsForPatch.
  apply (preserves_bind grows); [apply Patch_AddBuildVariants_grows|]. intros p'.
  apply (preserves_bind grows).
  - apply (preserves_foldM grows). intros [[ids sts] v'] bv.
    apply (preserves_bind grows); [apply CreateBuildFromVersion_grows|].
    intros id. apply (preserves_ret grows).
  - intros [[ids sts] v'].
    apply (preserves_bind grows); [apply UpdateVersionAppendBuilds_grows|].
    intros _. apply (preserves_ret grows).
Qed.

Lemma Extend_grows p v project pairs : preserves grows (Extend p v project pairs).
Proof.
  unfold Extend. apply (preserves_bind grows); [apply AddNewTasksForPatch_grows|].
  intros p'. apply AddNewBuildsForPatch_grows.
Qed.

(** C7: an extension is additive. Whatever its outcome, every build stays at
    its position with its id, its task ids kept in order with new ones only
    after them; every task document stays at its position, unchanged (its id
    and [DependsOn] included); and every version stays at its position with
    its id, its [BuildIds] and [BuildVariants] kept in order with new entries
    only after them. *)
Theorem Extend_additive (p : Patch.t) (v : Version.t) (project : Project.t)
    (pairs : list TVPair.t) (s s' : Store) (r : result error Version.t) :
  Extend p v project pairs s = (s', r) →
  (∀ i b, builds s !! i = Some b →
     ∃ b', builds s' !! i = Some b' ∧ Build.Id b' = Build.Id b ∧
           Build.TaskIds b `prefix_of` Build.TaskIds b') ∧
  (∀ i t, tasks s !! i = Some t → tasks s' !! i = Some t) ∧
  (∀ i w, versions s !! i = Some w →
     ∃ w', versions s' !! i = Some w' ∧ Version.Id w' = Version.Id w ∧
           Version.BuildIds w `prefix_of` Version.BuildIds w' ∧
           Version.BuildVariants w `prefix_of` Version.BuildVariants w') ∧
  length (versions s') = length (versions s).
Proof.
  intros Hrun. destruct (Extend_grows p v project pairs s s' r Hrun)
    as (_ & Hv & Hb & Ht).
  split_and!.
  - intros i b Hi. by apply (extends_by_lookup build_le _ _ i b Hb).
  - intros i t Hi. by eapply prefix_lookup_Some.
  - intros i w Hi. by apply (Forall2_lookup_l _ _ _ _ _ Hv).
  - symmetry. by eapply Forall2_length.
Qed.

(** ** Successful materialization *)

Lemma reads_inv {E A} (m : Db E A) (s s' : Store) r : reads m → m s = (s', r) → s' = s.
Proof. intros Hm Hs. symmetry. by eapply Hm. Qed.

Lemma InsertTasks_ok (ts : list Task.t) (s s' : Store) :
  InsertTasks ts s = (s', Ok tt) →
  s' = mkStore (patches s) (versions s) (builds s) (tasks s ++ ts).
Proof.
  unfold InsertTasks, forM_. revert s.
  induction ts as [|t ts IH]; intros s; simpl.
  - intros [= <-]. by rewrite app_nil_r, store_eta.
  - intros ([] & s1 & ([] & s2 & Hins & [= Heq])%bind_ok & Hrest)%bind_ok. subst s2.
    apply InsertTask_inv in Hins as [(_ & _ & ->)|([=] & _)].
    apply IH in Hrest as ->. simpl. by rewrite <- app_assoc.
Qed.

Lemma CreateBuildFromVersion_ok project v tt buildName activated taskNames
    (s s' : Store) (id : string) :
  CreateBuildFromVersion project v tt buildName activated taskNames s = (s', Ok id) →
  let newTasks := makeTask project v tt (BuildId (Version.Id v) buildName)
                    buildName activated <$> taskNames in
  id = BuildId (Version.Id v) buildName ∧
  s' = mkStore (patches s) (versions s)
         (builds s ++ [Build.mk id (Version.Id v) buildName (Task.Id <$> newTasks) activated])
         (tasks s ++ newTasks).
Proof.
  unfold CreateBuildFromVersion.
  intros ([] & s1 & Hval & ([] & s2 & Hb & ([] & s3 & Ht & [= Hs Hid])%bind_ok)%bind_ok)%bind_ok.
  subst s3 id.
  apply (reads_inv _ _ _ _ (validateTasks_reads _ _ _)) in Hval as ->.
  apply InsertBuild_inv in Hb as [(_ & _ & ->)|([=] & _)].
  apply InsertTasks_ok in Ht as ->. done.
Qed.

(** The builds and tasks that [FinalizePatch] creates for one entry of
    [VariantsTasks]. *)
Lemma FinalizePatch_loop_ok project tt (vts : list VariantTasks.t)
    (v0 v' : Version.t) (s s' : Store) :
  foldM (λ patchVersion vt,
           buildId ← CreateBuildFromVersion project patchVersion tt
                       (VariantTasks.Variant vt) true (VariantTasks.Tasks vt);
           mret (Version.with_Builds patchVersion
                   (Version.BuildIds patchVersion ++ [buildId])
                   (Version.BuildVariants patchVersion ++
                      [BuildStatus.mk (VariantTasks.Variant vt) true buildId])))
        v0 vts s = (s', Ok v') →
  let vid := Version.Id v0 in
  let tasksFor vt :=
    makeTask project v0 tt (BuildId vid (VariantTasks.Variant vt))
      (VariantTasks.Variant vt) true <$> VariantTasks.Tasks vt in
  v' = Version.with_Builds v0
         (Version.BuildIds v0 ++ ((λ vt, BuildId vid (VariantTasks.Variant vt)) <$> vts))
         (Version.BuildVariants v0 ++
            ((λ vt, BuildStatus.mk (VariantTasks.Variant vt) true
                      (BuildId vid (VariantTasks.Variant vt))) <$> vts)) ∧
  s' = mkStore (patches s) (versions s)
         (builds s ++
            ((λ vt, Build.mk (BuildId vid (VariantTasks.Variant vt)) vid
                      (VariantTasks.Variant vt) (Task.Id <$> tasksFor vt) true) <$> vts))
         (tasks s ++ (vts ≫= tasksFor)).
Proof.
  revert v0 s. induction vts as [|vt vts IH]; intros v0 s; simpl.
  - intros [= <- <-]. rewrite !app_nil_r, store_eta. by destruct v0.
  - intros (v1 & s1 & (id & s2 & Hcreate & [= Hs Hv])%bind_ok & Hrest)%bind_ok.
    subst s2 v1.
    apply CreateBuildFromVersion_ok in Hcreate as [-> ->].
    apply IH in Hrest as [-> ->]. simpl.
    split; [by rewrite <- !app_assoc|].
    by rewrite <- !app_assoc.
Qed.

Lemma Patch_SetActivated_ok (p p' : Patch.t) (versionId : string) (s s' : Store) :
  Patch_SetActivated p versionId s = (s', Ok p') →
  Patch.Id p ∈ Patch.Id <$> patches s ∧
  s' = mkStore
         (updateWhere (λ q, bool_decide (Patch.Id q = Patch.Id p))
            (λ q, Patch.with_Version q versionId true) (patches s))
         (versions s) (builds s) (tasks s).
Proof.
  unfold Patch_SetActivated.
  intros ([] & s1 & Hupd & [= Hs _])%bind_ok. subst s1.
  by apply UpdatePatchDocument_inv in Hupd as [(_ & ? & ->)|([=] & _)].
Qed.

Lemma elem_of_updateWhere {A} (sel : A → bool) (f : A → A) (l : list A) (y : A) :
  y ∈ updateWhere sel f l ↔ ∃ x, x ∈ l ∧ y = if sel x then f x else x.
Proof.
  unfold updateWhere. rewrite list_elem_of_fmap.
  split; [intros (x & -> & Hx)|intros (x & Hx & ->)]; by exists x.
Qed.

Lemma FinalizePatch_ok (env : Env) (p : Patch.t) (s s' : Store) (v : Version.t) :
  FinalizePatch env p s = (s', Ok v) →
  ∃ project commit,
    yamlUnmarshal env (Patch.PatchedConfig p) = Some project ∧
    let vid := Patch.Id p +:+ "_" +:+ "0" in
    let v0 := Version.mk vid (Now env) (Patch.Project p) (Patch.Githash p)
                (CommitEvent.Name commit) (CommitEvent.Email commit)
                (CommitEvent.Message commit) [] [] (Patch.PatchedConfig p)
                (PatchCreated env) (PatchVersionRequester env) in
    let tt := NewPatchTaskIdTable project v0 p in
    let tasksFor vt :=
      makeTask project v0 tt (BuildId vid (VariantTasks.Variant vt))
        (VariantTasks.Variant vt) true <$> VariantTasks.Tasks vt in
    v = Version.with_Builds v0
          ((λ vt, BuildId vid (VariantTasks.Variant vt)) <$> Patch.VariantsTasks p)
          ((λ vt, BuildStatus.mk (VariantTasks.Variant vt) true
                    (BuildId vid (VariantTasks.Variant vt))) <$> Patch.VariantsTasks p) ∧
    Patch.Id p ∈ Patch.Id <$> patches s ∧
    s' = mkStore
           (updateWhere (λ q, bool_decide (Patch.Id q = Patch.Id p))
              (λ q, Patch.with_Version q vid true) (patches s))
           (versions s ++ [v])
           (builds s ++
              ((λ vt, Build.mk (BuildId vid (VariantTasks.Variant vt)) vid
                        (VariantTasks.Variant vt) (Task.Id <$> tasksFor vt) true)
                 <$> Patch.VariantsTasks p))
           (tasks s ++ (Patch.VariantsTasks p ≫= tasksFor)).
Proof.
  unfold FinalizePatch.
  intros (project & s1 & [-> Hproject]%fromOption_inv & Hrun)%bind_ok.
  apply bind_ok in Hrun as (oref & s1 & [-> Horef]%fromOption_inv & Hrun).
  apply bind_ok in Hrun as (ref & s1 & [-> Href]%fromOption_inv & Hrun).
  apply bind_ok in Hrun as (oc & s1 & [-> Hoc]%fromOption_inv & Hrun).
  apply bind_ok in Hrun as (commit & s1 & [-> Hcommit]%fromOption_inv & Hrun).
  apply bind_ok in Hrun as (v1 & s1 & Hloop & Hrun).
  apply bind_ok in Hrun as ([] & s2 & Hins & Hrun).
  apply bind_ok in Hrun as (p' & s3 & Hact & [= Hs Hv]). subst s3 v1.
  exists project, commit.
  split; [by destruct (yamlUnmarshal _ _); simplify_eq|].
  apply FinalizePatch_loop_ok in Hloop as [-> ->]. simpl in *.
  apply InsertVersion_inv in Hins as [(_ & _ & ->)|([=] & _)].
  apply Patch_SetActivated_ok in Hact as [Hin ->]. simpl in *.
  done.
Qed.

(** C2 (amended): [FinalizePatch] computes no closure. When it succeeds, the
    new version has the id of the patch followed by [_0]; one Build, with
    [Activated] true, has been added for every entry of [patch.VariantsTasks],
    in order, after the existing builds; the ids of these builds, and a
    [BuildStatus] with [Activated] true for each, are the [BuildIds] and
    [BuildVariants] of the version, in the same order; the version has been
    added to the store; and the persisted patch has its [Version] set to the
    id of the version. *)
Theorem FinalizePatch_materializes_VariantsTasks
    (env : Env) (p : Patch.t) (s s' : Store) (v : Version.t) :
  FinalizePatch env p s = (s', Ok v) →
  let vid := Patch.Id p +:+ "_" +:+ "0" in
  Version.Id v = vid ∧
  Version.BuildIds v
    = (λ vt, BuildId vid (VariantTasks.Variant vt)) <$> Patch.VariantsTasks p ∧
  Version.BuildVariants v
    = (λ vt, BuildStatus.mk (VariantTasks.Variant vt) true
               (BuildId vid (VariantTasks.Variant vt))) <$> Patch.VariantsTasks p ∧
  (∃ added,
     builds s' = builds s ++ added ∧
     Forall2 (λ vt b,
                Build.Id b = BuildId vid (VariantTasks.Variant vt) ∧
                Build.Version b = vid ∧
                Build.BuildVariant b = VariantTasks.Variant vt ∧
                Build.TaskIds b
                  = TaskId vid (VariantTasks.Variant vt) <$> VariantTasks.Tasks vt ∧
                Build.Activated b = true)
       (Patch.VariantsTasks p) added) ∧
  versions s' = versions s ++ [v] ∧
  Patch.Id p ∈ Patch.Id <$> patches s' ∧
  (∀ q, q ∈ patches s' → Patch.Id q = Patch.Id p →
        Patch.Version q = vid ∧ Patch.Activated q = true).
Proof.
  intros (project & commit & _ & Hrun)%FinalizePatch_ok vid.
  simpl in Hrun. destruct Hrun as (-> & Hin & ->). simpl.
  split_and!; try done.
  - eexists. split; [done|]. apply Forall2_fmap_r, Forall_Forall2_diag, Forall_forall.
    intros vt _. simpl. split_and!; try done.
    rewrite <- !list_fmap_compose. by apply list_fmap_ext.
  - apply list_elem_of_fmap in Hin as (q & Hid & Hq).
    apply list_elem_of_fmap. exists (Patch.with_Version q vid true). split; [done|].
    apply elem_of_updateWhere. exists q. split; [done|].
    by rewrite bool_decide_eq_true_2.
  - intros q' (q & Hq & ->)%elem_of_updateWhere Hid.
    case_bool_decide; [done|]. congruence.
Qed.

(** ** The request recorded in the patch *)

Lemma addToSet_elem (l items : list string) (x : string) :
  x ∈ items → x ∈ addToSet l items.
Proof.
  unfold addToSet. revert l. induction items as [|y items IH]; intros l Hx; simpl.
  { by apply elem_of_nil in Hx. }
  apply elem_of_cons in Hx as [->|Hx]; [|by apply IH].
  assert (∀ l', y ∈ l' → y ∈ addToSet l' items) as Hkeep.
  { intros l' Hy. eapply elem_of_prefix; [done|apply addToSet_prefix]. }
  unfold SliceContains. case_bool_decide; apply Hkeep; [done|].
  apply elem_of_app. right. by apply list_elem_of_singleton.
Qed.





Lemma grows_patch_ids (s s' : Store) :
  grows s s' → Patch.Id <$> patches s' = Patch.Id <$> patches s.
Proof.
  intros (Hp & _). induction Hp as [|q q' l l' (Hid & _) _ IH]; [done|].
  rewrite !fmap_cons. by f_equal.
Qed.

Lemma grows_version_ids (s s' : Store) :
  grows s s' → Version.Id <$> versions s' = Version.Id <$> versions s.
Proof.
  intros (_ & Hv & _). induction Hv as [|w w' l l' (Hid & _) _ IH]; [done|].
  rewrite !fmap_cons. by f_equal.
Qed.



(** [AddTasks] comes first: either the patch is absent and nothing happens, or
    the patch lists the requested names from then on. *)
Lemma Patch_AddTasks_inv (p : Patch.t) (names : list string) (s s' : Store) r :
  Patch_AddTasks p names s = (s', r) →
  (r = Ok (Patch.with_Tasks p (addToSet (Patch.Tasks p) names)) ∧
   patchHasTasks (Patch.Id p) names s' ∧ grows s s') ∨
  (r = Err (DocumentNotFound (Patch.Id p)) ∧ (Patch.Id p ∉ Patch.Id <$> patches s) ∧ s' = s).
Proof.
  intros Hrun. pose proof (Patch_AddTasks_grows _ _ _ _ _ Hrun) as Hg.
  unfold Patch_AddTasks in Hrun.
  apply bind_inv in Hrun as [(e & Hupd & ->)|([] & s1 & Hupd & [= Hs <-])].
  - apply UpdatePatchDocument_inv in Hupd as [([=] & _)|([= ->] & ? & ->)]. by right.
  - subst s1. left. split; [done|]. split; [|done].
    apply UpdatePatchDocument_inv in Hupd as [(_ & Hin & ->)|([=] & _)].
    split; [by rewrite (grows_patch_ids _ _ Hg)|]. simpl.
    intros q' (q & Hq & ->)%elem_of_updateWhere Hid t Ht.
    case_bool_decide; [|congruence]. simpl. by apply addToSet_elem.
Qed.

Lemma Patch_AddBuildVariants_inv (p : Patch.t) (names : list string) (s s' : Store) r :
  Patch_AddBuildVariants p names s = (s', r) →
  (r = Ok (Patch.with_BuildVariants p (addToSet (Patch.BuildVariants p) names)) ∧
   patchHasVariants (Patch.Id p) names s' ∧ grows s s') ∨
  (r = Err (DocumentNotFound (Patch.Id p)) ∧ (Patch.Id p ∉ Patch.Id <$> patches s) ∧ s' = s).
Proof.
  intros Hrun. pose proof (Patch_AddBuildVariants_grows _ _ _ _ _ Hrun) as Hg.
  unfold Patch_AddBuildVariants in Hrun.
  apply bind_inv in Hrun as [(e & Hupd & ->)|([] & s1 & Hupd & [= Hs <-])].
  - apply UpdatePatchDocument_inv in Hupd as [([=] & _)|([= ->] & ? & ->)]. by right.
  - subst s1. left. split; [done|]. split; [|done].
    apply UpdatePatchDocument_inv in Hupd as [(_ & Hin & ->)|([=] & _)].
    split; [by rewrite (grows_patch_ids _ _ Hg)|]. simpl.
    intros q' (q & Hq & ->)%elem_of_updateWhere Hid t Ht.
    case_bool_decide; [|congruence]. simpl. by apply addToSet_elem.
Qed.
















(** ** Repeating an extension *)





(** ** Finalized patches and the handler *)

Lemma Patch_SetDescription_ok (p p' : Patch.t) (desc : string) (s s' : Store) :
  Patch_SetDescription p desc s = (s', Ok p') → p' = Patch.with_Description p desc.
Proof.
  unfold Patch_SetDescription. by intros ([] & s1 & _ & [= _ <-])%bind_ok.
Qed.

Lemma orRespond_inv {E E' A} (f : E → E') (m : Db E A) (s s' : Store) r :
  orRespond f m s = (s', r) →
  (∃ a, m s = (s', Ok a) ∧ r = Ok a) ∨ (∃ e, m s = (s', Err e) ∧ r = Err (f e)).
Proof.
  unfold orRespond. destruct (m s) as [s1 [a|e]]; intros [= <- <-]; eauto.
Qed.

(** ** The handler, step by step *)

Lemma FindPatchById_run (id : string) (s : Store) :
  FindPatchById id s =
  (s, match persistedPatch id s with
      | Some p => Ok p
      | None => Err (DocumentNotFound id)
      end).
Proof.
  unfold FindPatchById, persistedPatch, mbind, Db_bind, get. simpl.
  by destruct (List.find _ _).
Qed.

Lemma persistedPatch_elem (id : string) (s : Store) (q : Patch.t) :
  persistedPatch id s = Some q → q ∈ patches s ∧ Patch.Id q = id.
Proof.
  intros [Hin Hid%bool_decide_eq_true]%find_some. split; [|done].
  by apply list_elem_of_In.
Qed.

Lemma afterLoggedError_inv (logged : option response) (m : Db response response)
    (s s' : Store) r :
  afterLoggedError logged m s = (s', r) →
  ∃ r0, m s = (s', r0) ∧ r = relabel logged r0.
Proof.
  unfold afterLoggedError. destruct (m s) as [s1 r0]. intros [= <- <-]. by eexists.
Qed.

(** The steps of [schedulePatch] before the body is decoded. *)
Lemma schedulePatch_run_with_inv Include (env : Env) (projCtx : projectContext.t)
    (canEdit : bool) (body : option (list VariantTasks.t)) (s s' : Store) r :
  schedulePatch_run_with Include env projCtx canEdit body s = (s', r) →
  (projectContext.Patch projCtx = None ∧ s' = s ∧ r = Err StatusNotFound) ∨
  ∃ ctxPatch,
    projectContext.Patch projCtx = Some ctxPatch ∧
    ((canEdit = false ∧ s' = s ∧ r = Err StatusUnauthorized) ∨
     (canEdit = true ∧ persistedPatch (Patch.Id ctxPatch) s = None ∧ s' = s ∧
      r = Err (StatusInternalServerError "error loading patch"
                 (DocumentNotFound (Patch.Id ctxPatch)))) ∨
     ∃ p r0,
       canEdit = true ∧ persistedPatch (Patch.Id ctxPatch) s = Some p ∧
       schedulePatch_update Include env projCtx p
         (default (yamlPartial env (Patch.PatchedConfig p))
            (yamlUnmarshal env (Patch.PatchedConfig p))) body s
       = (s', r0) ∧
       r = relabel
             (match yamlUnmarshal env (Patch.PatchedConfig p) with
              | Some _ => None
              | None => Some (StatusInternalServerError
                                "Error unmarshaling project config" ConfigUnmarshalError)
              end) r0).
Proof.
  unfold schedulePatch_run_with.
  destruct (projectContext.Patch projCtx) as [ctxPatch|]; simpl;
    [|intros [= <- <-]; by left].
  erewrite bind_run by reflexivity. intros Hrun. right. exists ctxPatch.
  split; [done|]. revert Hrun.
  destruct canEdit; simpl; [|intros [= <- <-]; by left].
  erewrite bind_run by reflexivity.
  intros [(e & Hfind & ->)|(p & s1 & Hfind & Hrun)]%bind_inv.
  - right. left.
    apply orRespond_inv in Hfind as [(? & _ & [=])|(e' & Hfind & [= ->])].
    rewrite FindPatchById_run in Hfind.
    destruct (persistedPatch _ _); [done|]. by injection Hfind as <- <-.
  - right. right.
    apply orRespond_inv in Hfind as [(? & Hfind & [= <-])|(? & _ & [=])].
    rewrite FindPatchById_run in Hfind.
    destruct (persistedPatch _ _) as [q|]; [injection Hfind as <- ->|done].
    apply afterLoggedError_inv in Hrun as (r0 & Hrun & ->). by exists p, r0.
Qed.

Lemma schedulePatch_with_unfold Include env projCtx canEdit body (s s' : Store) resp :
  schedulePatch_with Include env projCtx canEdit body s = (s', resp) ↔
  ∃ r, schedulePatch_run_with Include env projCtx canEdit body s = (s', r) ∧
       answerOf r = resp.
Proof.
  unfold schedulePatch_with.
  destruct (schedulePatch_run_with Include env projCtx canEdit body s) as [s1 [a|a]];
    split.
  - intros [= <- <-]. by eexists.
  - by intros (r & [= <- <-] & <-).
  - intros [= <- <-]. by eexists.
  - by intros (r & [= <- <-] & <-).
Qed.

Lemma schedulePatch_unfold env projCtx canEdit body (s s' : Store) resp :
  schedulePatch env projCtx canEdit body s = (s', resp) ↔
  ∃ r, schedulePatch_run env projCtx canEdit body s = (s', r) ∧ answerOf r = resp.
Proof. apply schedulePatch_with_unfold. Qed.

(** On a finalized patch, the handler only runs additive steps. *)
Lemma schedulePatch_update_grows Include (env : Env) (projCtx : projectContext.t)
    (p : Patch.t) (project : Project.t) (body : option (list VariantTasks.t)) :
  Patch.Version p ≠ "" →
  preserves grows (schedulePatch_update Include env projCtx p project body).
Proof.
  intros Hfinal. unfold schedulePatch_update.
  apply (preserves_bind grows); [apply (preserves_fromOption grows)|]. intros vts.
  intros s s' r [(e & Hs & _)|(p' & s1 & Hs & Hrun)]%bind_inv.
  { apply orRespond_inv in Hs as [(? & Hs & _)|(? & Hs & _)];
      by eapply Patch_SetDescription_grows. }
  apply orRespond_inv in Hs as [(? & Hs & [= <-])|(? & _ & [=])].
  pose proof (Patch_SetDescription_grows _ _ _ _ _ Hs) as Hg.
  apply Patch_SetDescription_ok in Hs as ->.
  etrans; [exact Hg|]. revert Hrun. simpl.
  rewrite decide_True by done.
  generalize s1 s' r. clear.
  apply (preserves_bind grows); [apply (preserves_fromOption grows)|]. intros version.
  apply (preserves_bind grows).
  { apply (preserves_orRespond grows), AddNewTasksForPatch_grows. }
  intros p'. apply (preserves_bind grows); [|intros _; apply (preserves_ret grows)].
  apply (preserves_orRespond grows), AddNewBuildsForPatch_grows.
Qed.

(** When the patch document that the handler reloads is finalized, the
    handler only runs additive steps. *)
Lemma schedulePatch_run_with_grows Include (env : Env) (projCtx : projectContext.t)
    (canEdit : bool) (body : option (list VariantTasks.t)) (ctxPatch : Patch.t)
    (s s' : Store) r :
  projectContext.Patch projCtx = Some ctxPatch →
  (∀ q, persistedPatch (Patch.Id ctxPatch) s = Some q → Patch.Version q ≠ "") →
  schedulePatch_run_with Include env projCtx canEdit body s = (s', r) → grows s s'.
Proof.
  intros Hctx Hfinal
    [(_ & -> & _)|(c & Hc & [(_ & -> & _)|[(_ & _ & -> & _)|
                                              (p & r0 & _ & Hp & Hrun & _)]])]%schedulePatch_run_with_inv;
    try reflexivity.
  rewrite Hctx in Hc. injection Hc as <-.
  eapply schedulePatch_update_grows; [|exact Hrun]. by apply Hfinal.
Qed.

Lemma schedulePatch_run_persisted_grows (env : Env) (projCtx : projectContext.t)
    (canEdit : bool) (body : option (list VariantTasks.t)) (ctxPatch : Patch.t)
    (s s' : Store) r :
  projectContext.Patch projCtx = Some ctxPatch →
  (∀ q, persistedPatch (Patch.Id ctxPatch) s = Some q → Patch.Version q ≠ "") →
  schedulePatch_run env projCtx canEdit body s = (s', r) → grows s s'.
Proof. apply schedulePatch_run_with_grows. Qed.

(** On a patch persisted as finalized, the handler only runs additive
    steps. *)
Lemma schedulePatch_run_finalized_grows (env : Env) (projCtx : projectContext.t)
    (canEdit : bool) (body : option (list VariantTasks.t)) (ctxPatch : Patch.t) :
  projectContext.Patch projCtx = Some ctxPatch →
  ∀ s s' r,
    (∀ q, q ∈ patches s → Patch.Id q = Patch.Id ctxPatch → Patch.Version q ≠ "") →
    schedulePatch_run env projCtx canEdit body s = (s', r) → grows s s'.
Proof.
  intros Hctx s s' r Hfinal. apply (schedulePatch_run_persisted_grows _ _ _ _ ctxPatch); [done|].
  intros q [Hq Hid]%persistedPatch_elem. by apply Hfinal.
Qed.

(** ** The errors that are raised *)

Section outcomes.
Context {E : Type} (P : E → Prop).

Lemma outcomes_ret {A} (Q : A → Prop) (a : A) : Q a → outcomes P Q (mret a).
Proof. by intros Ha s s' r [= _ <-]. Qed.

Lemma outcomes_fail {A} (Q : A → Prop) (e : E) : P e → outcomes P Q (fail e).
Proof. by intros He s s' r [= _ <-]. Qed.

Lemma outcomes_fromOption {A} (e : E) (o : option A) :
  P e → outcomes P (λ _, True) (fromOption e o).
Proof. intros He s s' r [_ ->]%fromOption_inv. by destruct o. Qed.

Lemma outcomes_bind {A B} (Q : A → Prop) (Q' : B → Prop) (m : Db E A) (k : A → Db E B) :
  outcomes P Q m → (∀ a, Q a → outcomes P Q' (k a)) → outcomes P Q' (m ≫= k).
Proof.
  intros Hm Hk s s' r [(e & Hs & ->)|(a & s1 & Hs & Hr)]%bind_inv.
  - apply (Hm _ _ _ Hs).
  - apply (Hk a (Hm _ _ _ Hs) _ _ _ Hr).
Qed.

Lemma outcomes_foldM {A S} (f : S → A → Db E S) (acc : S) (l : list A) :
  (∀ acc x, outcomes P (λ _, True) (f acc x)) → outcomes P (λ _, True) (foldM f acc l).
Proof.
  intros Hf. revert acc. induction l as [|x l IH]; intros acc; simpl.
  - by apply outcomes_ret.
  - eapply (outcomes_bind _ (λ _, True)); [apply Hf|]. intros acc' _. apply IH.
Qed.

Lemma outcomes_forM_ {A B} (f : A → Db E B) (l : list A) :
  (∀ x, outcomes P (λ _, True) (f x)) → outcomes P (λ _, True) (forM_ f l).
Proof.
  intros Hf. apply outcomes_foldM. intros _ x.
  eapply (outcomes_bind _ (λ _, True)); [apply Hf|]. intros _ _. by apply outcomes_ret.
Qed.

End outcomes.

Lemma outcomes_orRespond {A} (ctx : string) (m : Db error A) :
  outcomes raised (λ _, True) m →
  outcomes answered (λ _, True) (orRespond (StatusInternalServerError ctx) m).
Proof.
  intros Hm s s' r [(a & _ & ->)|(e & Hs & ->)]%orRespond_inv; [done|].
  apply (Hm _ _ _ Hs).
Qed.

Lemma UpdatePatchDocument_raises id f : raises (UpdatePatchDocument id f).
Proof. by intros s s' r [(-> & _)|(-> & _)]%UpdatePatchDocument_inv. Qed.

Lemma InsertVersion_raises v : raises (InsertVersion v).
Proof. by intros s s' r [(-> & _)|(-> & _)]%InsertVersion_inv. Qed.

Lemma UpdateVersionAppendBuilds_raises id ids sts :
  raises (UpdateVersionAppendBuilds id ids sts).
Proof. by intros s s' r [(-> & _)|(-> & _)]%UpdateVersionAppendBuilds_inv. Qed.

Lemma InsertBuild_raises b : raises (InsertBuild b).
Proof. by intros s s' r [(-> & _)|(-> & _)]%InsertBuild_inv. Qed.

Lemma UpdateBuildAppendTasks_raises id ids : raises (UpdateBuildAppendTasks id ids).
Proof. by intros s s' r [(-> & _)|(-> & _)]%UpdateBuildAppendTasks_inv. Qed.

Lemma InsertTasks_raises ts : raises (InsertTasks ts).
Proof.
  apply outcomes_forM_. by intros t s s' r [(-> & _)|(-> & _)]%InsertTask_inv.
Qed.

Lemma FindPatchById_raises id : raises (FindPatchById id).
Proof. by intros s s' r [_ [(? & -> & _)| ->]]%FindPatchById_inv. Qed.

Lemma validateTasks_raises project variant taskNames :
  raises (validateTasks project variant taskNames).
Proof.
  unfold validateTasks. eapply (outcomes_bind _ (λ _, True)); [by apply outcomes_fromOption|].
  intros bv _. apply outcomes_forM_. intros t.
  destruct (SliceContains _ _); [by apply outcomes_ret|by apply outcomes_fail].
Qed.

Ltac raises_step :=
  first
    [ by apply outcomes_ret
    | by apply outcomes_fail
    | by apply outcomes_fromOption
    | apply UpdatePatchDocument_raises | apply InsertVersion_raises
    | apply UpdateVersionAppendBuilds_raises | apply InsertBuild_raises
    | apply UpdateBuildAppendTasks_raises | apply InsertTasks_raises
    | apply FindPatchById_raises | apply validateTasks_raises
    | by intros s s' r [= _ <-]
    | (eapply (outcomes_bind _ (λ _, True)); [|intros ? _]) ].

Lemma CreateBuildFromVersion_raises project v tt buildName activated taskNames :
  raises (CreateBuildFromVersion project v tt buildName activated taskNames).
Proof. unfold CreateBuildFromVersion. repeat raises_step. Qed.

Lemma AddTasksToBuild_raises b project v taskNames :
  raises (AddTasksToBuild b project v taskNames).
Proof. unfold AddTasksToBuild. repeat raises_step. Qed.

Lemma AddNewTasksForPatch_raises p v project taskNames :
  raises (AddNewTasksForPatch p v project taskNames).
Proof.
  unfold AddNewTasksForPatch, Patch_AddTasks.
  eapply (outcomes_bind _ (λ _, True)); [repeat raises_step|]. intros p' _.
  case_decide; [|raises_step].
  eapply (outcomes_bind _ (λ _, True)); [unfold FindBuildsByIds; repeat raises_step|]. intros bs _.
  eapply (outcomes_bind _ (λ _, True)); [|intros; raises_step].
  apply outcomes_forM_. intros b. apply AddTasksToBuild_raises.
Qed.

Lemma AddNewBuildsForPatch_raises p v project buildVariants :
  raises (AddNewBuildsForPatch p v project buildVariants).
Proof.
  unfold AddNewBuildsForPatch, Patch_AddBuildVariants.
  eapply (outcomes_bind _ (λ _, True)); [repeat raises_step|]. intros p' _.
  eapply (outcomes_bind _ (λ _, True)).
  - apply outcomes_foldM. intros [[ids sts] v'] bv.
    eapply (outcomes_bind _ (λ _, True)); [apply CreateBuildFromVersion_raises|].
    intros id _. by apply outcomes_ret.
  - intros [[ids sts] v'] _. repeat raises_step.
Qed.

Lemma FinalizePatch_raises env p : raises (FinalizePatch env p).
Proof.
  unfold FinalizePatch, Patch_SetActivated.
  do 5 (eapply (outcomes_bind _ (λ _, True)); [by apply outcomes_fromOption|intros ? _]).
  eapply (outcomes_bind _ (λ _, True)).
  - apply outcomes_foldM. intros v' vt.
    eapply (outcomes_bind _ (λ _, True)); [apply CreateBuildFromVersion_raises|].
    intros id _. by apply outcomes_ret.
  - intros v' _. repeat raises_step.
Qed.

Lemma errorFinalizing_answered (env : Env) (p : Patch.t) :
  outcomes answered (λ _, True) (orRespond errorFinalizing (FinalizePatch env p)).
Proof.
  intros s s' r [(a & _ & ->)|(e & Hs & ->)]%orRespond_inv; [done|].
  apply FinalizePatch_raises in Hs. by destruct e.
Qed.

Lemma schedulePatch_update_answers Include env projCtx p project body :
  outcomes answered answered (schedulePatch_update Include env projCtx p project body).
Proof.
  unfold schedulePatch_update.
  eapply (outcomes_bind _ (λ _, True)); [by apply outcomes_fromOption|]. intros vts _.
  eapply (outcomes_bind _ (λ _, True)).
  { apply outcomes_orRespond. unfold Patch_SetDescription. repeat raises_step. }
  intros p' _. case_decide.
  - eapply (outcomes_bind _ (λ _, True)); [by apply outcomes_fromOption|]. intros version _.
    eapply (outcomes_bind _ (λ _, True)); [apply outcomes_orRespond, AddNewTasksForPatch_raises|].
    intros p'' _.
    eapply (outcomes_bind _ (λ _, True)); [apply outcomes_orRespond, AddNewBuildsForPatch_raises|].
    intros _ _. by apply outcomes_ret.
  - eapply (outcomes_bind _ (λ _, True)).
    { apply outcomes_orRespond. unfold Patch_SetVariantsTasks. repeat raises_step. }
    intros p'' _.
    eapply (outcomes_bind _ (λ _, True)); [apply errorFinalizing_answered|].
    intros ver _. by apply outcomes_ret.
Qed.

Lemma schedulePatch_run_with_answers Include env projCtx canEdit body :
  outcomes answered answered (schedulePatch_run_with Include env projCtx canEdit body).
Proof.
  intros s s' r
    [(_ & _ & ->)|(c & _ & [(_ & _ & ->)|[(_ & _ & _ & ->)|
                                             (p & r0 & _ & _ & Hrun & ->)]])]%schedulePatch_run_with_inv;
    try done.
  apply schedulePatch_update_answers in Hrun.
  destruct (yamlUnmarshal env _); [done|]. simpl.
  destruct r0 as [a|e]; [done|]. by destruct e.
Qed.

Lemma schedulePatch_with_answers Include env projCtx canEdit body (s s' : Store) resp :
  schedulePatch_with Include env projCtx canEdit body s = (s', resp) → answered resp.
Proof.
  intros (r & Hrun%schedulePatch_run_with_answers & <-)%schedulePatch_with_unfold.
  by destruct r.
Qed.

Lemma schedulePatch_answers env projCtx canEdit body (s s' : Store) resp :
  schedulePatch env projCtx canEdit body s = (s', resp) → answered resp.
Proof. apply schedulePatch_with_answers. Qed.

(** C1 (amended): [FinalizePatch] never reads [p.Version]: its outcome and
    its writes are the same whatever the patch holds there, and it never
    fails with [AlreadyFinalized]. The guard is in
    [schedulePatch]: when the patch of the request is persisted with a
    non-empty [Version], the handler runs the extension only, so no version
    document is created and no patch changes its [Version]. *)
Theorem Finalize_guard_is_in_schedulePatch (env : Env) :
  (∀ p version activated s,
     FinalizePatch env (Patch.with_Version p version activated) s = FinalizePatch env p s) ∧
  (∀ projCtx canEdit body ctxPatch s s' resp,
     projectContext.Patch projCtx = Some ctxPatch →
     (∀ q, q ∈ patches s → Patch.Id q = Patch.Id ctxPatch → Patch.Version q ≠ "") →
     schedulePatch env projCtx canEdit body s = (s', resp) →
     Version.Id <$> versions s' = Version.Id <$> versions s ∧
     Forall2 (λ q q', Patch.Id q' = Patch.Id q ∧ Patch.Version q' = Patch.Version q)
       (patches s) (patches s')) ∧
  (∀ p s s' r, FinalizePatch env p s = (s', r) → r ≠ Err AlreadyFinalized).
Proof.
  split; [done|]. split; [|by intros p s s' r Hrun%FinalizePatch_raises ->].
  intros projCtx canEdit body ctxPatch s s' resp Hctx Hfinal
    (r & Hrun & _)%schedulePatch_unfold.
  assert (grows s s') as Hg by by eapply schedulePatch_run_finalized_grows.
  split; [by apply grows_version_ids|].
  destruct Hg as (Hp & _). eapply Forall2_impl; [done|].
  by intros q q' (? & ? & _).
Qed.




(** ** The scenarios *)

Lemma finalizedStore_scheduled :
  schedulePatch exampleEnv (loadContext "p1" pendingStore) true
    (Some [VariantTasks.mk "linux" ["compile"]]) pendingStore
  = (finalizedStore, StatusOK "p1_0").
Proof. vm_compute. reflexivity. Qed.

(** C1, counterexample: [FinalizePatch] on a finalized patch, reconfigured
    for [osx], fails with a [StoreConflict] on the version id, after it has
    written a build and a task for [osx]. *)
Lemma FinalizePatch_on_finalized_patch_writes :
  Patch.Version reconfiguredPatch ≠ "" ∧
  ∃ s', FinalizePatch exampleEnv reconfiguredPatch finalizedStore
          = (s', Err (StoreConflict "p1_0")) ∧
        Build.Id <$> builds s' = ["p1_0_linux"; "p1_0_osx"] ∧
        Task.Id <$> tasks s' = ["p1_0_linux_compile"; "p1_0_osx_compile"].
Proof.
  split; [discriminate|]. eexists. split; [vm_compute; reflexivity|]. by split.
Qed.

(** C1, the theorem at the finalized store: a request for [test] on [linux]
    creates no version. *)
Lemma Finalize_guard_is_in_schedulePatch_witness :
  Version.Id <$> versions
    (schedulePatch exampleEnv (loadContext "p1" finalizedStore) true
       (Some [VariantTasks.mk "linux" ["test"]]) finalizedStore).1
  = ["p1_0"].
Proof.
  destruct (Finalize_guard_is_in_schedulePatch exampleEnv) as (_ & Hguard & _).
  refine (proj1 (Hguard (loadContext "p1" finalizedStore) true
                   (Some [VariantTasks.mk "linux" ["test"]]) finalizedPatch
                   finalizedStore _ _ _ _ _)).
  - reflexivity.
  - intros q Hq _. apply list_elem_of_singleton in Hq as ->. discriminate.
  - apply surjective_pairing.
Defined.

(** C2, counterexample: the closure of the pairs of the patch has the
    variants [linux] and [osx], and [FinalizePatch] creates the build of
    [linux] only. *)
Lemma FinalizePatch_omits_closure_variant :
  variantsOf (IncludePatchDependencies exampleProject
                (VariantTasksToTVPairs (Patch.VariantsTasks lintPatch)))
    = ["linux"; "osx"] ∧
  ∃ s' v, FinalizePatch exampleEnv lintPatch pendingStore = (s', Ok v) ∧
          Version.BuildIds v = ["p1_0_linux"] ∧
          Build.BuildVariant <$> builds s' = ["linux"].
Proof.
  split; [vm_compute; reflexivity|].
  eexists _, _. split; [vm_compute; reflexivity|]. by split.
Qed.

(** C2, the theorem at the same patch. *)
Lemma FinalizePatch_materializes_VariantsTasks_witness :
  ∃ s' v, FinalizePatch exampleEnv lintPatch pendingStore = (s', Ok v) ∧
          Version.Id v = "p1_0" ∧
          Version.BuildIds v = ["p1_0_linux"].
Proof.
  eexists _, _.
  refine ((λ Hrun,
             let H := FinalizePatch_materializes_VariantsTasks exampleEnv lintPatch
                        pendingStore _ _ Hrun in
             conj Hrun (conj (proj1 H) (proj1 (proj2 H)))) _).
  vm_compute. reflexivity.
Defined.






(** C6, the theorem at the seed (linux, test). *)
Lemma IncludePatchDependencies_closure_witness :
  TVPair.mk "linux" "compile"
    ∈ IncludePatchDependencies exampleProject [TVPair.mk "linux" "test"].
Proof.
  refine (proj2 (IncludePatchDependencies_closure exampleProject
                   [TVPair.mk "linux" "test"])
            (TVPair.mk "linux" "test")
            (TaskDef.mk "test" None [TaskRef.mk "compile" ""])
            (TaskRef.mk "compile" "") _ _ _).
  - vm_compute. left.
  - reflexivity.
  - left.
Defined.

(** C7, the theorem at the extension of the finalized store for
    (linux, test): the task of [compile] stays at its position. *)
Lemma Extend_additive_witness :
  tasks (Extend finalizedPatch finalizedVersion exampleProject
           [TVPair.mk "linux" "test"] finalizedStore).1 !! 0
  = Some (Task.mk "p1_0_linux_compile" "p1_0_linux" "p1_0" "linux" "compile" [] true
            "undispatched").
Proof.
  refine (proj1 (proj2 (Extend_additive finalizedPatch finalizedVersion exampleProject
                          [TVPair.mk "linux" "test"] finalizedStore _ _
                          (surjective_pairing _))) 0 _ _).
  reflexivity.
Defined.



(** * Further properties *)

(** ** The two conversions, composed *)

Lemma TVPairsToVariantTasks_parts
    (range : gmap string VariantTasks.t → list (string * VariantTasks.t))
    (in_ : list TVPair.t) :
  (∀ m, range m ≡ₚ map_to_list m) →
  ∃ real, TVPairsToVariantTasks range in_
          = replicate (length (variantsOf in_)) VariantTasks.zero ++ real ∧
          real ≡ₚ groupings in_.
Proof.
  intros Hrange. exists (range (vtMap_of in_)).*2. split.
  - unfold TVPairsToVariantTasks. simpl. by rewrite foldl_snoc_snd, vtMap_of_size.
  - rewrite Hrange, vtMap_of_to_list. unfold groupings. by rewrite <- list_fmap_compose.
Qed.

Lemma VariantTasksToTVPairs_cons (vt : VariantTasks.t) (vts : list VariantTasks.t) :
  VariantTasksToTVPairs (vt :: vts)
  = (TVPair.mk (VariantTasks.Variant vt) <$> VariantTasks.Tasks vt)
    ++ VariantTasksToTVPairs vts.
Proof.
  unfold VariantTasksToTVPairs. rewrite bind_cons. by f_equal.
Qed.

Lemma VariantTasksToTVPairs_zeros (n : nat) :
  VariantTasksToTVPairs (replicate n VariantTasks.zero) = [].
Proof.
  induction n as [|n IH]; [done|].
  by rewrite replicate_S, VariantTasksToTVPairs_cons, IH.
Qed.

Lemma VariantTasksToTVPairs_group (v : string) (l : list TVPair.t) :
  TVPair.mk v <$> tasksOf v l = filter (λ p, TVPair.Variant p = v) l.
Proof.
  unfold tasksOf. induction l as [|[v' t] l IH]; [done|].
  rewrite !filter_cons. simpl. case_decide as Hv; [|done].
  subst v'. rewrite !fmap_cons, IH. done.
Qed.

Lemma VariantTasksToTVPairs_groupings (vs : list string) (l : list TVPair.t) :
  VariantTasksToTVPairs ((λ v, VariantTasks.mk v (tasksOf v l)) <$> vs)
  = vs ≫= λ v, filter (λ p, TVPair.Variant p = v) l.
Proof.
  induction vs as [|v vs IH]; [done|].
  rewrite fmap_cons, VariantTasksToTVPairs_cons, bind_cons, IH. simpl.
  by rewrite VariantTasksToTVPairs_group.
Qed.

(** Grouping a list by the distinct values of a key loses no element and
    adds none. *)
Lemma bind_filter_Permutation (vs : list string) (l : list TVPair.t) :
  NoDup vs → (∀ p, p ∈ l → TVPair.Variant p ∈ vs) →
  vs ≫= (λ v, filter (λ p, TVPair.Variant p = v) l) ≡ₚ l.
Proof.
  intros Hnd. revert l. induction Hnd as [|v vs Hv Hnd IH]; intros l Hl.
  - destruct l as [|p l]; [done|]. specialize (Hl p ltac:(left)).
    by apply elem_of_nil in Hl.
  - rewrite bind_cons.
    etrans; [|apply (filter_app_complement (λ p, TVPair.Variant p = v) l)].
    apply Permutation_app_head.
    assert (vs ≫= (λ v', filter (λ p, TVPair.Variant p = v') l)
            = vs ≫= (λ v', filter (λ p, TVPair.Variant p = v')
                              (filter (λ p, ¬ TVPair.Variant p = v) l))) as ->.
    { apply Forall_bind_ext, Forall_forall. intros v' Hv'.
      rewrite list_filter_filter. apply filter_ext_elem_of. intros p _.
      split; [|tauto]. intros Hp. split; [done|]. congruence. }
    apply IH. intros p [Hne Hp]%list_elem_of_filter.
    specialize (Hl p Hp). by apply elem_of_cons in Hl as [?|?].
Qed.

Lemma variantsOf_covers (l : list TVPair.t) (p : TVPair.t) :
  p ∈ l → TVPair.Variant p ∈ variantsOf l.
Proof.
  intros Hp. unfold variantsOf. apply elem_of_remove_dups, list_elem_of_fmap. by exists p.
Qed.

(** X1: converting pairs to per-variant task lists and back gives the same
    pairs, regrouped by variant: the zero values that
    [TVPairsToVariantTasks] puts in front contribute no pair. *)
Theorem pairs_roundtrip
    (range : gmap string VariantTasks.t → list (string * VariantTasks.t))
    (Hrange : ∀ m, range m ≡ₚ map_to_list m)
    (in_ : list TVPair.t) :
  VariantTasksToTVPairs (TVPairsToVariantTasks range in_) ≡ₚ in_.
Proof.
  destruct (TVPairsToVariantTasks_parts range in_ Hrange) as (real & -> & Hreal).
  unfold VariantTasksToTVPairs at 1. rewrite bind_app.
  fold (VariantTasksToTVPairs (replicate (length (variantsOf in_)) VariantTasks.zero)).
  rewrite VariantTasksToTVPairs_zeros, app_nil_l, Hreal.
  fold (VariantTasksToTVPairs (groupings in_)).
  unfold groupings. rewrite VariantTasksToTVPairs_groupings.
  apply bind_filter_Permutation; [apply NoDup_remove_dups|apply variantsOf_covers].
Qed.

Lemma pairs_roundtrip_witness :
  VariantTasksToTVPairs
    (TVPairsToVariantTasks map_to_list
       [TVPair.mk "linux" "compile"; TVPair.mk "osx" "compile"; TVPair.mk "linux" "test"])
  ≡ₚ [TVPair.mk "linux" "compile"; TVPair.mk "osx" "compile"; TVPair.mk "linux" "test"].
Proof. exact (pairs_roundtrip map_to_list (λ m, reflexivity _) _). Defined.

Lemma tasksOf_app (v : string) (l1 l2 : list TVPair.t) :
  tasksOf v (l1 ++ l2) = tasksOf v l1 ++ tasksOf v l2.
Proof. unfold tasksOf. by rewrite filter_app, fmap_app. Qed.

Lemma tasksOf_entry (v v' : string) (ts : list string) :
  tasksOf v (TVPair.mk v' <$> ts) = if decide (v' = v) then ts else [].
Proof.
  unfold tasksOf. induction ts as [|t ts IH]; [by case_decide|].
  rewrite fmap_cons, filter_cons. simpl.
  case_decide; [by rewrite fmap_cons, IH|done].
Qed.

Lemma tasksOf_VariantTasksToTVPairs (v : string) (vts : list VariantTasks.t) :
  tasksOf v (VariantTasksToTVPairs vts)
  = filter (λ vt, VariantTasks.Variant vt = v) vts ≫= VariantTasks.Tasks.
Proof.
  induction vts as [|vt vts IH]; [done|].
  rewrite VariantTasksToTVPairs_cons, tasksOf_app, tasksOf_entry, IH, filter_cons.
  case_decide; [by rewrite bind_cons|done].
Qed.

Lemma elem_of_variants_VariantTasksToTVPairs (v : string) (vts : list VariantTasks.t) :
  v ∈ TVPair.Variant <$> VariantTasksToTVPairs vts ↔
  ∃ vt, vt ∈ vts ∧ VariantTasks.Variant vt = v ∧ VariantTasks.Tasks vt ≠ [].
Proof.
  induction vts as [|vt vts IH].
  { split; [by intros ?%elem_of_nil|]. by intros (? & ?%elem_of_nil & _). }
  rewrite VariantTasksToTVPairs_cons, fmap_app, elem_of_app, IH.
  rewrite <- list_fmap_compose. split.
  - intros [(t & -> & Ht)%list_elem_of_fmap|(vt' & ? & ? & ?)].
    + exists vt. split_and!; [left|done|]. intros Hnil. rewrite Hnil in Ht.
      by apply elem_of_nil in Ht.
    + exists vt'. split_and!; [by right|done..].
  - intros (vt' & [->|Hin]%elem_of_cons & <- & Hne).
    + left. destruct (VariantTasks.Tasks vt) as [|t ts]; [done|]. left.
    + right. by exists vt'.
Qed.

Lemma filter_unique_variant (vts : list VariantTasks.t) (vt : VariantTasks.t) :
  NoDup (VariantTasks.Variant <$> vts) → vt ∈ vts →
  filter (λ x, VariantTasks.Variant x = VariantTasks.Variant vt) vts = [vt].
Proof.
  induction vts as [|x vts IH]; [by intros _ ?%elem_of_nil|].
  rewrite fmap_cons, NoDup_cons. intros [Hx Hnd] [->|Hin]%elem_of_cons.
  - rewrite filter_cons_True by done. f_equal.
    clear IH Hnd. induction vts as [|y vts IH]; [done|].
    rewrite fmap_cons, not_elem_of_cons in Hx. destruct Hx as [Hne Hx].
    rewrite filter_cons_False by done. by apply IH.
  - rewrite filter_cons_False; [by apply IH|].
    intros Heq. apply Hx. rewrite Heq. apply list_elem_of_fmap. by exists vt.
Qed.

Lemma groupings_VariantTasksToTVPairs (vts : list VariantTasks.t) :
  NoDup (VariantTasks.Variant <$> vts) →
  Forall (λ vt, VariantTasks.Tasks vt ≠ []) vts →
  groupings (VariantTasksToTVPairs vts) ≡ₚ vts.
Proof.
  intros Hnd Hne. apply NoDup_Permutation.
  - apply NoDup_fmap_2_strong; [|apply NoDup_remove_dups]. by intros ?? _ _ [= ->].
  - by eapply NoDup_fmap_1.
  - assert (∀ vt, vt ∈ vts →
              VariantTasks.mk (VariantTasks.Variant vt)
                (tasksOf (VariantTasks.Variant vt) (VariantTasksToTVPairs vts)) = vt) as Hgroup.
    { intros vt Hvt. rewrite tasksOf_VariantTasksToTVPairs, filter_unique_variant by done.
      rewrite bind_singleton. by destruct vt. }
    intros x. unfold groupings, variantsOf. rewrite list_elem_of_fmap. split.
    + intros (v & -> & Hv). rewrite elem_of_remove_dups in Hv.
      apply elem_of_variants_VariantTasksToTVPairs in Hv as (vt & Hvt & <- & _).
      by rewrite Hgroup.
    + intros Hx. exists (VariantTasks.Variant x). split; [by rewrite Hgroup|].
      rewrite elem_of_remove_dups. apply elem_of_variants_VariantTasksToTVPairs.
      exists x. split_and!; [done..|]. by eapply Forall_forall in Hne.
Qed.

(** X2: for per-variant task lists with distinct variants and no empty task
    list, converting to pairs and back gives as many zero values as there are
    entries, followed by the entries themselves, in the order in which the map
    is visited. *)
Theorem variant_tasks_roundtrip
    (range : gmap string VariantTasks.t → list (string * VariantTasks.t))
    (Hrange : ∀ m, range m ≡ₚ map_to_list m)
    (vts : list VariantTasks.t) :
  NoDup (VariantTasks.Variant <$> vts) →
  Forall (λ vt, VariantTasks.Tasks vt ≠ []) vts →
  let back := TVPairsToVariantTasks range (VariantTasksToTVPairs vts) in
  take (length vts) back = replicate (length vts) VariantTasks.zero ∧
  drop (length vts) back ≡ₚ vts.
Proof.
  intros Hnd Hne back.
  pose proof (groupings_VariantTasksToTVPairs vts Hnd Hne) as Hperm.
  destruct (TVPairsToVariantTasks_parts range (VariantTasksToTVPairs vts) Hrange)
    as (real & Hback & Hreal).
  assert (length (variantsOf (VariantTasksToTVPairs vts)) = length vts) as Hlen.
  { rewrite <- (Permutation_length Hperm). unfold groupings. by rewrite length_fmap. }
  unfold back. rewrite Hback, Hlen. split.
  - by rewrite take_app_length' by by rewrite length_replicate.
  - rewrite drop_app_length' by by rewrite length_replicate. by rewrite Hreal.
Qed.

Lemma variant_tasks_roundtrip_witness :
  drop 2 (TVPairsToVariantTasks map_to_list
            (VariantTasksToTVPairs
               [VariantTasks.mk "linux" ["compile"; "test"];
                VariantTasks.mk "osx" ["compile"]]))
  ≡ₚ [VariantTasks.mk "linux" ["compile"; "test"]; VariantTasks.mk "osx" ["compile"]].
Proof.
  refine (proj2 (variant_tasks_roundtrip map_to_list (λ m, reflexivity _)
                   [VariantTasks.mk "linux" ["compile"; "test"];
                    VariantTasks.mk "osx" ["compile"]] _ _)).
  - simpl. apply NoDup_cons. split; [|apply NoDup_singleton].
    by intros [=]%list_elem_of_singleton.
  - repeat constructor; discriminate.
Defined.

(** ** Failures of [FinalizePatch] and of the extension *)

#[local] Instance creates_refl : Reflexive creates.
Proof. by intros s. Qed.
#[local] Instance creates_trans : Transitive creates.
Proof.
  intros s1 s2 s3 (? & ? & ? & ?) (? & ? & ? & ?).
  split_and!; [congruence..|by etrans|by etrans].
Qed.

Lemma InsertBuild_creates b : preserves creates (InsertBuild b).
Proof.
  intros s s' r [(_ & _ & ->)|(_ & ->)]%InsertBuild_inv; [|done].
  split_and!; [done..|by apply prefix_app_r|done].
Qed.

Lemma InsertTasks_creates ts : preserves creates (InsertTasks ts).
Proof.
  apply (preserves_forM_ creates).
  intros t s s' r [(_ & _ & ->)|(_ & ->)]%InsertTask_inv; [|done].
  split_and!; [done..|by apply prefix_app_r].
Qed.

Lemma CreateBuildFromVersion_creates project v tt buildName activated taskNames :
  preserves creates (CreateBuildFromVersion project v tt buildName activated taskNames).
Proof.
  unfold CreateBuildFromVersion.
  apply (preserves_bind creates); [apply (reads_preserves creates), validateTasks_reads|].
  intros _. apply (preserves_bind creates); [apply InsertBuild_creates|].
  intros _. apply (preserves_bind creates); [apply InsertTasks_creates|].
  intros _. apply (preserves_ret creates).
Qed.

Lemma validateTasks_store_error project variant taskNames :
  outcomes store_error (λ _, True) (validateTasks project variant taskNames).
Proof.
  unfold validateTasks. eapply (outcomes_bind _ (λ _, True)); [by apply outcomes_fromOption|].
  intros bv _. apply outcomes_forM_. intros t.
  destruct (SliceContains _ _); [by apply outcomes_ret|by apply outcomes_fail].
Qed.

Lemma CreateBuildFromVersion_store_error project v tt buildName activated taskNames :
  outcomes store_error (λ _, True)
    (CreateBuildFromVersion project v tt buildName activated taskNames).
Proof.
  unfold CreateBuildFromVersion.
  eapply (outcomes_bind _ (λ _, True)); [apply validateTasks_store_error|]. intros _ _.
  eapply (outcomes_bind _ (λ _, True)).
  { by intros s s' r [(-> & _)|(-> & _)]%InsertBuild_inv. }
  intros _ _. eapply (outcomes_bind _ (λ _, True)); [|intros; by apply outcomes_ret].
  apply outcomes_forM_. by intros t s s' r [(-> & _)|(-> & _)]%InsertTask_inv.
Qed.

(** The lookups of [FinalizePatch], one after the other. *)
Lemma FinalizePatch_lookups (env : Env) (p : Patch.t) (s : Store) :
  match yamlUnmarshal env (Patch.PatchedConfig p) with
  | None => FinalizePatch env p s = (s, Err ConfigUnmarshalError)
  | Some project =>
      match FindOneProjectRef env (Patch.Project p) with
      | None => FinalizePatch env p s = (s, Err ProjectRefError)
      | Some None => FinalizePatch env p s = (s, Err NilProjectRef)
      | Some (Some ref) =>
          match GetCommitEvent env (ProjectRef.Owner ref) (ProjectRef.Repo ref)
                  (Patch.Githash p) with
          | None => FinalizePatch env p s = (s, Err CommitFetchError)
          | Some None => FinalizePatch env p s = (s, Err CommitMissing)
          | Some (Some commit) => FinalizePatch_inputs env p = Some (project, commit)
          end
      end
  end.
Proof.
  unfold FinalizePatch_inputs, FinalizePatch.
  destruct (yamlUnmarshal env _) as [project|]; simpl; [|done].
  erewrite bind_run by reflexivity.
  destruct (FindOneProjectRef env _) as [[ref|]|]; simpl; [|done..].
  do 2 erewrite bind_run by reflexivity.
  by destruct (GetCommitEvent env _ _ _) as [[commit|]|].
Qed.

(** After its lookups, [FinalizePatch] fails only with the error of a step
    that creates or updates a document. *)
Lemma FinalizePatch_body_store_error (env : Env) (p : Patch.t) project commit :
  FinalizePatch_inputs env p = Some (project, commit) →
  outcomes store_error (λ _, True) (FinalizePatch env p).
Proof.
  unfold FinalizePatch_inputs, FinalizePatch, Patch_SetActivated.
  destruct (yamlUnmarshal env _) as [project'|]; [simpl|done].
  destruct (FindOneProjectRef env _) as [[ref|]|]; [simpl|done..].
  intros Hin.
  eapply (outcomes_bind _ (λ a, a = project')); [by intros ??? [= _ <-]|intros ? ->].
  eapply (outcomes_bind _ (λ a, a = Some ref)); [by intros ??? [= _ <-]|intros ? ->].
  eapply (outcomes_bind _ (λ a, a = ref)); [by intros ??? [= _ <-]|intros ? ->].
  destruct (GetCommitEvent env _ _ _) as [[commit'|]|]; [clear Hin|done..].
  eapply (outcomes_bind _ (λ a, a = Some commit')); [by intros ??? [= _ <-]|intros ? ->].
  eapply (outcomes_bind _ (λ _, True)); [by intros ??? [= _ <-]|intros ? _].
  eapply (outcomes_bind _ (λ _, True)).
  - apply outcomes_foldM. intros v' vt.
    eapply (outcomes_bind _ (λ _, True)); [apply CreateBuildFromVersion_store_error|].
    intros id _. by apply outcomes_ret.
  - intros v' _.
    eapply (outcomes_bind _ (λ _, True)).
    { by intros s s' r [(-> & _)|(-> & _)]%InsertVersion_inv. }
    intros _ _. eapply (outcomes_bind _ (λ _, True)); [|intros; by apply outcomes_ret].
    eapply (outcomes_bind _ (λ _, True)); [|intros; by apply outcomes_ret].
    by intros s s' r [(-> & _)|(-> & _)]%UpdatePatchDocument_inv.
Qed.

(** X3: [FinalizePatch] stops before its loop exactly when one of its
    lookups gives no result, and then it has written nothing: the store is
    the one it started from. It stops with one of its four early errors
    (configuration not decodable, project reference lookup failed, commit
    not fetched, commit nil) or with a panic: the code tests the error of
    [FindOneProjectRef] only, and panics on [projectRef.Owner] exactly when
    the configuration decodes and the lookup returns neither a reference
    nor an error. *)
Theorem FinalizePatch_early_errors (env : Env) (p : Patch.t) (s : Store) :
  (FinalizePatch_inputs env p = None →
   ∃ e, early_stop e ∧ FinalizePatch env p s = (s, Err e)) ∧
  (∀ s' e, FinalizePatch env p s = (s', Err e) → early_stop e →
           FinalizePatch_inputs env p = None ∧ s' = s) ∧
  (∀ s', FinalizePatch env p s = (s', Err NilProjectRef) ↔
         s' = s ∧ yamlUnmarshal env (Patch.PatchedConfig p) ≠ None ∧
         FindOneProjectRef env (Patch.Project p) = Some None).
Proof.
  pose proof (FinalizePatch_lookups env p s) as Hlook.
  assert (FinalizePatch_inputs env p = None →
          ∃ e, early_stop e ∧ FinalizePatch env p s = (s, Err e)) as Hnone.
  { intros Hin. revert Hlook.
    destruct (yamlUnmarshal env _) as [project|];
      [|exists ConfigUnmarshalError; split; [by left|done]].
    destruct (FindOneProjectRef env _) as [[ref|]|];
      [|exists NilProjectRef; split; [by right|done]
       |exists ProjectRefError; split; [by left|done]].
    destruct (GetCommitEvent env _ _ _) as [[commit|]|];
      [congruence
      |exists CommitMissing; split; [by left|done]
      |exists CommitFetchError; split; [by left|done]]. }
  split; [done|]. split.
  - intros s' e Hrun Hpre.
    destruct (FinalizePatch_inputs env p) as [[project commit]|] eqn:Hin.
    + pose proof (FinalizePatch_body_store_error env p _ _ Hin _ _ _ Hrun) as Hst.
      by destruct Hpre as [Hpre| ->]; [destruct e|].
    + split; [done|]. destruct (Hnone eq_refl) as (e' & _ & Hrun'). congruence.
  - intros s'. split.
    + intros Hrun. revert Hlook.
      destruct (yamlUnmarshal env _) as [project|]; [|congruence].
      destruct (FindOneProjectRef env _) as [[ref|]|];
        [|intros Hl; rewrite Hl in Hrun; by injection Hrun as <-|congruence].
      destruct (GetCommitEvent env _ _ _) as [[commit|]|]; [|congruence..].
      intros Hin.
      by pose proof (FinalizePatch_body_store_error env p _ _ Hin _ _ _ Hrun).
    + intros (-> & Hyaml & Href). revert Hlook. rewrite Href.
      by destruct (yamlUnmarshal env _).
Qed.

Lemma FinalizePatch_loop_creates project tt (vts : list VariantTasks.t) (v0 : Version.t) :
  preserves creates
    (foldM (λ patchVersion vt,
              buildId ← CreateBuildFromVersion project patchVersion tt
                          (VariantTasks.Variant vt) true (VariantTasks.Tasks vt);
              mret (Version.with_Builds patchVersion
                      (Version.BuildIds patchVersion ++ [buildId])
                      (Version.BuildVariants patchVersion ++
                         [BuildStatus.mk (VariantTasks.Variant vt) true buildId])))
       v0 vts).
Proof.
  apply (preserves_foldM creates). intros v vt.
  apply (preserves_bind creates); [apply CreateBuildFromVersion_creates|].
  intros id. apply (preserves_ret creates).
Qed.

(** X4: a failed [FinalizePatch] never marks the patch: the patch documents
    are as before. The version documents are as before too, with one
    exception: when the patch has no document in the store, the version is
    inserted before [SetActivated] fails, and stays. *)
Theorem FinalizePatch_failure_keeps_documents (env : Env) (p : Patch.t)
    (s s' : Store) (e : error) :
  FinalizePatch env p s = (s', Err e) →
  patches s' = patches s ∧
  (versions s' = versions s ∨
   e = DocumentNotFound (Patch.Id p) ∧ (Patch.Id p ∉ Patch.Id <$> patches s) ∧
   ∃ v, Version.Id v = Patch.Id p +:+ "_0" ∧ versions s' = versions s ++ [v]).
Proof.
  unfold FinalizePatch.
  intros [(e' & [-> _]%fromOption_inv & _)|(project & s1 & [-> _]%fromOption_inv & Hrun)]%bind_inv;
    [by auto|].
  apply bind_inv in Hrun
      as [(e' & [-> _]%fromOption_inv & _)|(ref & s1 & [-> _]%fromOption_inv & Hrun)];
    [by auto|].
  apply bind_inv in Hrun
      as [(e' & [-> _]%fromOption_inv & _)|(ref' & s1 & [-> _]%fromOption_inv & Hrun)];
    [by auto|].
  apply bind_inv in Hrun
      as [(e' & [-> _]%fromOption_inv & _)|(oc & s1 & [-> _]%fromOption_inv & Hrun)];
    [by auto|].
  apply bind_inv in Hrun
      as [(e' & [-> _]%fromOption_inv & _)|(commit & s1 & [-> _]%fromOption_inv & Hrun)];
    [by auto|].
  apply bind_inv in Hrun as [(e' & Hloop & _)|(v & s1 & Hloop & Hrun)].
  { apply FinalizePatch_loop_creates in Hloop as (? & ? & _). auto. }
  pose proof (FinalizePatch_loop_creates _ _ _ _ _ _ _ Hloop) as (Hp1 & Hv1 & _).
  assert (Version.Id v = Patch.Id p +:+ "_0") as Hvid.
  { by apply FinalizePatch_loop_ok in Hloop as [-> _]. }
  apply bind_inv in Hrun as [(e' & Hins & _)|([] & s2 & Hins & Hrun)].
  { apply InsertVersion_inv in Hins as [([=] & _)|(_ & ->)]. auto. }
  apply InsertVersion_inv in Hins as [(_ & _ & ->)|([=] & _)].
  unfold Patch_SetActivated in Hrun.
  apply bind_inv in Hrun as [(e' & Hupd & [= He'])|(q & s3 & _ & [= _ <-])].
  apply bind_inv in Hupd as [(e'' & Hupd & [= He''])|([] & s3 & _ & [=])].
  apply UpdatePatchDocument_inv in Hupd as [([=] & _)|([= He] & Hnot & ->)]. simpl in *.
  split; [done|]. right. rewrite Hp1 in Hnot.
  split_and!; [congruence|done|]. exists v. by rewrite Hv1.
Qed.

Lemma FinalizePatch_failure_keeps_documents_witness :
  ∃ s', FinalizePatch exampleEnv lintPatch (mkStore [] [] [] []) =
          (s', Err (DocumentNotFound "p1")) ∧
        patches s' = [] ∧
        (versions s' = [] ∨
         DocumentNotFound "p1" = DocumentNotFound (Patch.Id lintPatch) ∧
         (Patch.Id lintPatch ∉ Patch.Id <$> []) ∧
         ∃ v, Version.Id v = Patch.Id lintPatch +:+ "_0" ∧ versions s' = [] ++ [v]).
Proof.
  eexists.
  refine ((λ Hrun, conj Hrun
             (FinalizePatch_failure_keeps_documents exampleEnv lintPatch
                (mkStore [] [] [] []) _ _ Hrun)) _).
  vm_compute. reflexivity.
Defined.

Lemma AddNewBuildsForPatch_loop_creates project tt activated taskNames
    (vs : list string) (acc : list string * list BuildStatus.t * Version.t) :
  preserves creates
    (foldM (λ '(newBuildIds, newBuildStatuses, patchVersion) buildVariant,
              buildId ← CreateBuildFromVersion project patchVersion tt buildVariant
                          activated taskNames;
              mret (newBuildIds ++ [buildId],
                    newBuildStatuses ++ [BuildStatus.mk buildVariant activated buildId],
                    Version.with_Builds patchVersion
                      (Version.BuildIds patchVersion ++ [buildId])
                      (Version.BuildVariants patchVersion)))
       acc vs).
Proof.
  apply (preserves_foldM creates). intros [[ids sts] v] bv.
  apply (preserves_bind creates); [apply CreateBuildFromVersion_creates|].
  intros id. apply (preserves_ret creates).
Qed.

(** X5: when [AddNewBuildsForPatch] fails, no version document has changed:
    the builds that its loop created before the failure stay in the store,
    and the version lists none of them, because the version is updated only
    after the loop. *)
Theorem AddNewBuildsForPatch_failure_keeps_versions (p : Patch.t) (v : Version.t)
    (project : Project.t) (buildVariants : list string) (s s' : Store) (e : error) :
  AddNewBuildsForPatch p v project buildVariants s = (s', Err e) →
  versions s' = versions s ∧ builds s `prefix_of` builds s'.
Proof.
  unfold AddNewBuildsForPatch.
  intros [(e' & Hadd & _)|(p' & sa & Hadd & Hrun)]%bind_inv.
  { by apply Patch_AddBuildVariants_inv in Hadd as [([=] & _)|(_ & _ & ->)]. }
  assert (versions sa = versions s ∧ builds sa = builds s) as [<- <-].
  { unfold Patch_AddBuildVariants in Hadd.
    apply bind_ok in Hadd as ([] & sa' & Hupd & [= <- _]).
    by apply UpdatePatchDocument_inv in Hupd as [(_ & _ & ->)|([=] & _)]. }
  apply bind_inv in Hrun as [(e' & Hloop & _)|([[ids sts] v'] & sb & Hloop & Hrun)].
  { by apply AddNewBuildsForPatch_loop_creates in Hloop as (_ & ? & ? & _). }
  apply AddNewBuildsForPatch_loop_creates in Hloop as (_ & <- & ? & _).
  apply bind_inv in Hrun as [(e' & Hupd & _)|([] & sc & _ & [=])].
  by apply UpdateVersionAppendBuilds_inv in Hupd as [([=] & _)|(_ & _ & ->)].
Qed.

Lemma AddNewBuildsForPatch_failure_keeps_versions_witness :
  ∃ s', AddNewBuildsForPatch finalizedPatch finalizedVersion exampleProject
          ["osx"; "ghost"] finalizedStore = (s', Err (UnknownVariant "ghost")) ∧
        versions s' = versions finalizedStore ∧
        builds finalizedStore `prefix_of` builds s'.
Proof.
  eexists.
  refine ((λ Hrun, conj Hrun
             (AddNewBuildsForPatch_failure_keeps_versions finalizedPatch finalizedVersion
                exampleProject ["osx"; "ghost"] finalizedStore _ _ Hrun)) _).
  vm_compute. reflexivity.
Defined.

Lemma AddNewBuildsForPatch_loop_ok project tt activated taskNames (vs : list string)
    (ids0 ids : list string) (sts0 sts : list BuildStatus.t) (v0 v' : Version.t)
    (s s' : Store) :
  foldM (λ '(newBuildIds, newBuildStatuses, patchVersion) buildVariant,
           buildId ← CreateBuildFromVersion project patchVersion tt buildVariant
                       activated taskNames;
           mret (newBuildIds ++ [buildId],
                 newBuildStatuses ++ [BuildStatus.mk buildVariant activated buildId],
                 Version.with_Builds patchVersion
                   (Version.BuildIds patchVersion ++ [buildId])
                   (Version.BuildVariants patchVersion)))
        (ids0, sts0, v0) vs s = (s', Ok (ids, sts, v')) →
  let vid := Version.Id v0 in
  ids = ids0 ++ (BuildId vid <$> vs) ∧
  sts = sts0 ++ ((λ bv, BuildStatus.mk bv activated (BuildId vid bv)) <$> vs) ∧
  v' = Version.with_Builds v0 (Version.BuildIds v0 ++ (BuildId vid <$> vs))
         (Version.BuildVariants v0) ∧
  Build.BuildVariant <$> builds s' = (Build.BuildVariant <$> builds s) ++ vs.
Proof.
  revert ids0 sts0 v0 s. induction vs as [|bv vs IH]; intros ids0 sts0 v0 s; simpl.
  - intros [= <- <- <- <-]. rewrite !app_nil_r. by destruct v0.
  - intros ([[ids1 sts1] v1] & s1 & (id & s2 & Hcreate & [= Hs Hids Hsts Hv])%bind_ok & Hrest)%bind_ok.
    subst s2 ids1 sts1 v1.
    apply CreateBuildFromVersion_ok in Hcreate as [-> ->].
    apply IH in Hrest as (-> & -> & -> & ->). simpl.
    rewrite fmap_app. simpl. by rewrite <- !app_assoc.
Qed.

(** X6: what a successful [AddNewBuildsForPatch] leaves. The new variants are
    the requested ones that the patch struct does not list, in request order
    (a name requested twice counts twice). One build is created for each, the
    persisted version gets their ids and their statuses (activated as the
    patch is) appended, and the version struct that is returned gets the ids
    only: its [BuildVariants] are those of the struct that was passed in. *)
Theorem AddNewBuildsForPatch_result (p : Patch.t) (v v1 : Version.t)
    (project : Project.t) (buildVariants : list string) (s s' : Store) :
  AddNewBuildsForPatch p v project buildVariants s = (s', Ok v1) →
  let newVariants :=
    filter (λ bv, SliceContains (Patch.BuildVariants p) bv = false) buildVariants in
  let ids := BuildId (Version.Id v) <$> newVariants in
  let sts := (λ bv, BuildStatus.mk bv (Patch.Activated p) (BuildId (Version.Id v) bv))
               <$> newVariants in
  v1 = Version.with_Builds v (Version.BuildIds v ++ ids) (Version.BuildVariants v) ∧
  versions s' =
    updateWhere (λ w, bool_decide (Version.Id w = Version.Id v))
      (λ w, Version.with_Builds w (Version.BuildIds w ++ ids)
              (Version.BuildVariants w ++ sts))
      (versions s) ∧
  Build.BuildVariant <$> builds s' = (Build.BuildVariant <$> builds s) ++ newVariants.
Proof.
  unfold AddNewBuildsForPatch.
  intros (p' & sa & Hadd & ([[ids sts] v'] & sb & Hloop & Hrest)%bind_ok)%bind_ok.
  apply bind_ok in Hrest as ([] & sc & Hupd & [= <- <-]).
  assert (p' = Patch.with_BuildVariants p (addToSet (Patch.BuildVariants p) buildVariants) ∧
          versions sa = versions s ∧ builds sa = builds s) as (-> & <- & <-).
  { unfold Patch_AddBuildVariants in Hadd.
    apply bind_ok in Hadd as ([] & sa' & Hupd' & [= <- <-]).
    by apply UpdatePatchDocument_inv in Hupd' as [(_ & _ & ->)|([=] & _)]. }
  simpl in Hloop.
  pose proof (AddNewBuildsForPatch_loop_creates _ _ _ _ _ _ _ _ _ Hloop) as (_ & <- & _).
  apply AddNewBuildsForPatch_loop_ok in Hloop as (-> & -> & -> & <-). simpl in *.
  apply UpdateVersionAppendBuilds_inv in Hupd as [(_ & _ & ->)|([=] & _)]. done.
Qed.

Lemma AddNewBuildsForPatch_result_witness :
  ∃ s' v1,
    AddNewBuildsForPatch finalizedPatch finalizedVersion exampleProject
      ["osx"; "linux"] finalizedStore = (s', Ok v1) ∧
    v1 = Version.with_Builds finalizedVersion ["p1_0_linux"; "p1_0_osx"]
           [BuildStatus.mk "linux" true "p1_0_linux"] ∧
    versions s' =
      [Version.with_Builds finalizedVersion ["p1_0_linux"; "p1_0_osx"]
         [BuildStatus.mk "linux" true "p1_0_linux"; BuildStatus.mk "osx" true "p1_0_osx"]] ∧
    Build.BuildVariant <$> builds s' = ["linux"; "osx"].
Proof.
  do 2 eexists.
  refine ((λ Hrun, conj Hrun
             (AddNewBuildsForPatch_result finalizedPatch finalizedVersion _ exampleProject
                ["osx"; "linux"] finalizedStore _ Hrun)) _).
  vm_compute. reflexivity.
Defined.

(** ** The builds that [AddNewTasksForPatch] changes *)

Section touches.
Variable v : Version.t.

Lemma touches_builds_of_same (s s' : Store) :
  versions s' = versions s → builds s' = builds s → touches_builds_of v s s'.
Proof.
  intros Hv Hb. split; [done|]. rewrite Hb.
  by apply Forall_Forall2_diag, Forall_forall.
Qed.

#[local] Instance touches_builds_of_refl : Reflexive (touches_builds_of v).
Proof. intros s. by apply touches_builds_of_same. Qed.

#[local] Instance touches_builds_of_trans : Transitive (touches_builds_of v).
Proof.
  intros s1 s2 s3 [Hv12 H12] [Hv23 H23]. split; [congruence|].
  clear Hv12 Hv23. revert H23. generalize (builds s3).
  induction H12 as [|b1 b2 l1 l2 [Hid Hb] _ IH]; intros l3 H23.
  - by inversion H23.
  - inversion H23 as [|? b3 ? l3' [Hid' Hb'] H23']; subst.
    constructor; [|by apply IH]. split; [congruence|].
    intros Hnot. rewrite Hb', Hb; [done..|]. by rewrite Hid.
Qed.

Lemma preserves_foldM_Forall {E A S} (R : Store → Store → Prop)
    `{!Reflexive R, !Transitive R} (f : S → A → Db E S) (acc : S) (l : list A) :
  Forall (λ x, ∀ acc, preserves R (f acc x)) l → preserves R (foldM f acc l).
Proof.
  intros Hl. revert acc. induction Hl as [|x l Hx _ IH]; intros acc; simpl.
  - apply (preserves_ret R).
  - apply (preserves_bind R); [apply Hx|]. intros acc'. apply IH.
Qed.

Lemma preserves_forM_Forall {E A B} (R : Store → Store → Prop)
    `{!Reflexive R, !Transitive R} (f : A → Db E B) (l : list A) :
  Forall (λ x, preserves R (f x)) l → preserves R (forM_ f l).
Proof.
  intros Hl. apply (preserves_foldM_Forall R).
  eapply Forall_impl; [exact Hl|]. intros x Hx _.
  apply (preserves_bind R); [done|]. intros _. apply (preserves_ret R).
Qed.

Lemma AddTasksToBuild_touches (b : Build.t) project (taskNames : list string) :
  Build.Id b ∈ Version.BuildIds v →
  preserves (touches_builds_of v) (AddTasksToBuild b project v taskNames).
Proof.
  intros Hb. unfold AddTasksToBuild.
  apply (preserves_bind (touches_builds_of v));
    [apply (reads_preserves (touches_builds_of v)), validateTasks_reads|].
  intros _. apply (preserves_bind (touches_builds_of v)).
  { apply (preserves_forM_ (touches_builds_of v)).
    by intros t s s' r [(_ & _ & ->)|(_ & ->)]%InsertTask_inv;
      apply touches_builds_of_same. }
  intros _. apply (preserves_bind (touches_builds_of v));
    [|intros _; apply (preserves_ret (touches_builds_of v))].
  intros s s' r [(_ & ->)|(_ & ->)]%UpdateBuildAppendTasks_inv; [|reflexivity].
  split; [done|]. simpl. unfold updateWhere. apply Forall2_fmap_r, Forall_Forall2_diag.
  apply Forall_forall. intros b0 _. simpl. case_bool_decide as Hid; [|done].
  split; [done|]. intros []. by rewrite Hid.
Qed.

Lemma AddNewTasksForPatch_touches (p : Patch.t) (project : Project.t)
    (taskNames : list string) :
  preserves (touches_builds_of v) (AddNewTasksForPatch p v project taskNames).
Proof.
  intros s s' r. unfold AddNewTasksForPatch.
  intros [(e & Hadd & _)|(p' & sa & Hadd & Hrun)]%bind_inv.
  { apply Patch_AddTasks_inv in Hadd as [([=] & _)|(_ & _ & ->)]. reflexivity. }
  assert (touches_builds_of v s sa) as Hsa.
  { unfold Patch_AddTasks in Hadd.
    apply bind_ok in Hadd as ([] & sa' & Hupd & [= <- _]).
    apply UpdatePatchDocument_inv in Hupd as [(_ & _ & ->)|([=] & _)].
    by apply touches_builds_of_same. }
  etrans; [exact Hsa|]. clear Hsa Hadd.
  case_decide; [|injection Hrun as <- _; reflexivity].
  apply bind_inv in Hrun as [(e & [=] & _)|(bs & sb & [= <- <-] & Hrun)].
  revert Hrun. generalize sa at 2 3. intros s0.
  apply (preserves_bind (touches_builds_of v));
    [|intros _; apply (preserves_ret (touches_builds_of v))].
  apply (preserves_forM_Forall (touches_builds_of v)), Forall_forall.
  intros b [Hb _]%list_elem_of_filter. by apply AddTasksToBuild_touches.
Qed.

End touches.

(** X7: [AddNewTasksForPatch] changes no version document, creates and
    removes no build, and changes only builds whose id is listed by the
    version struct it was given: the builds of other versions keep their
    tasks, whatever the outcome of the call. *)
Theorem AddNewTasksForPatch_touches_version_builds (p : Patch.t) (v : Version.t)
    (project : Project.t) (taskNames : list string) (s s' : Store)
    (r : result error Patch.t) :
  AddNewTasksForPatch p v project taskNames s = (s', r) →
  versions s' = versions s ∧
  Build.Id <$> builds s' = Build.Id <$> builds s ∧
  ∀ i b, builds s !! i = Some b → Build.Id b ∉ Version.BuildIds v →
         builds s' !! i = Some b.
Proof.
  intros [Hv Hb]%AddNewTasksForPatch_touches.
  split; [done|]. split.
  - induction Hb as [|b b' l l' [Hid _] _ IH]; [done|]. rewrite !fmap_cons. by f_equal.
  - intros i b Hi Hnot.
    destruct (Forall2_lookup_l _ _ _ _ _ Hb Hi) as (b' & Hi' & _ & Heq).
    by rewrite Hi', Heq.
Qed.

Lemma AddNewTasksForPatch_touches_version_builds_witness :
  ∃ s' r,
    AddNewTasksForPatch finalizedPatch finalizedVersion exampleProject ["test"]
      (mkStore [finalizedPatch] [finalizedVersion]
         [Build.mk "p1_0_linux" "p1_0" "linux" ["p1_0_linux_compile"] true;
          Build.mk "p2_0_linux" "p2_0" "linux" [] true] []) = (s', r) ∧
    versions s' = [finalizedVersion] ∧
    Build.Id <$> builds s' = ["p1_0_linux"; "p2_0_linux"] ∧
    ∀ i b,
      [Build.mk "p1_0_linux" "p1_0" "linux" ["p1_0_linux_compile"] true;
       Build.mk "p2_0_linux" "p2_0" "linux" [] true] !! i = Some b →
      Build.Id b ∉ Version.BuildIds finalizedVersion →
      builds s' !! i = Some b.
Proof.
  do 2 eexists.
  refine ((λ Hrun, conj Hrun
             (AddNewTasksForPatch_touches_version_builds finalizedPatch finalizedVersion
                exampleProject ["test"] _ _ _ Hrun)) _).
  vm_compute. reflexivity.
Defined.

(** ** The answers of [schedulePatch] *)

Lemma Patch_SetVariantsTasks_ok (p p' : Patch.t) vts (s s' : Store) :
  Patch_SetVariantsTasks p vts s = (s', Ok p') → p' = Patch.with_VariantsTasks p vts.
Proof.
  unfold Patch_SetVariantsTasks. by intros ([] & s1 & _ & [= _ <-])%bind_ok.
Qed.

Lemma outcomes_orRespond_any {A} (P : response → Prop) (Q : A → Prop) (f : error → response)
    (m : Db error A) :
  (∀ e, P (f e)) → (∀ s s' a, m s = (s', Ok a) → Q a) →
  outcomes P Q (orRespond f m).
Proof.
  intros Hf HQ s s' r [(a & Hs & ->)|(e & _ & ->)]%orRespond_inv; [by eapply HQ|done].
Qed.

Lemma schedulePatch_update_None Include env projCtx p project (s : Store) :
  schedulePatch_update Include env projCtx p project None s = (s, Err StatusBadRequest).
Proof. done. Qed.

(** Once the body is decoded, the handler answers with an internal error of
    one of its steps, with OK, or panics in [FinalizePatch], which needs a
    configuration that decodes. *)
Lemma schedulePatch_update_Some Include env projCtx p project vts :
  outcomes (update_answer (yamlUnmarshal env (Patch.PatchedConfig p) ≠ None))
    (update_answer (yamlUnmarshal env (Patch.PatchedConfig p) ≠ None))
    (schedulePatch_update Include env projCtx p project (Some vts)).
Proof.
  unfold schedulePatch_update.
  eapply (outcomes_bind _ (λ _, True)); [by intros ??? [= _ <-]|]. intros vts' _.
  eapply (outcomes_bind _ (λ p', Patch.PatchedConfig p' = Patch.PatchedConfig p)).
  { apply outcomes_orRespond_any; [done|].
    by intros s s' p' ->%Patch_SetDescription_ok. }
  intros p' Hp'. case_decide.
  - eapply (outcomes_bind _ (λ _, True)).
    { intros s s' r [-> ->]%fromOption_inv. by destruct (projectContext.Version _). }
    intros version _.
    eapply (outcomes_bind _ (λ _, True)); [by apply outcomes_orRespond_any|].
    intros p'' _.
    eapply (outcomes_bind _ (λ _, True)); [by apply outcomes_orRespond_any|].
    intros _ _. by apply outcomes_ret.
  - eapply (outcomes_bind _ (λ p'', Patch.PatchedConfig p'' = Patch.PatchedConfig p)).
    { apply outcomes_orRespond_any; [done|].
      by intros s s' p'' ->%Patch_SetVariantsTasks_ok. }
    intros p'' Hp''.
    eapply (outcomes_bind _ (λ _, True)); [|intros; by apply outcomes_ret].
    intros s s' r [(a & _ & ->)|(e & Hs & ->)]%orRespond_inv; [done|].
    destruct e; try done. simpl.
    pose proof (FinalizePatch_lookups env p'' s) as Hlook. rewrite Hp'' in Hlook.
    destruct (yamlUnmarshal env _); [done|]. congruence.
Qed.

Ltac refusal_cases :=
  simpl in *; repeat split; intros;
  repeat match goal with
         | H : ∃ _, _ |- _ => destruct H
         | H : _ ∧ _ |- _ => destruct H
         end;
  simplify_eq; try done; try (do 2 eexists; split_and!; first [done|congruence]).

(** X8: the refusals of [schedulePatch], in the order of its checks. It
    answers not found exactly when the context has no patch, and
    unauthorized exactly when the context has a patch that the user may not
    edit. When the user may edit and the patch document is found, the
    configuration of the document is decoded next: when it does not decode,
    the internal error written by [LoggedError] is the answer of the
    request, whatever the handler does afterwards; so the answer is bad
    request exactly when, besides, the configuration decodes and the body
    does not. A refusal (not found, unauthorized, bad request) has written
    nothing. *)
Theorem schedulePatch_refusals (env : Env) (projCtx : projectContext.t)
    (canEdit : bool) (body : option (list VariantTasks.t)) (s s' : Store)
    (resp : response) :
  schedulePatch env projCtx canEdit body s = (s', resp) →
  (resp = StatusNotFound ↔ projectContext.Patch projCtx = None) ∧
  (resp = StatusUnauthorized ↔
     projectContext.Patch projCtx ≠ None ∧ canEdit = false) ∧
  (resp = StatusInternalServerError "Error unmarshaling project config"
            ConfigUnmarshalError ↔
     ∃ p q, projectContext.Patch projCtx = Some p ∧ canEdit = true ∧
            persistedPatch (Patch.Id p) s = Some q ∧
            yamlUnmarshal env (Patch.PatchedConfig q) = None) ∧
  (resp = StatusBadRequest ↔
     ∃ p q, projectContext.Patch projCtx = Some p ∧ canEdit = true ∧
            persistedPatch (Patch.Id p) s = Some q ∧
            yamlUnmarshal env (Patch.PatchedConfig q) ≠ None ∧ body = None) ∧
  (rejection resp → s' = s).
Proof.
  intros (r & Hrun & <-)%schedulePatch_unfold.
  apply schedulePatch_run_with_inv in Hrun
    as [(Hctx & -> & ->)|(c & Hctx & [(-> & -> & ->)|[(-> & Hp & -> & ->)|
                                                        (p & r0 & -> & Hp & Hrun & ->)]])];
    rewrite Hctx; [refusal_cases..|].
  destruct body as [vts|].
  - apply schedulePatch_update_Some in Hrun.
    destruct (yamlUnmarshal env (Patch.PatchedConfig p)) as [project|] eqn:Hyaml.
    + assert (update_answer (Some project ≠ None) (answerOf r0)) as Hans
        by (by destruct r0).
      simpl. destruct (answerOf r0); simpl in Hans; refusal_cases.
    + assert (answerOf (relabel
                (Some (StatusInternalServerError "Error unmarshaling project config"
                         ConfigUnmarshalError)) r0) =
              StatusInternalServerError "Error unmarshaling project config"
                ConfigUnmarshalError) as ->.
      { destruct r0 as [a|e]; [done|]. by destruct e. }
      refusal_cases.
  - rewrite schedulePatch_update_None in Hrun. injection Hrun as <- <-.
    destruct (yamlUnmarshal env (Patch.PatchedConfig p)) as [project|] eqn:Hyaml;
      refusal_cases.
Qed.

Lemma schedulePatch_refusals_witness :
  schedulePatch exampleEnv (loadContext "p1" pendingStore) true None pendingStore =
    (pendingStore, StatusBadRequest) ∧
  (rejection StatusBadRequest → pendingStore = pendingStore).
Proof.
  refine ((λ Hrun, conj Hrun
             (proj2 (proj2 (proj2 (proj2
                (schedulePatch_refusals exampleEnv (loadContext "p1" pendingStore) true
                   None pendingStore pendingStore StatusBadRequest Hrun)))))) _).
  vm_compute. reflexivity.
Defined.

(** ** A patch is finalized once *)

Lemma find_patch_le (id : string) (l l' : list Patch.t) (q : Patch.t) :
  Forall2 patch_le l l' →
  List.find (λ p, bool_decide (Patch.Id p = id)) l = Some q →
  ∃ q', List.find (λ p, bool_decide (Patch.Id p = id)) l' = Some q' ∧
        Patch.Version q' = Patch.Version q.
Proof.
  induction 1 as [|x x' l l' (Hid & Hver & _) _ IH]; [done|]. simpl. rewrite Hid.
  case_bool_decide; [|done]. intros [= <-]. by exists x'.
Qed.

Lemma persistedPatch_grows (id : string) (s s' : Store) (q : Patch.t) :
  grows s s' → persistedPatch id s = Some q →
  ∃ q', persistedPatch id s' = Some q' ∧ Patch.Version q' = Patch.Version q.
Proof. intros (Hp & _). by apply find_patch_le. Qed.

Lemma persistedPatch_id (id : string) (s : Store) (q : Patch.t) :
  persistedPatch id s = Some q → Patch.Id q = id.
Proof. by intros [_ ?%bool_decide_eq_true]%find_some. Qed.

Lemma find_updateWhere_selected (id : string) (f : Patch.t → Patch.t) (l : list Patch.t) :
  (∀ x, Patch.Id (f x) = Patch.Id x) →
  id ∈ Patch.Id <$> l →
  ∃ x, List.find (λ p, bool_decide (Patch.Id p = id))
         (updateWhere (λ p, bool_decide (Patch.Id p = id)) f l) = Some (f x).
Proof.
  intros Hf. unfold updateWhere. induction l as [|x l IH]; [by intros ?%elem_of_nil|].
  rewrite !fmap_cons. simpl. intros Hin.
  destruct (decide (Patch.Id x = id)) as [Hx|Hx].
  - rewrite (bool_decide_eq_true_2 _ Hx). exists x.
    by rewrite (bool_decide_eq_true_2 (Patch.Id (f x) = id)) by by rewrite Hf.
  - rewrite (bool_decide_eq_false_2 _ Hx), (bool_decide_eq_false_2 _ Hx).
    apply IH. by apply elem_of_cons in Hin as [?|?]; [congruence|].
Qed.

Lemma append_suffix_nonempty (a b : string) : b ≠ "" → a +:+ b ≠ "".
Proof. intros Hb. destruct a; [done|]. simpl. discriminate. Qed.

(** After an OK answer, the patch document that the handler reloads is
    finalized. *)
Lemma schedulePatch_update_ok_finalized Include (env : Env) (projCtx : projectContext.t)
    (p : Patch.t) (project : Project.t) (body : option (list VariantTasks.t))
    (s s' : Store) r (vid : string) :
  persistedPatch (Patch.Id p) s = Some p →
  schedulePatch_update Include env projCtx p project body s = (s', r) →
  answerOf r = StatusOK vid →
  ∃ q, persistedPatch (Patch.Id p) s' = Some q ∧ Patch.Version q ≠ "".
Proof.
  intros Hq0 Hrun Hok.
  destruct (decide (Patch.Version p ≠ "")) as [Hver|Hver].
  { pose proof (schedulePatch_update_grows _ _ _ _ _ _ Hver _ _ _ Hrun) as Hg.
    destruct (persistedPatch_grows _ _ _ _ Hg Hq0) as (q' & Hq' & Hv).
    exists q'. by rewrite Hv. }
  apply dec_stable in Hver.
  revert Hrun. unfold schedulePatch_update.
  intros [(e & [-> Hb]%fromOption_inv & ->)|(vts & s1 & [-> _]%fromOption_inv & Hrun)]%bind_inv.
  { by destruct body; simplify_eq. }
  apply bind_inv in Hrun as [(e & Hs & ->)|(p' & s1 & Hs & Hrun)].
  { by apply orRespond_inv in Hs as [(? & _ & [=])|(? & _ & [= ->])]. }
  apply orRespond_inv in Hs as [(? & Hs & [= <-])|(? & _ & [=])].
  apply Patch_SetDescription_ok in Hs as ->. simpl in Hrun.
  rewrite decide_False in Hrun by (by intros []).
  apply bind_inv in Hrun as [(e & Hs & ->)|(p' & s2 & Hs & Hrun)].
  { by apply orRespond_inv in Hs as [(? & _ & [=])|(? & _ & [= ->])]. }
  apply orRespond_inv in Hs as [(? & Hs & [= <-])|(? & _ & [=])].
  apply Patch_SetVariantsTasks_ok in Hs as ->.
  apply bind_inv in Hrun as [(e & Hs & ->)|(ver & s3 & Hs & [= <- <-])].
  { apply orRespond_inv in Hs as [(? & _ & [=])|(e' & _ & [= ->])]. by destruct e'. }
  apply orRespond_inv in Hs as [(? & Hs & [= <-])|(? & _ & [=])].
  apply FinalizePatch_ok in Hs as (project' & commit & _ & _ & Hin & ->). simpl in *.
  destruct (find_updateWhere_selected (Patch.Id p)
              (λ q, Patch.with_Version q (Patch.Id p +:+ "_" +:+ "0") true)
              (patches s2)) as (x & Hx); [done..|].
  eexists. split; [exact Hx|]. simpl. by apply append_suffix_nonempty.
Qed.

Lemma schedulePatch_run_ok_finalized (env : Env) (projCtx : projectContext.t)
    (canEdit : bool) (body : option (list VariantTasks.t)) (ctxPatch : Patch.t)
    (s s' : Store) r (vid : string) :
  projectContext.Patch projCtx = Some ctxPatch →
  schedulePatch_run env projCtx canEdit body s = (s', r) →
  answerOf r = StatusOK vid →
  ∃ q, persistedPatch (Patch.Id ctxPatch) s' = Some q ∧ Patch.Version q ≠ "".
Proof.
  intros Hctx
    [(_ & _ & ->)|(c & Hc & [(_ & _ & ->)|[(_ & _ & _ & ->)|
                                              (p & r0 & _ & Hp & Hrun & ->)]])]%schedulePatch_run_with_inv;
    try done.
  rewrite Hctx in Hc. injection Hc as <-. intros Hok.
  pose proof (persistedPatch_id _ _ _ Hp) as Hid. rewrite <- Hid in Hp |- *.
  assert (answerOf r0 = StatusOK vid) as Hok0.
  { destruct (yamlUnmarshal env _); [done|]. destruct r0 as [a|e]; [done|]. by destruct e. }
  by eapply schedulePatch_update_ok_finalized.
Qed.

(** X9: through [schedulePatch] a patch is finalized once. After a request
    answered OK, the patch document that the handler reloads names a
    version; and whatever a later request for the same patch asks and is
    answered, it creates no version document and changes the version of no
    patch document. *)
Theorem schedulePatch_finalizes_once (env : Env) (ctx1 ctx2 : projectContext.t)
    (canEdit1 canEdit2 : bool) (body1 body2 : option (list VariantTasks.t))
    (p1 p2 : Patch.t) (s0 s1 s2 : Store) (vid : string) (resp : response) :
  projectContext.Patch ctx1 = Some p1 →
  projectContext.Patch ctx2 = Some p2 →
  Patch.Id p2 = Patch.Id p1 →
  schedulePatch env ctx1 canEdit1 body1 s0 = (s1, StatusOK vid) →
  schedulePatch env ctx2 canEdit2 body2 s1 = (s2, resp) →
  (∃ q, persistedPatch (Patch.Id p1) s1 = Some q ∧ Patch.Version q ≠ "") ∧
  Version.Id <$> versions s2 = Version.Id <$> versions s1 ∧
  Patch.Version <$> patches s2 = Patch.Version <$> patches s1.
Proof.
  intros Hctx1 Hctx2 Hid (r1 & Hrun1 & Hok)%schedulePatch_unfold
    (r2 & Hrun2 & _)%schedulePatch_unfold.
  destruct (schedulePatch_run_ok_finalized _ _ _ _ _ _ _ _ _ Hctx1 Hrun1 Hok)
    as (q & Hq & Hver).
  split; [by exists q|].
  assert (grows s1 s2) as Hg.
  { eapply schedulePatch_run_persisted_grows; [exact Hctx2| |exact Hrun2].
    intros q'. rewrite Hid, Hq. by intros [= <-]. }
  split; [by apply grows_version_ids|].
  destruct Hg as (Hp & _).
  induction Hp as [|x x' l l' (_ & Hv & _) _ IH]; [done|].
  rewrite !fmap_cons. by f_equal.
Qed.

Lemma schedulePatch_finalizes_once_witness :
  ∃ s1 s2 resp,
    schedulePatch exampleEnv (projectContext.mk (Some pendingPatch) None) true
      (Some [VariantTasks.mk "linux" ["compile"]]) pendingStore = (s1, StatusOK "p1_0") ∧
    schedulePatch exampleEnv
      (projectContext.mk (Some finalizedPatch) (Some finalizedVersion)) true
      (Some [VariantTasks.mk "osx" ["compile"]]) s1 = (s2, resp) ∧
    (∃ q, persistedPatch "p1" s1 = Some q ∧ Patch.Version q ≠ "") ∧
    Version.Id <$> versions s2 = Version.Id <$> versions s1 ∧
    Patch.Version <$> patches s2 = Patch.Version <$> patches s1.
Proof.
  exists finalizedStore. do 2 eexists.
  split; [vm_compute; reflexivity|]. split; [vm_compute; reflexivity|].
  eapply (schedulePatch_finalizes_once exampleEnv
           (projectContext.mk (Some pendingPatch) None)
           (projectContext.mk (Some finalizedPatch) (Some finalizedVersion))
           true true (Some [VariantTasks.mk "linux" ["compile"]])
           (Some [VariantTasks.mk "osx" ["compile"]])
           pendingPatch finalizedPatch pendingStore finalizedStore _ "p1_0" _
           eq_refl eq_refl eq_refl);
    vm_compute; reflexivity.
Defined.

(** * The other packages: properties *)

(** ** The pages of a patch *)

Lemma variantMappings_fold (name : string) (l : list BuildVariant.t)
    (m : gmap string BuildVariant.t) :
  foldl (λ m variant, <[BuildVariant.Name variant := variant]> m) m l !! name =
  match last (filter (λ v, BuildVariant.Name v = name) l) with
  | Some v => Some v
  | None => m !! name
  end.
Proof.
  revert m. induction l as [|x l IH]; intros m; [done|]. simpl. rewrite IH.
  rewrite filter_cons. case_decide as Hx.
  - rewrite last_cons. destruct (last _); [done|]. by rewrite Hx, lookup_insert_eq.
  - destruct (last _); [done|]. by rewrite lookup_insert_ne.
Qed.

(** X10: the map of variants that [patchPage] gives to the page holds, for
    each name, the last variant of the project with that name: of two
    variants with one name, the earlier one is not shown. *)
Theorem variantMappings_lookup (project : Project.t) (name : string) :
  variantMappings project !! name =
  last (filter (λ v, BuildVariant.Name v = name) (Project.BuildVariants project)).
Proof.
  unfold variantMappings. rewrite variantMappings_fold.
  destruct (last _); [done|]. apply lookup_empty.
Qed.

(** X11: [rawDiffPage] reads the store and never indexes [fullPatch.Patches]
    out of range: its bounds test covers every patch number, negative ones
    included. It answers OK, with the diff at that index, exactly when the
    context has a patch, the patch document is found, the form value is a
    number, and that number is the index of a module patch. *)
Theorem rawDiffPage_in_range (FetchPatchFiles : Patch.t → list string)
    (Atoi : string → option Z) (projCtx : projectContext.t) (patch_number : string)
    (s s' : Store) (r : result rawDiffAnswer rawDiffAnswer) :
  rawDiffPage FetchPatchFiles Atoi projCtx patch_number s = (s', r) →
  s' = s ∧ r ≠ Ok RawPanic ∧ r ≠ Err RawPanic ∧
  ∀ diff,
    r = Ok (RawOK diff) ↔
    ∃ ctxPatch fullPatch patchNum,
      projectContext.Patch projCtx = Some ctxPatch ∧
      persistedPatch (Patch.Id ctxPatch) s = Some fullPatch ∧
      Atoi patch_number = Some patchNum ∧
      (0 ≤ patchNum)%Z ∧
      FetchPatchFiles fullPatch !! Z.to_nat patchNum = Some diff.
Proof.
  unfold rawDiffPage.
  destruct (projectContext.Patch projCtx) as [ctxPatch|]; simpl.
  2: { intros [= <- <-]. split_and!; [done..|]. intros diff. split; [done|].
       by intros (? & ? & ? & [=] & _). }
  erewrite bind_run by reflexivity.
  intros [(e & Hfind & ->)|(fullPatch & s1 & Hfind & Hrun)]%bind_inv.
  { apply orRespond_inv in Hfind as [(? & _ & [=])|(e' & Hfind & [= ->])].
    rewrite FindPatchById_run in Hfind.
    destruct (persistedPatch _ _) eqn:Hp; [done|]. injection Hfind as <-.
    split_and!; [done..|]. intros diff. split; [done|].
    intros (? & ? & ? & [= <-] & Hp' & _). congruence. }
  apply orRespond_inv in Hfind as [(? & Hfind & [= <-])|(? & _ & [=])].
  rewrite FindPatchById_run in Hfind.
  destruct (persistedPatch _ _) as [q|] eqn:Hp; [injection Hfind as <- ->|done].
  destruct (Atoi patch_number) as [patchNum|] eqn:Hnum; simpl in Hrun.
  2: { injection Hrun as <- <-. split_and!; [done..|]. intros diff. split; [done|].
       by intros (? & ? & ? & _ & _ & [=] & _). }
  erewrite bind_run in Hrun by reflexivity.
  case_decide as Hrange.
  { injection Hrun as <- <-. split_and!; [done..|]. intros diff. split; [done|].
    intros (? & ? & n & [= <-] & Hp' & [= <-] & Hpos & Hlook).
    rewrite Hp in Hp'. injection Hp' as <-.
    apply lookup_lt_Some in Hlook. lia. }
  destruct (FetchPatchFiles fullPatch !! Z.to_nat patchNum) as [d|] eqn:Hlook.
  - injection Hrun as <- <-. split_and!; [done..|]. intros diff. split.
    + intros [= <-]. exists ctxPatch, fullPatch, patchNum. split_and!; [done..|lia|done].
    + intros (? & ? & n & [= <-] & Hp' & [= <-] & Hpos & Hlook').
      rewrite Hp in Hp'. injection Hp' as <-. congruence.
  - apply lookup_ge_None in Hlook. lia.
Qed.

Lemma rawDiffPage_in_range_witness :
  ∃ r, rawDiffPage (λ _, ["diff0"; "diff1"])
         (λ n, if decide (n = "1") then Some 1%Z else None)
         (loadContext "p1" pendingStore) "1" pendingStore = (pendingStore, r) ∧
       (pendingStore = pendingStore ∧ r ≠ Ok RawPanic ∧ r ≠ Err RawPanic ∧
        ∀ diff,
          r = Ok (RawOK diff) ↔
          ∃ ctxPatch fullPatch patchNum,
            projectContext.Patch (loadContext "p1" pendingStore) = Some ctxPatch ∧
            persistedPatch (Patch.Id ctxPatch) pendingStore = Some fullPatch ∧
            (if decide ("1" = "1") then Some 1%Z else None) = Some patchNum ∧
            (0 ≤ patchNum)%Z ∧
            ["diff0"; "diff1"] !! Z.to_nat patchNum = Some diff).
Proof.
  eexists.
  refine ((λ Hrun, conj Hrun
             (rawDiffPage_in_range (λ _, ["diff0"; "diff1"])
                (λ n, if decide (n = "1") then Some 1%Z else None)
                (loadContext "p1" pendingStore) "1" pendingStore pendingStore _ Hrun)) _).
  vm_compute. reflexivity.
Defined.

(** ** Package [sometimes] *)

(** X12: whatever the draw, the six functions are nested: when [Fifth]
    returns true for a draw so does [Quarter], then [Third], [Half],
    [TwoThirds] and [ThreeQuarters]. *)
Theorem sometimes_nested (getRandNumber : Z) :
  (sometimes.Fifth getRandNumber = true → sometimes.Quarter getRandNumber = true) ∧
  (sometimes.Quarter getRandNumber = true → sometimes.Third getRandNumber = true) ∧
  (sometimes.Third getRandNumber = true → sometimes.Half getRandNumber = true) ∧
  (sometimes.Half getRandNumber = true → sometimes.TwoThirds getRandNumber = true) ∧
  (sometimes.TwoThirds getRandNumber = true →
   sometimes.ThreeQuarters getRandNumber = true).
Proof.
  unfold sometimes.Fifth, sometimes.Quarter, sometimes.Third, sometimes.Half,
    sometimes.TwoThirds, sometimes.ThreeQuarters.
  rewrite !Z.gtb_ltb, !Z.ltb_lt. lia.
Qed.

(** X13: the number of draws, among the 101 that [rand.Intn(101)] can give,
    for which each function returns true: 20 for [Fifth], 25 for [Quarter],
    33 for [Third], 50 for [Half], 66 for [TwoThirds], 75 for
    [ThreeQuarters]. *)
Theorem sometimes_frequencies :
  length sometimes.draws = 101 ∧
  sometimes.frequency sometimes.Fifth = 20 ∧
  sometimes.frequency sometimes.Quarter = 25 ∧
  sometimes.frequency sometimes.Third = 33 ∧
  sometimes.frequency sometimes.Half = 50 ∧
  sometimes.frequency sometimes.TwoThirds = 66 ∧
  sometimes.frequency sometimes.ThreeQuarters = 75.
Proof. by vm_compute. Qed.

(** ** The test server *)

Section CreateTestServer_facts.
Context {APIServer Listener Handler TLSConfig : Type}.
Implicit Types (outside : service.Outside APIServer Listener Handler TLSConfig).
Implicit Types (tlsConfig : option TLSConfig) (st : service.State Listener Handler).

Lemma url_on_inj (u : string) (p q : Z) :
  service.url_on u p → service.url_on u q → p = q.
Proof.
  intros [->| ->] [H|H]; cbn [String.append] in H; try discriminate H.
  - injection H as H. by apply (inj pretty).
  - injection H as H. by apply (inj pretty).
Qed.

Lemma int_wrap_id (z : Z) : (- 2 ^ 63 ≤ z < 2 ^ 63)%Z → service.int_wrap z = z.
Proof. unfold service.int_wrap. intros Hz. rewrite Z.mod_small; lia. Qed.

Lemma CreateTestServer_inv outside tlsConfig st st1 r :
  (- 2 ^ 63 ≤ service.port st < 2 ^ 63 - 1)%Z →
  service.CreateTestServer outside tlsConfig st = (st1, r) →
  service.port st1 =
    (service.port st + match service.New outside with Some _ => 1 | None => 0 end)%Z ∧
  ∀ srv, r = Some srv →
         service.port st1 = (service.port st + 1)%Z ∧
         service.url_on (service.URL srv) (service.port st1).
Proof.
  intros Hport. unfold service.CreateTestServer.
  destruct (service.New outside) as [a|]; [|intros [= <- <-]; split; [lia|done]].
  rewrite int_wrap_id by lia. cbn [service.port service.serving].
  destruct tlsConfig as [c|].
  - destruct (service.GetTLSListener outside _ c) as [l|]; [|by intros [= <- <-]].
    destruct (service.HandlerOf outside a) as [h|]; [|by intros [= <- <-]].
    intros [= <- <-]. split; [done|]. intros srv [= <-]. split; [done|]. by right.
  - destruct (service.GetListener outside _) as [l|]; [|by intros [= <- <-]].
    destruct (service.HandlerOf outside a) as [h|]; [|by intros [= <- <-]].
    intros [= <- <-]. split; [done|]. intros srv [= <-]. split; [done|]. by left.
Qed.

Lemma CreateTestServers_inv
    (calls : list (service.Outside APIServer Listener Handler TLSConfig *
                   option TLSConfig)) st st' results :
  (- 2 ^ 63 ≤ service.port st)%Z →
  (service.port st + Z.of_nat (length calls) < 2 ^ 63)%Z →
  service.CreateTestServers calls st = (st', results) →
  service.port st' = (service.port st + Z.of_nat (service.newServers calls))%Z ∧
  service.newServers calls ≤ length calls ∧
  ∀ srv, Some srv ∈ results →
         ∃ p, (service.port st < p ≤ service.port st')%Z ∧
              service.url_on (service.URL srv) p.
Proof.
  revert st st' results. induction calls as [|[outside tlsConfig] calls IH];
    intros st st' results Hlow Hhigh; simpl.
  - intros [= <- <-]. unfold service.newServers. simpl. split_and!; [lia..|].
    by intros srv ?%elem_of_nil.
  - destruct (service.CreateTestServer outside tlsConfig st) as [st1 r] eqn:Hone.
    destruct (service.CreateTestServers calls st1) as [st2 rs] eqn:Hrest.
    intros [= <- <-]. simpl in Hhigh.
    apply CreateTestServer_inv in Hone as [Hport Hsrv]; [|lia].
    assert (service.port st ≤ service.port st1 ≤ service.port st + 1)%Z as Hle.
    { destruct (service.New outside); lia. }
    apply IH in Hrest as (Hport' & Hcount & Hrs); [|lia..].
    assert (service.newServers ((outside, tlsConfig) :: calls) =
            (match service.New outside with Some _ => 1 | None => 0 end) +
            service.newServers calls) as Hnew.
    { unfold service.newServers. rewrite filter_cons. simpl.
      destruct (service.New outside).
      - by rewrite decide_True.
      - by rewrite decide_False by (by intros [? [=]]). }
    split_and!.
    + rewrite Hnew. destruct (service.New outside); lia.
    + rewrite Hnew. simpl. destruct (service.New outside); lia.
    + intros srv [[= <-]|Hin]%elem_of_cons.
      * destruct (Hsrv _ eq_refl) as [Hp Hu]. exists (service.port st1).
        split; [lia|done].
      * destruct (Hrs _ Hin) as (p & Hp & Hu). exists p. split; [lia|done].
Qed.

(** X14: over a sequence of calls of [CreateTestServer] that does not
    exhaust the range of [int], whatever fails in between, the servers
    created have pairwise distinct URLs; and [port] advances by one for each
    call in which [New] succeeded, whether or not a server came out of
    it. *)
Theorem CreateTestServer_urls_distinct
    (calls : list (service.Outside APIServer Listener Handler TLSConfig *
                   option TLSConfig))
    (st : service.State Listener Handler) :
  (- 2 ^ 63 ≤ service.port st)%Z →
  (service.port st + Z.of_nat (length calls) < 2 ^ 63)%Z →
  NoDup (service.URL <$> omap id (service.CreateTestServers calls st).2) ∧
  service.port (service.CreateTestServers calls st).1 =
    (service.port st + Z.of_nat (service.newServers calls))%Z.
Proof.
  intros Hlow Hhigh.
  destruct (service.CreateTestServers calls st) as [st' results] eqn:Hrun. simpl.
  split; [|by apply CreateTestServers_inv in Hrun as [? _]].
  revert st st' results Hlow Hhigh Hrun.
  induction calls as [|[outside tlsConfig] calls IH];
    intros st st' results Hlow Hhigh; simpl.
  - intros [= <- <-]. constructor.
  - destruct (service.CreateTestServer outside tlsConfig st) as [st1 r] eqn:Hone.
    destruct (service.CreateTestServers calls st1) as [st2 rs] eqn:Hrest.
    intros [= <- <-]. simpl in Hhigh.
    apply CreateTestServer_inv in Hone as [Hport Hsrv]; [|lia].
    assert (service.port st ≤ service.port st1 ≤ service.port st + 1)%Z as Hle.
    { destruct (service.New outside); lia. }
    assert (NoDup (service.URL <$> omap id rs)) as Hnodup by (apply (IH st1 st2); [lia..|done]).
    destruct r as [srv|]; [|done]. simpl. apply NoDup_cons. split; [|done].
    intros (srv' & Hurl & Hin)%list_elem_of_fmap.
    apply list_elem_of_omap in Hin as (o & Hin & Ho). simpl in Ho. subst o.
    destruct (Hsrv _ eq_refl) as [Hp Hu].
    apply CreateTestServers_inv in Hrest as (_ & _ & Hrs); [|lia..].
    destruct (Hrs _ Hin) as (p & Hlt & Hu').
    rewrite Hurl in Hu. pose proof (url_on_inj _ _ _ Hu Hu'). lia.
Qed.

End CreateTestServer_facts.

(** ** The put command of [s3] *)

Section s3_facts.
Variable ValidVisibilities : list string.
Variable validateS3BucketName : string → option string.
Variable validS3Permissions : string → bool.

(** X15: [validateParams] returns [nil] exactly for the commands with a key,
    a secret, a remote file and a content type, with either a local file or
    a filter but not both (so [isMulti] holds exactly when there is no local
    file), not optional when they have a filter, and with a known
    visibility, a valid bucket name and valid permissions. *)
Theorem validateParams_nil_iff (s3pc : s3.S3PutCommand) :
  s3.validateParams ValidVisibilities validateS3BucketName validS3Permissions s3pc = None ↔
  s3.AwsKey s3pc ≠ "" ∧ s3.AwsSecret s3pc ≠ "" ∧
  (s3.LocalFile s3pc = "" ↔ s3.isMulti s3pc = true) ∧
  (s3.Optional s3pc = true → s3.isMulti s3pc = false) ∧
  s3.RemoteFile s3pc ≠ "" ∧ s3.ContentType s3pc ≠ "" ∧
  s3.Visibility s3pc ∈ ValidVisibilities ∧
  validateS3BucketName (s3.Bucket s3pc) = None ∧
  validS3Permissions (s3.Permissions s3pc) = true.
Proof.
  unfold s3.validateParams, s3.isMulti, SliceContains.
  rewrite bool_decide_eq_true, bool_decide_eq_false.
  split.
  - repeat (case_decide; [done|]).
    case_bool_decide; simpl; [|done].
    destruct (validateS3BucketName _); [done|].
    destruct (validS3Permissions _); simpl; [|done].
    intros _.
    destruct (decide (s3.LocalFile s3pc = "")),
      (decide (length (s3.LocalFilesIncludeFilter s3pc) = 0));
      split_and!; try done; tauto.
  - intros (Hkey & Hsecret & Hfile & Hopt & Hremote & Htype & Hvis & Hbucket & Hperm).
    rewrite Hbucket, Hperm, (bool_decide_eq_true_2 _ Hvis). simpl.
    destruct (decide (s3.LocalFile s3pc = "")),
      (decide (length (s3.LocalFilesIncludeFilter s3pc) = 0));
      repeat (case_decide; [tauto|]); done.
Qed.

End s3_facts.

Section Put_facts.
Context {E : Type}.
Variable IsNotExist : E → bool.
Variable BuildFileList : list string → E + list string.
Variable Base : string → string.
Variable s3URL : string → string → string.
Variable PutS3File : string * string → string → string → string → string → option E.

Lemma putFiles_inv (s3pc : s3.S3PutCommand) (files : list string)
    (done0 done : list (string * string)) (err : option (s3.putError E)) :
  s3.putFiles IsNotExist Base s3URL PutS3File s3pc files done0 = (done, err) →
  ∃ k, k ≤ length files ∧
       done = done0 ++ ((λ f, (f, s3.remoteURL Base s3URL s3pc f)) <$> take k files) ∧
       (∀ f, f ∈ take k files → s3.putOutcome Base s3URL PutS3File s3pc f = None) ∧
       match err with
       | None => k = length files
       | Some x =>
           ∃ f e, files !! k = Some f ∧
                  s3.putOutcome Base s3URL PutS3File s3pc f = Some e ∧
                  x = if negb (s3.isMulti s3pc) && (s3.Optional s3pc && IsNotExist e)
                      then s3.errSkippedFile else s3.calleeError e
       end.
Proof.
  revert done0. induction files as [|f files IH]; intros done0; simpl.
  - intros [= <- <-]. exists 0. simpl. rewrite app_nil_r.
    split_and!; [lia|done|by intros ? ?%elem_of_nil|done].
  - fold (s3.remoteURL Base s3URL s3pc f).
    fold (s3.putOutcome Base s3URL PutS3File s3pc f).
    destruct (s3.putOutcome Base s3URL PutS3File s3pc f) as [e|] eqn:Hput.
    + intros Hrun. exists 0. split; [lia|]. rewrite app_nil_r. simpl.
      assert (done = done0 ∧
              err = Some (if negb (s3.isMulti s3pc) && (s3.Optional s3pc && IsNotExist e)
                          then s3.errSkippedFile else s3.calleeError e)) as [-> ->].
      { by destruct (negb _ && _); injection Hrun as <- <-. }
      split_and!; [done|by intros ? ?%elem_of_nil|]. by exists f, e.
    + intros (k & Hk & -> & Hnone & Herr)%IH. exists (S k). simpl.
      split; [lia|]. split; [by rewrite <- app_assoc|]. split.
      * intros f' [->|?]%elem_of_cons; [done|by apply Hnone].
      * destruct err; [done|by f_equal].
Qed.

(** X16: [Put] goes through its files in order and stops at the first one
    that [PutS3File] refuses: the files put are the ones before it, each to
    its own URL, and the error is the one of that file (or [errSkippedFile]);
    without a refusal every file is put and the result is [nil]. When the
    file list cannot be built nothing is put. *)
Theorem Put_stops_at_first_failure (s3pc : s3.S3PutCommand)
    (done : list (string * string)) (err : option (s3.putError E)) :
  s3.Put IsNotExist BuildFileList Base s3URL PutS3File s3pc = (done, err) →
  match s3.filesOf BuildFileList s3pc with
  | inl e => done = [] ∧ err = Some (s3.calleeError e)
  | inr files =>
      ∃ k, k ≤ length files ∧
           done = (λ f, (f, s3.remoteURL Base s3URL s3pc f)) <$> take k files ∧
           (∀ f, f ∈ take k files →
                 s3.putOutcome Base s3URL PutS3File s3pc f = None) ∧
           (err = None ↔ k = length files) ∧
           (k < length files →
            ∃ f e, files !! k = Some f ∧
                   s3.putOutcome Base s3URL PutS3File s3pc f = Some e ∧
                   (err = Some (s3.calleeError e) ∨ err = Some s3.errSkippedFile))
  end.
Proof.
  unfold s3.Put, s3.filesOf. intros Hrun.
  assert (∀ files,
            s3.putFiles IsNotExist Base s3URL PutS3File s3pc files [] = (done, err) →
            ∃ k, k ≤ length files ∧
                 done = (λ f, (f, s3.remoteURL Base s3URL s3pc f)) <$> take k files ∧
                 (∀ f, f ∈ take k files →
                       s3.putOutcome Base s3URL PutS3File s3pc f = None) ∧
                 (err = None ↔ k = length files) ∧
                 (k < length files →
                  ∃ f e, files !! k = Some f ∧
                         s3.putOutcome Base s3URL PutS3File s3pc f = Some e ∧
                         (err = Some (s3.calleeError e) ∨ err = Some s3.errSkippedFile)))
    as Hloop.
  { intros files (k & Hk & -> & Hnone & Herr)%putFiles_inv. exists k.
    split_and!; [done..| |].
    - destruct err as [x|]; [|done]. destruct Herr as (f & e & Hf%lookup_lt_Some & _).
      split; [done|lia].
    - intros Hlt. destruct err as [x|]; [|lia].
      destruct Herr as (f & e & Hf & Hput & ->). exists f, e.
      split_and!; [done..|]. destruct (negb _ && _); auto. }
  destruct (s3.isMulti s3pc); [|by apply Hloop].
  destruct (BuildFileList _) as [e|files]; [by injection Hrun as <- <-|by apply Hloop].
Qed.

(** X17: [Put] returns [errSkippedFile] exactly when the command has no
    filter, is optional, and [PutS3File] refuses its local file with an
    error that [os.IsNotExist] accepts; nothing has been put then. *)
Theorem Put_skips_iff (s3pc : s3.S3PutCommand) (done : list (string * string)) :
  s3.Put IsNotExist BuildFileList Base s3URL PutS3File s3pc =
    (done, Some s3.errSkippedFile) ↔
  done = [] ∧ s3.isMulti s3pc = false ∧ s3.Optional s3pc = true ∧
  ∃ e, s3.putOutcome Base s3URL PutS3File s3pc (s3.LocalFile s3pc) = Some e ∧
       IsNotExist e = true.
Proof.
  unfold s3.Put. split.
  - destruct (s3.isMulti s3pc) eqn:Hmulti.
    + destruct (BuildFileList _) as [e|files]; [done|].
      intros (k & _ & _ & _ & f & e & _ & _ & Hx)%putFiles_inv.
      rewrite Hmulti in Hx. done.
    + intros (k & Hk & -> & _ & f & e & Hf & Hput & Hx)%putFiles_inv.
      rewrite Hmulti in Hx. simpl in *.
      destruct (s3.Optional s3pc); [|done]. destruct (IsNotExist e) eqn:He; [|done].
      destruct k as [|k]; [|by destruct k]. injection Hf as <-.
      split_and!; [done..|]. by exists e.
  - intros (-> & Hmulti & Hopt & e & Hput & He). rewrite Hmulti. simpl.
    fold (s3.remoteURL Base s3URL s3pc (s3.LocalFile s3pc)).
    fold (s3.putOutcome Base s3URL PutS3File s3pc (s3.LocalFile s3pc)).
    by rewrite Hput, Hmulti, Hopt, He.
Qed.

End Put_facts.

(** ** The buildlogger sender *)


(** X19: a configuration that [GetBuildloggerConfig] returns has a test name
    and a phase, [unknown] when the environment gives none; it names no
    build yet, creates no test, and its number is the one that
    [MONGO_BUILD_NUMBER] holds. *)
Theorem GetBuildloggerConfig_defaults (Getenv : string → string)
    (Atoi : string → option Z)
    (ReadCredentialsFromFile : string → option (string * string))
    (conf : send.BuildloggerConfig) :
  send.GetBuildloggerConfig Getenv Atoi ReadCredentialsFromFile = Some conf →
  send.Test conf ≠ "" ∧ send.Phase conf ≠ "" ∧
  send.Test conf ∈ [Getenv "MONGO_TEST_FILENAME"; "unknown"] ∧
  send.Phase conf ∈ [Getenv "MONGO_PHASE"; "unknown"] ∧
  send.buildID conf = "" ∧ send.CreateTest conf = false ∧
  Atoi (Getenv "MONGO_BUILD_NUMBER") = Some (send.Number conf).
Proof.
  unfold send.GetBuildloggerConfig. simpl.
  intros (conf0 & Hcreds & Hrest)%bind_Some.
  apply bind_Some in Hrest as (buildNum & Hnum & [= <-]).
  assert (send.Test conf0 = Getenv "MONGO_TEST_FILENAME" ∧
          send.Phase conf0 = Getenv "MONGO_PHASE" ∧
          send.buildID conf0 = "" ∧ send.CreateTest conf0 = false) as (-> & -> & Hb & Hc).
  { destruct (decide (Getenv "BUILDLOGGER_CREDENTIALS" ≠ ""));
      [|by injection Hcreds as <-].
    apply bind_Some in Hcreds as ([user pass] & _ & [= <-]). done. }
  destruct (decide (Getenv "MONGO_TEST_FILENAME" = "")) as [Ht|Ht]; simpl;
    destruct (decide (Getenv "MONGO_PHASE" = "")) as [Hp|Hp]; simpl;
    rewrite ?Ht, ?Hp; split_and!; try done; set_solver.
Qed.

Lemma getURL_parts (c : send.BuildloggerConfig) (b : send.buildlogger) :
  send.getURL c b =
  String.concat "/"
    ([send.URL c; "build"] ++
     (if decide (send.buildID c ≠ "") then [send.buildID c] else []) ++
     (if decide (send.CreateTest c = true ∧ send.testID b = "") then ["test"] else []) ++
     (if decide (send.testID b ≠ "") then ["test"; send.testID b] else [])).
Proof. unfold send.getURL. by repeat destruct (decide _). Qed.

Lemma Do_inv (b : send.buildlogger) (data : send.payload) (w w' : send.World)
    (a : send.answer) :
  send.Do b data w = (w', a) →
  send.conf w' = send.conf w ∧
  send.requests w' =
    send.requests w ++
      [send.mkRequest (send.getURL (send.conf w) b) data
         (send.username (send.conf w), send.password (send.conf w))] ∧
  send.answers w' = tail (send.answers w) ∧
  a = default send.RequestFailed (head (send.answers w)).
Proof. unfold send.Do. by destruct (send.answers w); intros [= <- <-]. Qed.

Section sender_facts.
Variable NewRequest : string → bool.

Lemma doPost_inv (b : send.buildlogger) (data : send.payload) (w w' : send.World)
    (r : option string) :
  send.doPost NewRequest b data w = (w', r) →
  if NewRequest (send.getURL (send.conf w) b) then
    send.conf w' = send.conf w ∧
    send.requests w' =
      send.requests w ++
        [send.mkRequest (send.getURL (send.conf w) b) data
           (send.username (send.conf w), send.password (send.conf w))] ∧
    send.answers w' = tail (send.answers w) ∧
    (∀ ID, r = Some ID ↔ head (send.answers w) = Some (send.Decoded ID))
  else w' = w ∧ r = None.
Proof.
  unfold send.doPost. destruct (NewRequest _); [|by intros [= <- <-]].
  destruct (send.Do b data w) as [w1 a] eqn:Hsend.
  apply Do_inv in Hsend as (Hc & Hr & Ha & ->).
  destruct (send.answers w) as [|[| |ID'] rest]; simpl; intros [= <- <-];
    split_and!; try done; intros ID; split; congruence.
Qed.

Lemma getURL_test (c : send.BuildloggerConfig) (name : string) :
  send.buildID c ≠ "" → send.CreateTest c = true →
  send.getURL c (send.mkLogger name "") =
  String.concat "/" [send.URL c; "build"; send.buildID c; "test"].
Proof.
  intros Hid Hct. rewrite getURL_parts. simpl.
  rewrite (decide_True (P := send.buildID _ ≠ "")) by done.
  by rewrite (decide_True (P := _ ∧ _)) by done.
Qed.

Lemma MakeBuildlogger_with_build (name : string) (w w' : send.World)
    (r : option send.buildlogger) :
  send.buildID (send.conf w) ≠ "" →
  send.MakeBuildlogger NewRequest name w = (w', r) →
  send.conf w' = send.conf w ∧
  send.requests w' =
    send.requests w ++
      (if send.CreateTest (send.conf w) &&
          NewRequest
            (String.concat "/"
               [send.URL (send.conf w); "build"; send.buildID (send.conf w); "test"])
       then [send.mkRequest
               (String.concat "/"
                  [send.URL (send.conf w); "build"; send.buildID (send.conf w); "test"])
               (send.testData (send.Test (send.conf w)) (send.Command (send.conf w))
                  (send.Phase (send.conf w)))
               (send.username (send.conf w), send.password (send.conf w))]
       else []) ∧
  (send.CreateTest (send.conf w) = true →
   NewRequest
     (String.concat "/"
        [send.URL (send.conf w); "build"; send.buildID (send.conf w); "test"]) = false →
   w' = w ∧ r = None).
Proof.
  intros Hid. unfold send.MakeBuildlogger. rewrite decide_False by done.
  destruct (send.CreateTest (send.conf w)) eqn:Hct; simpl.
  - destruct (send.doPost _ _ _ w) as [w1 o] eqn:Hpost.
    apply doPost_inv in Hpost. rewrite getURL_test in Hpost by done.
    destruct (NewRequest _).
    + destruct Hpost as (Hc & Hr & _). by destruct o; intros [= <- <-].
    + destruct Hpost as [-> ->]. intros [= <- <-]. by rewrite app_nil_r.
  - intros [= <- <-]. by rewrite app_nil_r.
Qed.



(** X22: the configuration is shared, and a sender reads [CreateTest] from
    it each time it builds its URL. A sender made while [CreateTest] is
    unset has the URL [URL/build/<build id>]. Once [CreateTest] is set on
    the configuration and another sender is made from it, as the
    documentation of [GetBuildloggerConfig] describes, the URL of the first
    sender is [URL/build/<build id>/test], the URL of the request that
    creates the test of the second sender. When [http.NewRequest] accepts
    that URL, the second sender's request has just been sent to it and the
    first sender sends its lines to it; when it does not, the second sender
    is not made and the first sender sends no line. *)
Theorem sender_url_follows_shared_flag (name name' : string) (w w1 w2 : send.World)
    (global : send.buildlogger) (r : option send.buildlogger) :
  send.CreateTest (send.conf w) = false →
  send.MakeBuildlogger NewRequest name w = (w1, Some global) →
  send.buildID (send.conf w1) ≠ "" →
  send.MakeBuildlogger NewRequest name'
    (send.mkWorld (send.with_CreateTest (send.conf w1) true) (send.requests w1)
       (send.answers w1)) = (w2, r) →
  let base := [send.URL (send.conf w1); "build"; send.buildID (send.conf w1)] in
  send.getURL (send.conf w1) global = String.concat "/" base ∧
  send.getURL (send.conf w2) global = String.concat "/" (base ++ ["test"]) ∧
  if NewRequest (String.concat "/" (base ++ ["test"])) then
    send.url <$> last (send.requests w2) = Some (send.getURL (send.conf w2) global) ∧
    ∀ lines w3 ok,
      send.postLines NewRequest global lines w2 = (w3, ok) →
      last (send.requests w3) =
        Some (send.mkRequest (String.concat "/" (base ++ ["test"]))
                (send.logLines lines)
                (send.username (send.conf w1), send.password (send.conf w1)))
  else
    r = None ∧ send.requests w2 = send.requests w1 ∧
    ∀ lines, send.postLines NewRequest global lines w2 = (w2, false).
Proof.
  intros Hct Hmake Hid Hmake'.
  assert (global = send.mkLogger name "" ∧ send.CreateTest (send.conf w1) = false)
    as [-> Hct1].
  { revert Hmake. unfold send.MakeBuildlogger.
    destruct (decide (send.buildID (send.conf w) = "")).
    - destruct (send.doPost _ _ _ w) as [w0 [ID|]] eqn:Hpost; [|done].
      assert (send.conf w0 = send.conf w) as Hc.
      { apply doPost_inv in Hpost. destruct (NewRequest _); [by destruct Hpost|].
        by destruct Hpost as [-> _]. }
      cbn [send.conf send.CreateTest send.with_buildID]. rewrite Hc, Hct.
      by intros [= <- <-].
    - rewrite Hct. by intros [= <- <-]. }
  apply MakeBuildlogger_with_build in Hmake' as (Hc2 & Hr2 & Hno); [|done].
  cbn [send.conf send.requests send.with_CreateTest send.CreateTest send.URL
         send.buildID] in Hc2, Hr2, Hno.
  assert (send.getURL (send.conf w2) (send.mkLogger name "") =
          String.concat "/"
            [send.URL (send.conf w1); "build"; send.buildID (send.conf w1); "test"])
    as Hurl2.
  { rewrite Hc2, getURL_parts. cbn [send.with_CreateTest send.CreateTest send.URL
      send.buildID send.testID].
    rewrite (decide_True (P := send.buildID _ ≠ "")) by done.
    by rewrite (decide_True (P := _ ∧ _)) by done. }
  cbv zeta. split_and!.
  - rewrite getURL_parts, Hct1. cbn [send.testID].
    rewrite (decide_True (P := send.buildID _ ≠ "")) by done.
    by rewrite (decide_False (P := _ ∧ _)) by (by intros [[=] _]).
  - done.
  - cbn [app]. destruct (NewRequest _) eqn:Hnew.
    + cbn [andb] in Hr2. split; [by rewrite Hr2, last_snoc, Hurl2|].
      intros lines w3 ok. unfold send.postLines. rewrite Hurl2, Hnew.
      destruct (send.Do _ _ w2) as [w3' a] eqn:Hsend.
      apply Do_inv in Hsend as (_ & Hr3 & _).
      intros Hpost. assert (w3 = w3') as -> by (by destruct a; injection Hpost as <-).
      by rewrite Hr3, last_snoc, Hurl2, Hc2.
    + destruct (Hno eq_refl eq_refl) as [-> ->].
      split_and!; [done|done|].
      intros lines. unfold send.postLines. by rewrite Hurl2, Hnew.
Qed.

End sender_facts.



Lemma sender_url_follows_shared_flag_witness :
  ∃ w1 global w2 r,
    send.MakeBuildlogger (λ _, true) "global"
      (send.mkWorld
         (send.mkConfig false "http://logs" 7 "phase" "builder" "test.js" "cmd" "" "u" "p")
         [] [send.Decoded "b1"; send.Decoded "t1"]) = (w1, Some global) ∧
    send.MakeBuildlogger (λ _, true) "test-one"
      (send.mkWorld (send.with_CreateTest (send.conf w1) true) (send.requests w1)
         (send.answers w1)) = (w2, r) ∧
    send.getURL (send.conf w1) global = "http://logs/build/b1" ∧
    send.getURL (send.conf w2) global = "http://logs/build/b1/test" ∧
    send.url <$> last (send.requests w2) = Some (send.getURL (send.conf w2) global) ∧
    ∀ lines w3 ok,
      send.postLines (λ _, true) global lines w2 = (w3, ok) →
      last (send.requests w3) =
        Some (send.mkRequest "http://logs/build/b1/test" (send.logLines lines) ("u", "p")).
Proof.
  exists (send.mkWorld
            (send.mkConfig false "http://logs" 7 "phase" "builder" "test.js" "cmd" "b1"
               "u" "p")
            [send.mkRequest "http://logs/build" (send.buildData "global" 7) ("u", "p")]
            [send.Decoded "t1"]).
  exists (send.mkLogger "global" ""). do 2 eexists.
  split; [vm_compute; reflexivity|]. split; [vm_compute; reflexivity|].
  eapply (sender_url_follows_shared_flag (λ _, true) "global" "test-one"
            (send.mkWorld
               (send.mkConfig false "http://logs" 7 "phase" "builder" "test.js" "cmd" ""
                  "u" "p")
               [] [send.Decoded "b1"; send.Decoded "t1"]));
    [reflexivity|vm_compute; reflexivity|simpl; discriminate|vm_compute; reflexivity].
Defined.

(** ** Runs of the other packages *)

Lemma Put_stops_at_first_failure_witness :
  ∃ done err,
    s3.Put (λ _, false) logFiles id s3Path refuses_b logsCommand = (done, err) ∧
    ∃ k, k ≤ 3 ∧
         done = (λ f, (f, s3.remoteURL id s3Path logsCommand f))
                  <$> take k ["a.log"; "b.log"; "c.log"] ∧
         (∀ f, f ∈ take k ["a.log"; "b.log"; "c.log"] →
               s3.putOutcome id s3Path refuses_b logsCommand f = None) ∧
         (err = None ↔ k = 3) ∧
         (k < 3 →
          ∃ f e, ["a.log"; "b.log"; "c.log"] !! k = Some f ∧
                 s3.putOutcome id s3Path refuses_b logsCommand f = Some e ∧
                 (err = Some (s3.calleeError e) ∨ err = Some s3.errSkippedFile)).
Proof.
  do 2 eexists.
  refine ((λ Hrun, conj Hrun
             (Put_stops_at_first_failure (λ _, false) logFiles id s3Path refuses_b
                logsCommand _ _ Hrun)) _).
  vm_compute. reflexivity.
Defined.


Lemma GetBuildloggerConfig_defaults_witness :
  ∃ conf,
    send.GetBuildloggerConfig (urlEnv "http://a") atoi7 (λ _, None) = Some conf ∧
    send.Test conf ≠ "" ∧ send.Phase conf ≠ "" ∧
    send.Test conf ∈ [urlEnv "http://a" "MONGO_TEST_FILENAME"; "unknown"] ∧
    send.Phase conf ∈ [urlEnv "http://a" "MONGO_PHASE"; "unknown"] ∧
    send.buildID conf = "" ∧ send.CreateTest conf = false ∧
    atoi7 (urlEnv "http://a" "MONGO_BUILD_NUMBER") = Some (send.Number conf).
Proof.
  eexists.
  refine ((λ Hrun, conj Hrun
             (GetBuildloggerConfig_defaults (urlEnv "http://a") atoi7 (λ _, None) _
                Hrun)) _).
  vm_compute. reflexivity.
Defined.

Lemma CreateTestServer_urls_distinct_witness :
  NoDup (service.URL <$>
           omap id
             (service.CreateTestServers
                [(service.mkOutside unit unit unit unit (Some tt) (λ _, Some tt)
                    (λ _ _, Some tt) (λ _, Some tt), None);
                 (service.mkOutside unit unit unit unit (Some tt) (λ _, None)
                    (λ _ _, Some tt) (λ _, Some tt), None);
                 (service.mkOutside unit unit unit unit (Some tt) (λ _, Some tt)
                    (λ _ _, Some tt) (λ _, Some tt), Some tt)]
                service.initial).2) ∧
  service.port
    (service.CreateTestServers
       [(service.mkOutside unit unit unit unit (Some tt) (λ _, Some tt)
           (λ _ _, Some tt) (λ _, Some tt), None);
        (service.mkOutside unit unit unit unit (Some tt) (λ _, None)
           (λ _ _, Some tt) (λ _, Some tt), None);
        (service.mkOutside unit unit unit unit (Some tt) (λ _, Some tt)
           (λ _ _, Some tt) (λ _, Some tt), Some tt)]
       service.initial).1 = 8184%Z.
Proof.
  apply (CreateTestServer_urls_distinct
           [(service.mkOutside unit unit unit unit (Some tt) (λ _, Some tt)
               (λ _ _, Some tt) (λ _, Some tt), None);
            (service.mkOutside unit unit unit unit (Some tt) (λ _, None)
               (λ _ _, Some tt) (λ _, Some tt), None);
            (service.mkOutside unit unit unit unit (Some tt) (λ _, Some tt)
               (λ _ _, Some tt) (λ _, Some tt), Some tt)]
           service.initial); simpl; lia.
Defined.
